(** * LruMap: a policy based LRU cache map (lru_map.h)

    A shallow embedding of the class template [LruMap] of [lru_map.h] and of
    its policy classes, and the properties of the cache engine proved on it.

    Modelling choices, all of them local to this file:

    - [int64_t] values are integers of [Z].  Signed overflow is undefined
      behaviour in C++, so [x += 1] is the partial operation [incr64]: it is
      defined below [INT64_MAX] and [Undefined] at it.
    - [std::list<KeyValueEntry>] is a list of nodes.  A node is a pair of its
      address and the entry it stores; an iterator is a node address.  The
      address of a node never changes while the node is in the list
      ([splice] relinks it, it does not copy it), and [push_front] allocates
      an address that no node of the list has: [fresh_node] takes the one
      after the largest in use, so that the address of an erased node can
      come back, and the proofs use of it only that it is not in the list
      ([fresh_node_fresh]).  Dereferencing, splicing or erasing through an
      address that is not in the list is [Undefined].
    - [std::unordered_map<KeyType, ItemListIter>] is a [gmap] from keys to
      node addresses.
    - [CHECK] and [DCHECK] of glog abort the process: [CheckFailed].  The
      [DCHECK]s are modelled as compiled in (a build without [NDEBUG]).
    - [MicrosecondsSinceEpoch()] reads the system clock; an operation that
      may read the clock takes the reading as its argument [now].
    - The INFO lines that the constructor and the logging policies emit
      are appended to [glog_], a field kept with the map so that an
      operation is a function of one state.
    - The locking policies take a mutex for the duration of a call; the
      embedding is of one thread of calls, where they have no effect. *)

From Stdlib Require Import ZArith Lia.
From stdpp Require Import base option list sorting strings gmap fin_maps.

(** ** Results of running C++ code *)

Inductive outcome (A : Type) : Type :=
  | Done (a : A)
  | CheckFailed
  | Undefined.

Arguments Done {A} a.
Arguments CheckFailed {A}.
Arguments Undefined {A}.

#[global] Instance outcome_ret : MRet outcome := λ A a, Done a.

#[global] Instance outcome_bind : MBind outcome := λ A B f x,
  match x with
  | Done a => f a
  | CheckFailed => CheckFailed
  | Undefined => Undefined
  end.

(** [CHECK(cond)]. *)
Definition CHECK (cond : bool) : outcome unit :=
  if cond then Done tt else CheckFailed.

(** [DCHECK(cond)], compiled in. *)
Definition DCHECK (cond : bool) : outcome unit := CHECK cond.

(** [std::numeric_limits<int64_t>::max()] and [min()]. *)
Definition INT64_MAX : Z := 2 ^ 63 - 1.
Definition INT64_MIN : Z := - 2 ^ 63.

(** [x += 1] on an [int64_t]. *)
Definition incr64 (x : Z) : outcome Z :=
  if (x <? INT64_MAX)%Z then Done (x + 1)%Z else Undefined.

(** ** LruMapStats *)

Record LruMapStats : Type := {
  num_insert : Z;
  num_overflow : Z;
  num_find : Z;
  num_find_ok : Z;
  num_erase : Z;
  num_clear : Z
}.

(** The member initialisers [{0}]. *)
Definition LruMapStats_init : LruMapStats :=
  {| num_insert := 0; num_overflow := 0; num_find := 0;
     num_find_ok := 0; num_erase := 0; num_clear := 0 |}.

(** ** The policies *)

Inductive TimestampingPolicy : Type := TimestampNone | TimestampAll.
Inductive HitCountingPolicy : Type := HitCountDisabled | HitCountEnabled.
Inductive LoggingPolicy : Type := LogEventNone | LogEventOverflow | LogEventAll.

Record Policies : Type := {
  timestamping : TimestampingPolicy;
  hit_counting : HitCountingPolicy;
  logging : LoggingPolicy
}.

(** The defaults of the template parameters. *)
Definition default_policies : Policies :=
  {| timestamping := TimestampNone;
     hit_counting := HitCountDisabled;
     logging := LogEventNone |}.

(** The address of a list node. *)
Definition node : Type := nat.

Section LruMap.

Context {KeyType : Type} `{Countable KeyType} {ValueType : Type}.
Variable P : Policies.

(** ** KeyValueT *)

(** The timestamp and hit count members exist only under [TimestampAll] and
    [HitCountEnabled]; under the other policies nothing writes the fields
    below and they keep their initial 0. *)
Record KeyValueEntry : Type := {
  key : KeyType;
  value : ValueType;
  access_time_usecs : Z;
  modify_time_usecs : Z;
  hit_count : Z
}.

(** [KeyValueT(k, v)]. *)
Definition KeyValueT (k : KeyType) (v : ValueType) : KeyValueEntry :=
  {| key := k; value := v;
     access_time_usecs := 0; modify_time_usecs := 0; hit_count := 0 |}.

Definition set_value (v : ValueType) (e : KeyValueEntry) : KeyValueEntry :=
  {| key := key e; value := v;
     access_time_usecs := access_time_usecs e;
     modify_time_usecs := modify_time_usecs e;
     hit_count := hit_count e |}.

Definition set_access_time_usecs (t : Z) (e : KeyValueEntry) : KeyValueEntry :=
  {| key := key e; value := value e;
     access_time_usecs := t;
     modify_time_usecs := modify_time_usecs e;
     hit_count := hit_count e |}.

Definition set_modify_time_usecs (t : Z) (e : KeyValueEntry) : KeyValueEntry :=
  {| key := key e; value := value e;
     access_time_usecs := access_time_usecs e;
     modify_time_usecs := t;
     hit_count := hit_count e |}.

Definition set_hit_count (n : Z) (e : KeyValueEntry) : KeyValueEntry :=
  {| key := key e; value := value e;
     access_time_usecs := access_time_usecs e;
     modify_time_usecs := modify_time_usecs e;
     hit_count := n |}.

(** ** std::list<KeyValueEntry> *)

Local Abbreviation ItemList := (list (node * KeyValueEntry)).

(** An address that no node of the list has.  The allocator of the program
    may return any such address; the properties below depend on the choice
    made here only through [fresh_node_fresh], and none compares the
    addresses of two runs. *)
Definition fresh_node (l : ItemList) : node := S (max_list (l.*1)).

(** [*it]. *)
Fixpoint list_deref (it : node) (l : ItemList) : outcome KeyValueEntry :=
  match l with
  | [] => Undefined
  | (a, e) :: l' => if decide (a = it) then Done e else list_deref it l'
  end.

(** The list without the node at [it]. *)
Fixpoint list_unlink (it : node) (l : ItemList) : ItemList :=
  match l with
  | [] => []
  | (a, e) :: l' => if decide (a = it) then l' else (a, e) :: list_unlink it l'
  end.

(** [l.erase(it)]. *)
Definition list_erase (it : node) (l : ItemList) : outcome ItemList :=
  _ ← list_deref it l; mret (list_unlink it l).

(** [l.splice(l.begin(), l, it)]: the node at [it] is relinked at the front. *)
Definition list_splice_begin (it : node) (l : ItemList) : outcome ItemList :=
  e ← list_deref it l; mret ((it, e) :: list_unlink it l).

(** [l.push_front(e)]. *)
Definition list_push_front (e : KeyValueEntry) (l : ItemList) : ItemList :=
  (fresh_node l, e) :: l.

(** [l.begin()], as the address of the first node; on an empty list it is
    [l.end()], which the code below never stores or dereferences. *)
Definition list_begin (l : ItemList) : outcome node :=
  match l with
  | [] => Undefined
  | (a, _) :: _ => Done a
  end.

(** [*l.begin()]. *)
Definition list_front (l : ItemList) : outcome KeyValueEntry :=
  match l with
  | [] => Undefined
  | (_, e) :: _ => Done e
  end.

(** A write through [&*l.begin()]. *)
Definition list_front_write (f : KeyValueEntry → outcome KeyValueEntry)
    (l : ItemList) : outcome ItemList :=
  match l with
  | [] => Undefined
  | (a, e) :: l' => e' ← f e; mret ((a, e') :: l')
  end.

(** [*--l.end()]. *)
Definition list_back (l : ItemList) : outcome KeyValueEntry :=
  match last l with
  | None => Undefined
  | Some (_, e) => Done e
  end.

(** [l.pop_back()]. *)
Definition list_pop_back (l : ItemList) : outcome ItemList :=
  match l with
  | [] => Undefined
  | _ :: _ => Done (removelast l)
  end.

(** ** std::unordered_map<KeyType, ItemListIter> *)

(** [m.insert({k, it})], with the [bool] of the returned pair. *)
Definition map_insert (k : KeyType) (it : node) (m : gmap KeyType node)
    : gmap KeyType node * bool :=
  match m !! k with
  | Some _ => (m, false)
  | None => (<[k := it]> m, true)
  end.

(** ** TimestampingPolicy *)

Definition UpdateAccessTimestamp (now : Z) (e : KeyValueEntry) : KeyValueEntry :=
  match timestamping P with
  | TimestampNone => e
  | TimestampAll => set_access_time_usecs now e
  end.

Definition UpdateModifyTimestamp (now : Z) (e : KeyValueEntry) : KeyValueEntry :=
  match timestamping P with
  | TimestampNone => e
  | TimestampAll => set_modify_time_usecs now e
  end.

(** The loop of [TimestampAll::Valid], [prev_usecs] being the loop variable. *)
Fixpoint TimestampAll_Valid_from (prev_usecs : Z) (l : ItemList) : bool :=
  match l with
  | [] => true
  | (_, kv_entry) :: l' =>
      let current_recent_usecs :=
        Z.max (access_time_usecs kv_entry) (modify_time_usecs kv_entry) in
      if (prev_usecs <? current_recent_usecs)%Z then false
      else TimestampAll_Valid_from current_recent_usecs l'
  end.

Definition TimestampAll_Valid (l : ItemList) : bool :=
  TimestampAll_Valid_from INT64_MAX l.

Definition TimestampNone_Valid (l : ItemList) : bool := true.

Definition TimestampingPolicy_Valid (l : ItemList) : bool :=
  match timestamping P with
  | TimestampNone => TimestampNone_Valid l
  | TimestampAll => TimestampAll_Valid l
  end.

(** ** HitCountingPolicy *)

Definition IncrementHitCount (e : KeyValueEntry) : outcome KeyValueEntry :=
  match hit_counting P with
  | HitCountDisabled => Done e
  | HitCountEnabled => n ← incr64 (hit_count e); mret (set_hit_count n e)
  end.

(** ** LoggingPolicy *)

(** One INFO line: one of the two lines of the constructor, on the sizes of
    the types and on the sizes of the members (the figures, which [sizeof]
    yields, are not part of the model), or the line of a logging policy, with
    the event and the entry that [ToString] renders. *)
Inductive LogLine : Type :=
  | LogSizeOfTypes
  | LogSizeOfMembers
  | LogEntry (event : string) (kv_entry : KeyValueEntry).

Local Abbreviation LogLines := (list LogLine).

Definition Log (event : string) (kv_entry : KeyValueEntry) (g : LogLines)
    : LogLines :=
  g ++ [LogEntry event kv_entry].

Definition LogInsert (kv_entry : KeyValueEntry) (g : LogLines) : LogLines :=
  match logging P with
  | LogEventNone | LogEventOverflow => g
  | LogEventAll => Log "Insert" kv_entry g
  end.

Definition LogOverflow (kv_entry : KeyValueEntry) (g : LogLines) : LogLines :=
  match logging P with
  | LogEventNone => g
  | LogEventOverflow | LogEventAll => Log "Overflow" kv_entry g
  end.

Definition LogFind (kv_entry : KeyValueEntry) (g : LogLines) : LogLines :=
  match logging P with
  | LogEventNone | LogEventOverflow => g
  | LogEventAll => Log "Find" kv_entry g
  end.

Definition LogErase (kv_entry : KeyValueEntry) (g : LogLines) : LogLines :=
  match logging P with
  | LogEventNone | LogEventOverflow => g
  | LogEventAll => Log "Erase" kv_entry g
  end.

(** ** LruMap *)

Record LruMap : Type := {
  capacity_ : Z;
  lru_stats_ : LruMapStats;
  lru_list_ : ItemList;
  lru_key_map_ : gmap KeyType node;
  glog_ : LogLines
}.

(** The two INFO lines of the constructor, written under every logging
    policy. *)
Definition LruMap_log : LogLines := [LogSizeOfTypes; LogSizeOfMembers].

(** The constructor. *)
Definition LruMap_new (capacity : Z) : outcome LruMap :=
  _ ← CHECK (1 <=? capacity)%Z;
  mret {| capacity_ := capacity; lru_stats_ := LruMapStats_init;
          lru_list_ := []; lru_key_map_ := ∅; glog_ := LruMap_log |}.

Definition SizePrivate (l : ItemList) (km : gmap KeyType node) : outcome Z :=
  _ ← DCHECK (bool_decide (length l = size km));
  mret (Z.of_nat (length l)).

Definition Insert (now : Z) (k : KeyType) (v : ValueType) (m : LruMap)
    : outcome LruMap :=
  let st := lru_stats_ m in
  '(l1, km1) ←
    match lru_key_map_ m !! k with
    | Some it =>
        l ← list_splice_begin it (lru_list_ m);
        l ← list_front_write (λ e, Done (set_value v e)) l;
        mret (l, lru_key_map_ m)
    | None =>
        let kv_entry := KeyValueT k v in
        let l := list_push_front kv_entry (lru_list_ m) in
        _ ← DCHECK (bool_decide (lru_key_map_ m !! k = None));
        it ← list_begin l;
        let '(km, inserted) := map_insert k it (lru_key_map_ m) in
        _ ← CHECK inserted;
        mret (l, km)
    end;
  front ← list_front l1;
  _ ← DCHECK (bool_decide (key front = k));
  let g1 := LogInsert front (glog_ m) in
  l2 ← list_front_write (λ e, Done (UpdateModifyTimestamp now e)) l1;
  sz ← SizePrivate l2 km1;
  '(ov, g3, km3, l3) ←
    (if (capacity_ m <? sz)%Z then
       oldest_kv_entry ← list_back l2;
       ov ← incr64 (num_overflow st);
       let g2 := LogOverflow oldest_kv_entry g1 in
       let km2 := delete (key oldest_kv_entry) km1 in
       l ← list_pop_back l2;
       mret (ov, g2, km2, l)
     else mret (num_overflow st, g1, km1, l2));
  ins ← incr64 (num_insert st);
  mret {| capacity_ := capacity_ m;
          lru_stats_ :=
            {| num_insert := ins; num_overflow := ov;
               num_find := num_find st; num_find_ok := num_find_ok st;
               num_erase := num_erase st; num_clear := num_clear st |};
          lru_list_ := l3; lru_key_map_ := km3; glog_ := g3 |}.

(** [Find] returns a pointer to the value of the first node, or [nullptr];
    the model returns the value pointed to, or [None]. *)
Definition Find (now : Z) (k : KeyType) (m : LruMap)
    : outcome (LruMap * option ValueType) :=
  let st := lru_stats_ m in
  nf ← incr64 (num_find st);
  match lru_key_map_ m !! k with
  | None =>
      mret ({| capacity_ := capacity_ m;
               lru_stats_ :=
                 {| num_insert := num_insert st; num_overflow := num_overflow st;
                    num_find := nf; num_find_ok := num_find_ok st;
                    num_erase := num_erase st; num_clear := num_clear st |};
               lru_list_ := lru_list_ m; lru_key_map_ := lru_key_map_ m;
               glog_ := glog_ m |}, None)
  | Some it =>
      l1 ← list_splice_begin it (lru_list_ m);
      front ← list_front l1;
      _ ← DCHECK (bool_decide (key front = k));
      nok ← incr64 (num_find_ok st);
      l2 ← list_front_write IncrementHitCount l1;
      found_kv_entry ← list_front l2;
      let g := LogFind found_kv_entry (glog_ m) in
      l3 ← list_front_write (λ e, Done (UpdateAccessTimestamp now e)) l2;
      front ← list_front l3;
      mret ({| capacity_ := capacity_ m;
               lru_stats_ :=
                 {| num_insert := num_insert st; num_overflow := num_overflow st;
                    num_find := nf; num_find_ok := nok;
                    num_erase := num_erase st; num_clear := num_clear st |};
               lru_list_ := l3; lru_key_map_ := lru_key_map_ m;
               glog_ := g |}, Some (value front))
  end.

Definition Exists (k : KeyType) (m : LruMap) : bool :=
  bool_decide (lru_key_map_ m !! k ≠ None).

Definition Erase (k : KeyType) (m : LruMap) : outcome LruMap :=
  let st := lru_stats_ m in
  ne ← incr64 (num_erase st);
  let st' :=
    {| num_insert := num_insert st; num_overflow := num_overflow st;
       num_find := num_find st; num_find_ok := num_find_ok st;
       num_erase := ne; num_clear := num_clear st |} in
  match lru_key_map_ m !! k with
  | None =>
      mret {| capacity_ := capacity_ m; lru_stats_ := st';
              lru_list_ := lru_list_ m; lru_key_map_ := lru_key_map_ m;
              glog_ := glog_ m |}
  | Some it =>
      kv_entry ← list_deref it (lru_list_ m);
      let g := LogErase kv_entry (glog_ m) in
      l ← list_erase it (lru_list_ m);
      mret {| capacity_ := capacity_ m; lru_stats_ := st';
              lru_list_ := l; lru_key_map_ := delete k (lru_key_map_ m);
              glog_ := g |}
  end.

Definition Clear (m : LruMap) : outcome LruMap :=
  let st := lru_stats_ m in
  nc ← incr64 (num_clear st);
  mret {| capacity_ := capacity_ m;
          lru_stats_ :=
            {| num_insert := num_insert st; num_overflow := num_overflow st;
               num_find := num_find st; num_find_ok := num_find_ok st;
               num_erase := num_erase st; num_clear := nc |};
          lru_list_ := []; lru_key_map_ := ∅; glog_ := glog_ m |}.

Definition Capacity (m : LruMap) : Z := capacity_ m.

Definition Size (m : LruMap) : outcome Z :=
  SizePrivate (lru_list_ m) (lru_key_map_ m).

Definition Valid (m : LruMap) : bool :=
  TimestampingPolicy_Valid (lru_list_ m).

Definition lru_map_stats (m : LruMap) : LruMapStats := lru_stats_ m.

End LruMap.

(** ** Runs of public operations *)

Section Runs.

Context {KeyType : Type} `{Countable KeyType} {ValueType : Type}.
Variable P : Policies.

Local Abbreviation LruMap := (@LruMap KeyType _ _ ValueType).

(** A call of one of the mutating or querying operations of the public
    interface, with the clock reading that the call would see. *)
Inductive Op : Type :=
  | OpInsert (now : Z) (k : KeyType) (v : ValueType)
  | OpFind (now : Z) (k : KeyType)
  | OpExists (k : KeyType)
  | OpErase (k : KeyType)
  | OpClear.

(** The map after the call; what the call returns is dropped. *)
Definition step (o : Op) (m : LruMap) : outcome LruMap :=
  match o with
  | OpInsert now k v => Insert P now k v m
  | OpFind now k => r ← Find P now k m; mret r.1
  | OpExists k => let _ := Exists k m in mret m
  | OpErase k => Erase P k m
  | OpClear => Clear m
  end.

Fixpoint run (ops : list Op) (m : LruMap) : outcome LruMap :=
  match ops with
  | [] => mret m
  | o :: ops' => m' ← step o m; run ops' m'
  end.

(** The states of a map that was constructed and then used through the
    public operations, each of which returned. *)
Definition reachable (m : LruMap) : Prop :=
  ∃ (capacity : Z) (ops : list Op), LruMap_new capacity ≫= run ops = Done m.

End Runs.

(** ** The predicates of the specification *)

Section Predicates.

Context {KeyType : Type} `{Countable KeyType} {ValueType : Type}.

Local Abbreviation KeyValueEntry := (@KeyValueEntry KeyType ValueType).
Local Abbreviation ItemList := (list (node * KeyValueEntry)).
Local Abbreviation LogLine := (@LogLine KeyType ValueType).
Local Abbreviation LruMap := (@LruMap KeyType _ _ ValueType).
Local Abbreviation Op := (@Op KeyType ValueType).

(** The keys of the sequence, front (most recent) to back (least recent). *)
Definition entry_keys (l : ItemList) : list KeyType := (λ ne, key ne.2) <$> l.

(** The entries of the sequence, front to back, without their addresses. *)
Definition entries (l : ItemList) : list KeyValueEntry := l.*2.

(** The index resolves to the sequence and the sequence to the index: a key
    is mapped to an address exactly when the node at that address is in the
    sequence and stores the key. *)
Definition index_resolves (l : ItemList) (km : gmap KeyType node) : Prop :=
  ∀ k it, km !! k = Some it ↔ ∃ e, (it, e) ∈ l ∧ key e = k.

(** Sequence and index of a map are mutually consistent. *)
Definition consistent (l : ItemList) (km : gmap KeyType node) : Prop :=
  NoDup l.*1 ∧ length l = size km ∧ index_resolves l km.

(** The structural invariants of section 3 of the specification. *)
Definition structure_ok (m : LruMap) : Prop :=
  (1 ≤ capacity_ m)%Z ∧
  length (lru_list_ m) = size (lru_key_map_ m) ∧
  (Z.of_nat (length (lru_list_ m)) ≤ capacity_ m)%Z ∧
  index_resolves (lru_list_ m) (lru_key_map_ m).

Definition stats_ok (st : LruMapStats) : Prop :=
  (0 ≤ num_find_ok st ≤ num_find st)%Z ∧
  (0 ≤ num_overflow st ≤ num_insert st)%Z.

(** No counter of [st'] is below the one of [st]. *)
Definition stats_le (st st' : LruMapStats) : Prop :=
  (num_insert st ≤ num_insert st')%Z ∧
  (num_overflow st ≤ num_overflow st')%Z ∧
  (num_find st ≤ num_find st')%Z ∧
  (num_find_ok st ≤ num_find_ok st')%Z ∧
  (num_erase st ≤ num_erase st')%Z ∧
  (num_clear st ≤ num_clear st')%Z.

(** Every counter of [st'] is the one of [st], or one more. *)
Definition stats_succ (st st' : LruMapStats) : Prop :=
  (num_insert st ≤ num_insert st' ≤ num_insert st + 1)%Z ∧
  (num_overflow st ≤ num_overflow st' ≤ num_overflow st + 1)%Z ∧
  (num_find st ≤ num_find st' ≤ num_find st + 1)%Z ∧
  (num_find_ok st ≤ num_find_ok st' ≤ num_find_ok st + 1)%Z ∧
  (num_erase st ≤ num_erase st' ≤ num_erase st + 1)%Z ∧
  (num_clear st ≤ num_clear st' ≤ num_clear st + 1)%Z.

(** The counters of the calls are at most [n]. *)
Definition stats_upto (n : Z) (st : LruMapStats) : Prop :=
  (num_insert st ≤ n)%Z ∧ (num_find st ≤ n)%Z ∧
  (num_erase st ≤ n)%Z ∧ (num_clear st ≤ n)%Z.

(** Every counter that a call increments is below [INT64_MAX], so that the
    increment is defined. *)
Definition stats_room (st : LruMapStats) : Prop :=
  (num_insert st < INT64_MAX)%Z ∧
  (num_find st < INT64_MAX)%Z ∧
  (num_erase st < INT64_MAX)%Z ∧
  (num_clear st < INT64_MAX)%Z.

(** The invariant that the operations maintain. *)
Record Inv (m : LruMap) : Prop := {
  inv_capacity : (1 ≤ capacity_ m)%Z;
  inv_consistent : consistent (lru_list_ m) (lru_key_map_ m);
  inv_bound : (Z.of_nat (length (lru_list_ m)) ≤ capacity_ m)%Z;
  inv_stats : stats_ok (lru_stats_ m);
  inv_counts : (0 ≤ num_erase (lru_stats_ m))%Z ∧ (0 ≤ num_clear (lru_stats_ m))%Z;
  inv_hits :
    Forall (λ ne, (0 ≤ hit_count ne.2 ≤ num_find_ok (lru_stats_ m))%Z)
           (lru_list_ m)
}.

(** The newer of the two timestamps of an entry. *)
Definition recent_usecs (e : KeyValueEntry) : Z :=
  Z.max (access_time_usecs e) (modify_time_usecs e).

(** Front to back, [recent_usecs] does not increase. *)
Definition chronological (l : ItemList) : Prop :=
  StronglySorted (λ x y, (recent_usecs y.2 ≤ recent_usecs x.2)%Z) l.

(** The clock reading that a call is given. *)
Definition op_clock (o : Op) : option Z :=
  match o with
  | OpInsert now _ _ | OpFind now _ => Some now
  | OpExists _ | OpErase _ | OpClear => None
  end.

(** The readings of the calls of [ops] are [int64_t] values, none is below
    [t], and none is below the reading of an earlier call. *)
Fixpoint clock_from (t : Z) (ops : list Op) : Prop :=
  match ops with
  | [] => True
  | o :: ops' =>
      match op_clock o with
      | Some now => (t ≤ now ≤ INT64_MAX)%Z ∧ clock_from now ops'
      | None => clock_from t ops'
      end
  end.

(** The reading after the call [o], [t] being the one before it. *)
Definition clock_after (t : Z) (o : Op) : Z := default t (op_clock o).

(** No entry has a timestamp above [t]. *)
Definition timestamps_upto (t : Z) (l : ItemList) : Prop :=
  Forall (λ ne, (recent_usecs ne.2 ≤ t)%Z) l.

(** The number of hits among the results of [Find] calls. *)
Definition hits (rs : list (option ValueType)) : nat :=
  length (filter is_Some rs).

(** The clock is non-decreasing across the calls of [ops]. *)
Definition clock_non_decreasing (ops : list Op) : Prop :=
  clock_from INT64_MIN ops.

(** [Insert] calls, one for each reading, key and value. *)
Definition insert_ops (kvs : list (Z * KeyType * ValueType)) : list Op :=
  (λ x, OpInsert x.1.1 x.1.2 x.2) <$> kvs.

(** The keys of the calls of [insert_ops]. *)
Definition inserted_keys (kvs : list (Z * KeyType * ValueType)) : list KeyType :=
  (λ x, x.1.2) <$> kvs.

(** The keys and values of the sequence, front to back. *)
Definition contents (l : ItemList) : list (KeyType * ValueType) :=
  (λ ne, (key ne.2, value ne.2)) <$> l.

(** Two maps with the same capacity and the same keys and values in the
    same order, whatever the addresses of their nodes. *)
Definition same_content (m1 m2 : LruMap) : Prop :=
  capacity_ m1 = capacity_ m2 ∧
  contents (lru_list_ m1) = contents (lru_list_ m2).

(** By how much the counters of [st1] are above those of [st2]. *)
Definition stats_diff (st1 st2 : LruMapStats) : LruMapStats :=
  {| num_insert := num_insert st1 - num_insert st2;
     num_overflow := num_overflow st1 - num_overflow st2;
     num_find := num_find st1 - num_find st2;
     num_find_ok := num_find_ok st1 - num_find_ok st2;
     num_erase := num_erase st1 - num_erase st2;
     num_clear := num_clear st1 - num_clear st2 |}.

(** A call without its clock reading. *)
Definition forget_clock (o : Op) : Op :=
  match o with
  | OpInsert _ k v => OpInsert 0 k v
  | OpFind _ k => OpFind 0 k
  | OpExists k => OpExists k
  | OpErase k => OpErase k
  | OpClear => OpClear
  end.

(** The event of an INFO line of a logging policy. *)
Definition line_event (line : LogLine) : option string :=
  match line with
  | LogEntry event _ => Some event
  | LogSizeOfTypes | LogSizeOfMembers => None
  end.

(** The number of INFO lines of the event [event]. *)
Definition count_event (event : string) (g : list LogLine) : nat :=
  length (filter (λ line, line_event line = Some event) g).

(** The hit counters of the entries of the sequence, added up. *)
Definition total_hits (l : ItemList) : Z :=
  foldr (λ ne s, (hit_count ne.2 + s)%Z) 0%Z l.

(** What the log holds, by the logging policy: the two lines of the
    constructor and after them nothing, a line for each overflow, or a line
    for each event. *)
Definition log_accounted (P : Policies) (m : LruMap) : Prop :=
  let g := glog_ m in
  let st := lru_stats_ m in
  match logging P with
  | LogEventNone => g = LruMap_log
  | LogEventOverflow =>
      LruMap_log `prefix_of` g ∧
      Z.of_nat (count_event "Overflow" g) = num_overflow st ∧
      length g = 2 + count_event "Overflow" g
  | LogEventAll =>
      LruMap_log `prefix_of` g ∧
      Z.of_nat (count_event "Insert" g) = num_insert st ∧
      Z.of_nat (count_event "Overflow" g) = num_overflow st ∧
      Z.of_nat (count_event "Find" g) = num_find_ok st ∧
      (Z.of_nat (count_event "Erase" g) ≤ num_erase st)%Z ∧
      length g =
        2 + count_event "Insert" g + count_event "Overflow" g +
        count_event "Find" g + count_event "Erase" g
  end.

(** What [Find] returns, without the state. *)
Definition Find_result (P : Policies) (now : Z) (k : KeyType) (m : LruMap)
    : outcome (option ValueType) :=
  r ← Find P now k m; mret r.2.

End Predicates.

(** ** The instance of the test: integer keys and values *)

(** The policies of the last test: [TimestampAll], [HitCountEnabled] and
    [LogEventAll]. *)
Definition test_policies : Policies :=
  {| timestamping := TimestampAll;
     hit_counting := HitCountEnabled;
     logging := LogEventAll |}.

(** A run on a map of capacity 2 with an overflow, a hit, a failed
    membership test, an erasure and a key that comes back. *)
Definition test_ops : list (@Op Z Z) :=
  [OpInsert 1 10 50; OpInsert 2 20 100; OpFind 3 10; OpInsert 4 30 150;
   OpExists 20; OpErase 30; OpInsert 5 20 100]%Z.

(** The state after [test_ops]: key 20 in front of key 10. *)
Definition test_state : @LruMap Z _ _ Z :=
  Eval vm_compute in
    match LruMap_new 2 ≫= run test_policies test_ops with
    | Done m => m
    | _ => {| capacity_ := 0; lru_stats_ := LruMapStats_init;
              lru_list_ := []; lru_key_map_ := ∅; glog_ := [] |}
    end.

(** The state after [test_ops] under the default policies. *)
Definition test_state_default : @LruMap Z _ _ Z :=
  Eval vm_compute in
    match LruMap_new 2 ≫= run default_policies test_ops with
    | Done m => m
    | _ => {| capacity_ := 0; lru_stats_ := LruMapStats_init;
              lru_list_ := []; lru_key_map_ := ∅; glog_ := [] |}
    end.

(** [test_state] after [Clear()], and then after [test_ops] once more. *)
Definition test_cleared : @LruMap Z _ _ Z :=
  Eval vm_compute in
    match Clear test_state with
    | Done m => m
    | _ => test_state
    end.

Definition test_rerun : @LruMap Z _ _ Z :=
  Eval vm_compute in
    match run test_policies test_ops test_cleared with
    | Done m => m
    | _ => test_state
    end.

(** The entry of key 10 in [test_state]. *)
Definition test_entry : @KeyValueEntry Z Z :=
  {| key := 10%Z; value := 50%Z;
     access_time_usecs := 3; modify_time_usecs := 1; hit_count := 1 |}.

(** Three and eight insertions of distinct keys, with the values of the
    test, five times the key. *)
Definition test_inserts3 : list (Z * Z * Z) :=
  [(1, 10, 50); (2, 20, 100); (3, 30, 150)]%Z.

Definition test_inserts8 : list (Z * Z * Z) :=
  [(1, 0, 0); (2, 1, 5); (3, 2, 10); (4, 3, 15);
   (5, 4, 20); (6, 5, 25); (7, 6, 30); (8, 7, 35)]%Z.

(** A run with a clock that does not go back but reads before the epoch. *)
Definition early_ops : list (@Op Z Z) :=
  [OpInsert (-5) 1 10; OpInsert (-3) 2 20; OpFind (-2) 1]%Z.

(** ** The repository's test (lru_map_test.cpp)

    [LruKey] wraps an [int64_t] and [LruValue] an [int32_t]; keys and values
    are integers of [Z].  The test sleeps a random time before an [Insert];
    of that only the time that passes is modelled: [clock n] is what
    [MicrosecondsSinceEpoch()] returns during the [n]-th [Insert] or [Find]
    call of the test.  The [LOG(INFO)] lines of the test itself and the
    calls whose result it drops ([ToString()], [Valid()] without [CHECK])
    are left out. *)

(** [std::numeric_limits<int>::max()] and [min()], for the 32-bit [int]. *)
Definition INT_MAX : Z := 2 ^ 31 - 1.
Definition INT_MIN : Z := - 2 ^ 31.

(** The conversion of an [int64_t] to [int] or [int32_t]: the value modulo
    [2^32] in the range of the type. *)
Definition to_int32 (z : Z) : Z := (z + 2 ^ 31) `mod` 2 ^ 32 - 2 ^ 31.

Section RepositoryTest.

Variable P : Policies.
Variable clock : nat → Z.

Local Abbreviation LruMap := (@LruMap Z _ _ Z).

(** [cache_] and the number of [Insert] and [Find] calls so far. *)
Local Abbreviation world := (LruMap * nat)%type.

(** The body of a loop, run for each index of a list in turn. *)
Fixpoint for_each (idxs : list Z) (body : Z → world → outcome world)
    (w : world) : outcome world :=
  match idxs with
  | [] => mret w
  | idx :: idxs' => w' ← body idx w; for_each idxs' body w'
  end.

(** [for (int idx = first; idx != last; ++idx) body].  When [last] is below
    [first] or above [INT_MAX] the loop runs [idx] into the signed overflow
    of [++idx]. *)
Definition for_int (first last : Z) (body : Z → world → outcome world)
    (w : world) : outcome world :=
  if bool_decide (INT_MIN ≤ first ∧ first ≤ last ∧ last ≤ INT_MAX)%Z
  then for_each (seqZ first (last - first)) body w
  else Undefined.

(** [LruMapTest::KeyToValue]: [LruValue(5 * key.key)]. *)
Definition KeyToValue (key : Z) : Z := to_int32 (5 * key).

(** [LruMapTest::Insert]. *)
Definition LruMapTest_Insert (key value : Z) (w : world) : outcome world :=
  cache ← Insert P (clock w.2) key value w.1;
  _ ← CHECK (Valid P cache);
  mret (cache, S w.2).

(** The body of the loop of [LruMapTest::MatchExpectations]. *)
Definition MatchExpectations_body (expectation : bool) (idx : Z) (w : world)
    : outcome world :=
  let key := idx in
  let found := Exists key w.1 in
  _ ← CHECK (bool_decide (found = expectation));
  r ← Find P (clock w.2) key w.1;
  let found_value := r.2 in
  _ ← (if expectation then
         match found_value with
         | Some value => CHECK (bool_decide (value = KeyToValue key))
         | None => CheckFailed
         end
       else CHECK (bool_decide (found_value = None)));
  _ ← CHECK (Valid P r.1);
  mret (r.1, S w.2).

(** [LruMapTest::MatchExpectations]; its parameters are [int]s. *)
Definition MatchExpectations (begin_index end_index : Z) (expectation : bool)
    (w : world) : outcome world :=
  _ ← CHECK (begin_index <=? end_index)%Z;
  for_int begin_index end_index (MatchExpectations_body expectation) w.

(** The body of the two loops of [LruMapTest::Test] that insert: the size
    after the insertion is checked against [expected idx]. *)
Definition Test_insert_body (expected : Z → Z) (idx : Z) (w : world)
    : outcome world :=
  let key := idx in
  let value := KeyToValue key in
  w ← LruMapTest_Insert key value w;
  sz ← Size w.1;
  _ ← CHECK (sz =? expected idx)%Z;
  mret w.

(** [LruMapTest::Test], after the constructor of [LruMapTest], which
    constructs [cache_] with [capacity]. *)
Definition LruMapTest_Test (capacity : Z) : outcome world :=
  cache ← LruMap_new capacity;
  _ ← CHECK (Valid P cache);
  _ ← CHECK (Capacity cache =? capacity)%Z;
  sz ← Size cache;
  _ ← CHECK (sz =? 0)%Z;
  w ← MatchExpectations 0 (to_int32 capacity) false (cache, 0);
  w ← for_int 0 capacity (Test_insert_body (λ idx, idx + 1)%Z) w;
  sz ← Size w.1;
  _ ← CHECK (sz =? capacity)%Z;
  w ← MatchExpectations 0 (to_int32 capacity) true w;
  w ← for_int (to_int32 capacity) (2 * capacity)
        (Test_insert_body (λ _, capacity)) w;
  w ← MatchExpectations 0 (to_int32 capacity) false w;
  w ← MatchExpectations (to_int32 capacity) (to_int32 (2 * capacity)) true w;
  let kx := (2 * capacity - 1)%Z in
  r ← Find P (clock w.2) kx w.1;
  _ ← CHECK (bool_decide (r.2 ≠ None));
  cache ← Erase P kx r.1;
  r2 ← Find P (clock (S w.2)) kx cache;
  _ ← CHECK (bool_decide (r2.2 = None));
  let kx3 := (2 * capacity - 2)%Z in
  LruMapTest_Insert kx3 2016 (r2.1, S (S w.2)).

(** The clock never reads before the epoch, never goes back, and reads
    [int64_t] values. *)
Definition clock_ok : Prop :=
  (0 ≤ clock 0)%Z ∧
  (∀ i j : nat, i ≤ j → (clock i ≤ clock j)%Z) ∧
  (∀ i : nat, (clock i ≤ INT64_MAX)%Z).

(** The keys from [first] on, [n] of them, with the values of the test. *)
Definition test_pairs (first : Z) (n : nat) : list (Z * Z) :=
  (λ idx, (idx, KeyToValue idx)) <$> seqZ first (Z.of_nat n).

(** The map [m] of capacity [c] holds the pairs [L], front to back, has the
    counters [st], satisfies the invariant, and under [TimestampAll] its
    timestamps are in order and at most [t]. *)
Definition holds (L : list (Z * Z)) (st : LruMapStats) (t : Z) (c : Z)
    (m : LruMap) : Prop :=
  Inv m ∧ capacity_ m = c ∧ contents (lru_list_ m) = L ∧ lru_stats_ m = st ∧
  (0 ≤ t ≤ INT64_MAX)%Z ∧
  (timestamping P = TimestampAll →
   chronological (lru_list_ m) ∧ timestamps_upto t (lru_list_ m)).

(** The counters of a map that was never cleared. *)
Definition test_stats (i o f fk e : Z) : LruMapStats :=
  {| num_insert := i; num_overflow := o; num_find := f;
     num_find_ok := fk; num_erase := e; num_clear := 0 |}.

(** The test has made [n] calls and its map of capacity [c] holds [L] with
    the counters [st]; no timestamp is above the next clock reading. *)
Definition at_call (c : Z) (L : list (Z * Z)) (st : LruMapStats) (n : nat)
    (w : world) : Prop :=
  w.2 = n ∧ ∃ t, (t ≤ clock n)%Z ∧ holds L st t c w.1.

End RepositoryTest.

(** A clock for the test: it reads the number of calls so far, as far as an
    [int64_t] goes. *)
Definition test_clock (n : nat) : Z := Z.min (Z.of_nat n) INT64_MAX.

(** A clock for the test that never goes back but starts 100 microseconds
    before the epoch. *)
Definition early_clock (n : nat) : Z := Z.min (Z.of_nat n - 100) INT64_MAX.

(** * Properties *)

Section Facts.

Context {KeyType : Type} `{Countable KeyType} {ValueType : Type}.
Variable P : Policies.

Local Abbreviation KeyValueEntry := (@KeyValueEntry KeyType ValueType).
Local Abbreviation ItemList := (list (node * KeyValueEntry)).
Local Abbreviation LruMap := (@LruMap KeyType _ _ ValueType).
Local Abbreviation Op := (@Op KeyType ValueType).

Implicit Types (l : ItemList) (km : gmap KeyType node) (m : LruMap).
Implicit Types (e : KeyValueEntry) (it a : node) (k : KeyType) (v : ValueType).

(** ** The outcome monad and the counters *)

Lemma bind_Done {A B} (f : A → outcome B) (x : outcome A) (b : B) :
  x ≫= f = Done b ↔ ∃ y, x = Done y ∧ f y = Done b.
Proof.
  destruct x as [y| |]; simpl; split.
  - intros Hf. by exists y.
  - by intros (y' & [= ->] & Hf).
  - done.
  - by intros (? & ? & ?).
  - done.
  - by intros (? & ? & ?).
Qed.

Lemma incr64_Done (x : Z) : (x < INT64_MAX)%Z → incr64 x = Done (x + 1)%Z.
Proof. intros Hx. unfold incr64. by rewrite (proj2 (Z.ltb_lt _ _) Hx). Qed.

Lemma incr64_inv (x y : Z) :
  incr64 x = Done y → y = (x + 1)%Z ∧ (x < INT64_MAX)%Z.
Proof.
  unfold incr64. destruct (Z.ltb_spec x INT64_MAX); [|done].
  by intros [= <-].
Qed.

(** ** The list primitives *)

Lemma fresh_node_fresh l : fresh_node l ∉ l.*1.
Proof.
  intros Hin. apply max_list_elem_of_le in Hin. unfold fresh_node in Hin. lia.
Qed.

Lemma list_deref_elem_of it l e : list_deref it l = Done e → (it, e) ∈ l.
Proof.
  induction l as [|[a e'] l IH]; simpl; [done|].
  case_decide as Ha.
  - intros [= ->]. subst. left.
  - intros Hd. right. by apply IH.
Qed.

Lemma list_deref_Done it l e : NoDup l.*1 → (it, e) ∈ l → list_deref it l = Done e.
Proof.
  induction l as [|[a e'] l IH]; simpl; intros Hnd Hin.
  - by apply elem_of_nil in Hin.
  - apply NoDup_cons in Hnd as [Ha Hnd].
    apply elem_of_cons in Hin as [[= -> ->]|Hin].
    + by rewrite decide_True.
    + case_decide as Heq; [|by apply IH].
      subst. exfalso. apply Ha. apply list_elem_of_fmap. by exists (it, e).
  Qed.

Lemma list_deref_is_Done it l : it ∈ l.*1 → ∃ e, list_deref it l = Done e.
Proof.
  induction l as [|[a e'] l IH]; simpl; intros Hin.
  - by apply elem_of_nil in Hin.
  - case_decide; [by eexists|].
    apply elem_of_cons in Hin as [?|Hin]; [congruence|]. by apply IH.
Qed.

Lemma list_unlink_perm it l e :
  list_deref it l = Done e → l ≡ₚ (it, e) :: list_unlink it l.
Proof.
  induction l as [|[a e'] l IH]; simpl; [done|].
  case_decide as Ha.
  - intros [= ->]. by subst.
  - intros Hd. rewrite (IH Hd) at 1. apply Permutation_swap.
Qed.

Lemma list_unlink_sublist it l : list_unlink it l `sublist_of` l.
Proof.
  induction l as [|[a e'] l IH]; simpl; [done|].
  case_decide; [by apply sublist_cons|by apply sublist_skip].
Qed.

Lemma list_unlink_fresh it l : it ∉ l.*1 → list_unlink it l = l.
Proof.
  induction l as [|[a e'] l IH]; simpl; [done|].
  intros Hin. apply not_elem_of_cons in Hin as [Hne Hin].
  rewrite decide_False; [|done]. by rewrite IH.
Qed.

Lemma list_unlink_snoc a e l : a ∉ l.*1 → list_unlink a (l ++ [(a, e)]) = l.
Proof.
  induction l as [|[a' e'] l IH]; simpl; intros Hin.
  - by rewrite decide_True.
  - apply not_elem_of_cons in Hin as [Hne Hin].
    rewrite decide_False; [|done]. by rewrite IH.
Qed.

Lemma list_deref_fst it l e : list_deref it l = Done e → it ∈ l.*1.
Proof.
  intros Hd%list_deref_elem_of. apply list_elem_of_fmap. by exists (it, e).
Qed.

Lemma elem_of_list_unlink it l (x : node * KeyValueEntry) :
  NoDup l.*1 → x ∈ list_unlink it l ↔ x ∈ l ∧ x.1 ≠ it.
Proof.
  intros Hnd. destruct (decide (it ∈ l.*1)) as [Hin|Hin].
  - destruct (list_deref_is_Done _ _ Hin) as [e He].
    pose proof (list_unlink_perm _ _ _ He) as Hp.
    assert (NoDup ((it, e) :: list_unlink it l).*1) as Hnd'.
    { by rewrite <- Hp. }
    simpl in Hnd'. apply NoDup_cons in Hnd' as [Hit Hnd'].
    rewrite (elem_of_Permutation_proper x _ _ Hp), elem_of_cons. split.
    + intros Hx. split; [by right|].
      intros <-. apply Hit. apply list_elem_of_fmap. by exists x.
    + intros [[->|Hx] Hne]; [done|done].
  - rewrite list_unlink_fresh by done. split; [|by intros [? _]].
    intros Hx. split; [done|]. intros <-. apply Hin.
    apply list_elem_of_fmap. by exists x.
Qed.

Lemma NoDup_list_unlink it l : NoDup l.*1 → NoDup (list_unlink it l).*1.
Proof.
  intros Hnd. apply (sublist_NoDup _ _ Hnd).
  apply fmap_sublist, list_unlink_sublist.
Qed.

Lemma length_list_unlink it l e :
  list_deref it l = Done e → length l = S (length (list_unlink it l)).
Proof. intros Hd. apply (Permutation_length (list_unlink_perm _ _ _ Hd)). Qed.

(** ** Consistency of sequence and index *)

Lemma consistent_empty : consistent (KeyType:=KeyType) (ValueType:=ValueType) [] ∅.
Proof.
  split; [constructor|]. split; [done|].
  intros k it. rewrite lookup_empty. split; [done|].
  intros (e & Hin & _). by apply elem_of_nil in Hin.
Qed.

Lemma consistent_lookup l km k it :
  consistent l km → km !! k = Some it →
  ∃ e, list_deref it l = Done e ∧ key e = k ∧ (it, e) ∈ l.
Proof.
  intros (Hnd & _ & Hix) Hk. apply Hix in Hk as (e & Hin & Hke).
  exists e. split; [by apply list_deref_Done|done].
Qed.

Lemma consistent_elem_of l km it e :
  consistent l km → (it, e) ∈ l → km !! key e = Some it.
Proof. intros (_ & _ & Hix) Hin. apply Hix. by exists e. Qed.

Lemma consistent_lookup_None l km k :
  consistent l km → km !! k = None ↔ k ∉ entry_keys l.
Proof.
  intros Hc. unfold entry_keys. rewrite list_elem_of_fmap. split.
  - intros Hk ([a e] & -> & Hin). simpl in Hk.
    by rewrite (consistent_elem_of _ _ _ _ Hc Hin) in Hk.
  - intros Hnin. destruct (km !! k) as [it|] eqn:Hk; [|done].
    destruct (consistent_lookup _ _ _ _ Hc Hk) as (e & _ & <- & Hin).
    exfalso. apply Hnin. by exists (it, e).
Qed.

Lemma consistent_key_inj l km a1 e1 a2 e2 :
  consistent l km → (a1, e1) ∈ l → (a2, e2) ∈ l → key e1 = key e2 →
  a1 = a2 ∧ e1 = e2.
Proof.
  intros Hc H1 H2 Hk.
  pose proof (consistent_elem_of _ _ _ _ Hc H1) as Hl1.
  pose proof (consistent_elem_of _ _ _ _ Hc H2) as Hl2.
  rewrite Hk, Hl2 in Hl1. injection Hl1 as ->. split; [done|].
  destruct Hc as (Hnd & _).
  pose proof (list_deref_Done _ _ _ Hnd H1) as Hd1.
  pose proof (list_deref_Done _ _ _ Hnd H2) as Hd2. congruence.
Qed.

Lemma consistent_NoDup_keys l km : consistent l km → NoDup (entry_keys l).
Proof.
  intros Hc. unfold entry_keys. apply NoDup_fmap_2_strong.
  - intros [a1 e1] [a2 e2] H1 H2 Hk. simpl in Hk.
    by destruct (consistent_key_inj _ _ _ _ _ _ Hc H1 H2 Hk) as [-> ->].
  - destruct Hc as (Hnd & _). by eapply NoDup_fmap_1.
Qed.

Lemma consistent_push_front l km e :
  consistent l km → km !! key e = None →
  consistent ((fresh_node l, e) :: l) (<[key e := fresh_node l]> km).
Proof.
  intros Hc Hk. pose proof Hc as (Hnd & Hsz & Hix). unfold index_resolves in Hix.
  split; [|split].
  - simpl. apply NoDup_cons. split; [apply fresh_node_fresh|done].
  - rewrite map_size_insert_None by done. simpl. by rewrite Hsz.
  - intros k it. rewrite lookup_insert. case_decide as Hkk.
    + subst k. split.
      * intros [= <-]. exists e. split; [left|done].
      * intros (e' & Hin & Hke). apply elem_of_cons in Hin as [[= -> ->]|Hin]; [done|].
        pose proof (consistent_elem_of _ _ _ _ Hc Hin) as Hl. congruence.
    + rewrite Hix. split.
      * intros (e' & Hin & Hke). exists e'. split; [by right|done].
      * intros (e' & Hin & Hke). apply elem_of_cons in Hin as [[= -> ->]|Hin]; [done|].
        by exists e'.
Qed.

Lemma consistent_unlink l km it e :
  consistent l km → (it, e) ∈ l →
  consistent (list_unlink it l) (delete (key e) km).
Proof.
  intros Hc Hin. pose proof Hc as (Hnd & Hsz & Hix). unfold index_resolves in Hix.
  pose proof (list_deref_Done _ _ _ Hnd Hin) as Hd.
  split; [|split].
  - by apply NoDup_list_unlink.
  - pose proof (length_list_unlink _ _ _ Hd) as Hlen.
    pose proof (consistent_elem_of _ _ _ _ Hc Hin) as Hl.
    rewrite (map_size_delete_Some (key e) km) by (by eexists). lia.
  - intros k a. rewrite lookup_delete. case_decide as Hkk.
    + subst k. split; [done|].
      intros (e' & Hin' & Hke). apply elem_of_list_unlink in Hin' as [Hin' Hne]; [|done].
      destruct (consistent_key_inj _ _ _ _ _ _ Hc Hin' Hin Hke) as [-> _]. done.
    + rewrite Hix. split.
      * intros (e' & Hin' & Hke). exists e'. split; [|done].
        apply elem_of_list_unlink; [done|]. split; [done|]. simpl. intros ->.
        pose proof (list_deref_Done _ _ _ Hnd Hin'). congruence.
      * intros (e' & Hin' & Hke). apply elem_of_list_unlink in Hin' as [Hin' _]; [|done].
        by exists e'.
Qed.

Lemma consistent_relink l km it e e' :
  consistent l km → (it, e) ∈ l → key e' = key e →
  consistent ((it, e') :: list_unlink it l) km.
Proof.
  intros Hc Hin Hke. pose proof Hc as (Hnd & Hsz & Hix). unfold index_resolves in Hix.
  pose proof (list_deref_Done _ _ _ Hnd Hin) as Hd.
  pose proof (list_unlink_perm _ _ _ Hd) as Hp.
  split; [|split].
  - change (NoDup ((it, e) :: list_unlink it l).*1). by rewrite <- Hp.
  - rewrite <- Hsz. symmetry. apply (Permutation_length Hp).
  - intros k a. rewrite Hix. split.
    + intros (e0 & Hin0 & Hk0). destruct (decide (a = it)) as [->|Hne].
      * pose proof (list_deref_Done _ _ _ Hnd Hin0) as Hd0.
        assert (e0 = e) as -> by congruence.
        exists e'. split; [left|congruence].
      * exists e0. split; [|done]. right. by apply elem_of_list_unlink.
    + intros (e0 & Hin0 & Hk0). apply elem_of_cons in Hin0 as [[= -> ->]|Hin0].
      * exists e. split; [done|congruence].
      * apply elem_of_list_unlink in Hin0 as [Hin0 _]; [|done]. by exists e0.
Qed.

Lemma consistent_front_write l km a e e' :
  consistent ((a, e) :: l) km → key e' = key e → consistent ((a, e') :: l) km.
Proof.
  intros Hc Hke.
  pose proof (consistent_relink _ _ a e e' Hc (list_elem_of_here _ _) Hke) as Hr.
  simpl in Hr. by rewrite decide_True in Hr.
Qed.

Lemma consistent_pop_back l km a e :
  consistent (l ++ [(a, e)]) km → consistent l (delete (key e) km).
Proof.
  intros Hc.
  assert ((a, e) ∈ l ++ [(a, e)]) as Hin by (apply elem_of_app; right; left).
  pose proof (consistent_unlink _ _ _ _ Hc Hin) as Hu.
  rewrite list_unlink_snoc in Hu; [done|].
  destruct Hc as (Hnd & _). rewrite fmap_app in Hnd.
  apply NoDup_app in Hnd as (_ & Hdisj & _). intros Ha.
  apply (Hdisj _ Ha). simpl. left.
Qed.

(** ** What each operation does on a map that satisfies the invariant *)

Lemma SizePrivate_Done l km :
  consistent l km → SizePrivate l km = Done (Z.of_nat (length l)).
Proof.
  intros (_ & Hsz & _). unfold SizePrivate, DCHECK, CHECK.
  by rewrite bool_decide_true.
Qed.

Lemma Insert_hit m now k v it e :
  Inv m → lru_key_map_ m !! k = Some it → (it, e) ∈ lru_list_ m →
  (num_insert (lru_stats_ m) < INT64_MAX)%Z →
  Insert P now k v m =
  Done {| capacity_ := capacity_ m;
          lru_stats_ :=
            {| num_insert := num_insert (lru_stats_ m) + 1;
               num_overflow := num_overflow (lru_stats_ m);
               num_find := num_find (lru_stats_ m);
               num_find_ok := num_find_ok (lru_stats_ m);
               num_erase := num_erase (lru_stats_ m);
               num_clear := num_clear (lru_stats_ m) |};
          lru_list_ :=
            (it, UpdateModifyTimestamp P now (set_value v e))
              :: list_unlink it (lru_list_ m);
          lru_key_map_ := lru_key_map_ m;
          glog_ := LogInsert P (set_value v e) (glog_ m) |}.
Proof.
  intros HI Hk Hin Hroom. destruct HI as [Hcap Hc Hb _ _ _].
  pose proof Hc as (Hnd & Hsz & Hix).
  assert (key e = k) as Hke.
  { destruct (consistent_lookup _ _ _ _ Hc Hk) as (e' & Hd & Hke & _).
    rewrite (list_deref_Done _ _ _ Hnd Hin) in Hd. congruence. }
  unfold Insert. rewrite Hk. unfold list_splice_begin.
  rewrite (list_deref_Done _ _ _ Hnd Hin). cbn.
  rewrite bool_decide_true by done. cbn.
  rewrite SizePrivate_Done.
  2:{ apply (consistent_relink _ _ _ e); [done..|].
      unfold UpdateModifyTimestamp. by destruct (timestamping P). }
  cbn [mbind outcome_bind].
  pose proof (length_list_unlink _ _ _ (list_deref_Done _ _ _ Hnd Hin)) as Hlen.
  replace (capacity_ m <? _)%Z with false.
  2:{ symmetry. apply Z.ltb_ge. cbn [length]. lia. }
  cbn. rewrite incr64_Done by done. done.
Qed.

Lemma key_UpdateModifyTimestamp now e : key (UpdateModifyTimestamp P now e) = key e.
Proof. unfold UpdateModifyTimestamp. by destruct (timestamping P). Qed.

Lemma key_UpdateAccessTimestamp now e : key (UpdateAccessTimestamp P now e) = key e.
Proof. unfold UpdateAccessTimestamp. by destruct (timestamping P). Qed.

Lemma list_back_snoc l a e : list_back (l ++ [(a, e)]) = Done e.
Proof. unfold list_back. by rewrite last_snoc. Qed.

Lemma list_pop_back_snoc l (x : node * KeyValueEntry) :
  list_pop_back (l ++ [x]) = Done l.
Proof.
  unfold list_pop_back. rewrite removelast_last. by destruct l.
Qed.

Local Arguments list_back : simpl never.
Local Arguments list_pop_back : simpl never.

Lemma Insert_miss_room m now k v :
  Inv m → lru_key_map_ m !! k = None →
  (Z.of_nat (length (lru_list_ m)) < capacity_ m)%Z →
  (num_insert (lru_stats_ m) < INT64_MAX)%Z →
  Insert P now k v m =
  Done {| capacity_ := capacity_ m;
          lru_stats_ :=
            {| num_insert := num_insert (lru_stats_ m) + 1;
               num_overflow := num_overflow (lru_stats_ m);
               num_find := num_find (lru_stats_ m);
               num_find_ok := num_find_ok (lru_stats_ m);
               num_erase := num_erase (lru_stats_ m);
               num_clear := num_clear (lru_stats_ m) |};
          lru_list_ :=
            (fresh_node (lru_list_ m), UpdateModifyTimestamp P now (KeyValueT k v))
              :: lru_list_ m;
          lru_key_map_ := <[k := fresh_node (lru_list_ m)]> (lru_key_map_ m);
          glog_ := LogInsert P (KeyValueT k v) (glog_ m) |}.
Proof.
  intros HI Hk Hlt Hroom. destruct HI as [Hcap Hc Hb _ _ _].
  unfold Insert, map_insert, list_push_front. rewrite Hk. cbn.
  rewrite !bool_decide_true by done. cbn.
  rewrite SizePrivate_Done.
  2:{ apply (consistent_front_write _ _ _ (KeyValueT k v));
        [|by rewrite key_UpdateModifyTimestamp].
      by apply (consistent_push_front _ _ (KeyValueT k v)). }
  cbn [mbind outcome_bind].
  replace (capacity_ m <? _)%Z with false.
  2:{ symmetry. apply Z.ltb_ge. cbn [length]. lia. }
  cbn. rewrite incr64_Done by done. done.
Qed.

Lemma Insert_miss_full m now k v l0 a e :
  Inv m → lru_key_map_ m !! k = None →
  lru_list_ m = l0 ++ [(a, e)] →
  Z.of_nat (length (lru_list_ m)) = capacity_ m →
  (num_insert (lru_stats_ m) < INT64_MAX)%Z →
  Insert P now k v m =
  Done {| capacity_ := capacity_ m;
          lru_stats_ :=
            {| num_insert := num_insert (lru_stats_ m) + 1;
               num_overflow := num_overflow (lru_stats_ m) + 1;
               num_find := num_find (lru_stats_ m);
               num_find_ok := num_find_ok (lru_stats_ m);
               num_erase := num_erase (lru_stats_ m);
               num_clear := num_clear (lru_stats_ m) |};
          lru_list_ :=
            (fresh_node (lru_list_ m), UpdateModifyTimestamp P now (KeyValueT k v))
              :: l0;
          lru_key_map_ :=
            delete (key e) (<[k := fresh_node (lru_list_ m)]> (lru_key_map_ m));
          glog_ := LogOverflow P e (LogInsert P (KeyValueT k v) (glog_ m)) |}.
Proof.
  intros HI Hk Hl Hfull Hroom. destruct HI as [Hcap Hc Hb [_ Hov] _ _].
  unfold Insert, map_insert, list_push_front. rewrite Hk. cbn.
  rewrite !bool_decide_true by done. cbn.
  rewrite SizePrivate_Done.
  2:{ apply (consistent_front_write _ _ _ (KeyValueT k v));
        [|by rewrite key_UpdateModifyTimestamp].
      by apply (consistent_push_front _ _ (KeyValueT k v)). }
  cbn [mbind outcome_bind].
  replace (capacity_ m <? _)%Z with true.
  2:{ symmetry. apply Z.ltb_lt. cbn [length]. lia. }
  rewrite Hl, !app_comm_cons, list_back_snoc, list_pop_back_snoc.
  cbn. rewrite incr64_Done by lia. cbn. rewrite incr64_Done by lia. done.
Qed.

Lemma Find_miss m now k :
  lru_key_map_ m !! k = None →
  (num_find (lru_stats_ m) < INT64_MAX)%Z →
  Find P now k m =
  Done ({| capacity_ := capacity_ m;
           lru_stats_ :=
             {| num_insert := num_insert (lru_stats_ m);
                num_overflow := num_overflow (lru_stats_ m);
                num_find := num_find (lru_stats_ m) + 1;
                num_find_ok := num_find_ok (lru_stats_ m);
                num_erase := num_erase (lru_stats_ m);
                num_clear := num_clear (lru_stats_ m) |};
           lru_list_ := lru_list_ m;
           lru_key_map_ := lru_key_map_ m;
           glog_ := glog_ m |}, None).
Proof.
  intros Hk Hroom. unfold Find. rewrite (incr64_Done (num_find _)) by done. cbn.
  by rewrite Hk.
Qed.

Lemma Find_hit m now k it e :
  Inv m → lru_key_map_ m !! k = Some it → (it, e) ∈ lru_list_ m →
  (num_find (lru_stats_ m) < INT64_MAX)%Z →
  let e1 :=
    match hit_counting P with
    | HitCountDisabled => e
    | HitCountEnabled => set_hit_count (hit_count e + 1) e
    end in
  Find P now k m =
  Done ({| capacity_ := capacity_ m;
           lru_stats_ :=
             {| num_insert := num_insert (lru_stats_ m);
                num_overflow := num_overflow (lru_stats_ m);
                num_find := num_find (lru_stats_ m) + 1;
                num_find_ok := num_find_ok (lru_stats_ m) + 1;
                num_erase := num_erase (lru_stats_ m);
                num_clear := num_clear (lru_stats_ m) |};
           lru_list_ :=
             (it, UpdateAccessTimestamp P now e1) :: list_unlink it (lru_list_ m);
           lru_key_map_ := lru_key_map_ m;
           glog_ := LogFind P e1 (glog_ m) |}, Some (value e)).
Proof.
  intros HI Hk Hin Hroom e1. destruct HI as [Hcap Hc Hb [Hok _] _ Hhits].
  pose proof Hc as (Hnd & Hsz & Hix).
  assert (key e = k) as Hke.
  { destruct (consistent_lookup _ _ _ _ Hc Hk) as (e' & Hd & Hke & _).
    rewrite (list_deref_Done _ _ _ Hnd Hin) in Hd. congruence. }
  rewrite Forall_forall in Hhits. specialize (Hhits _ Hin). simpl in Hhits.
  unfold Find. rewrite (incr64_Done (num_find _)) by done. cbn. rewrite Hk.
  unfold list_splice_begin.
  rewrite (list_deref_Done _ _ _ Hnd Hin). cbn.
  rewrite bool_decide_true by done. cbn.
  rewrite incr64_Done by lia. cbn.
  assert (IncrementHitCount P e = Done e1) as ->.
  { unfold IncrementHitCount, e1. destruct (hit_counting P); [done|].
    by rewrite incr64_Done by lia. }
  cbn. do 3 f_equal.
  unfold UpdateAccessTimestamp, e1.
  by destruct (timestamping P), (hit_counting P).
Qed.

Lemma Erase_miss m k :
  lru_key_map_ m !! k = None →
  (num_erase (lru_stats_ m) < INT64_MAX)%Z →
  Erase P k m =
  Done {| capacity_ := capacity_ m;
          lru_stats_ :=
            {| num_insert := num_insert (lru_stats_ m);
               num_overflow := num_overflow (lru_stats_ m);
               num_find := num_find (lru_stats_ m);
               num_find_ok := num_find_ok (lru_stats_ m);
               num_erase := num_erase (lru_stats_ m) + 1;
               num_clear := num_clear (lru_stats_ m) |};
          lru_list_ := lru_list_ m;
          lru_key_map_ := lru_key_map_ m;
          glog_ := glog_ m |}.
Proof.
  intros Hk Hroom. unfold Erase. rewrite incr64_Done by done. cbn.
  by rewrite Hk.
Qed.

Lemma Erase_hit m k it e :
  Inv m → lru_key_map_ m !! k = Some it → (it, e) ∈ lru_list_ m →
  (num_erase (lru_stats_ m) < INT64_MAX)%Z →
  Erase P k m =
  Done {| capacity_ := capacity_ m;
          lru_stats_ :=
            {| num_insert := num_insert (lru_stats_ m);
               num_overflow := num_overflow (lru_stats_ m);
               num_find := num_find (lru_stats_ m);
               num_find_ok := num_find_ok (lru_stats_ m);
               num_erase := num_erase (lru_stats_ m) + 1;
               num_clear := num_clear (lru_stats_ m) |};
          lru_list_ := list_unlink it (lru_list_ m);
          lru_key_map_ := delete k (lru_key_map_ m);
          glog_ := LogErase P e (glog_ m) |}.
Proof.
  intros HI Hk Hin Hroom. destruct HI as [Hcap Hc Hb _ _ _].
  pose proof Hc as (Hnd & Hsz & Hix).
  unfold Erase, list_erase. rewrite incr64_Done by done. cbn. rewrite Hk.
  rewrite (list_deref_Done _ _ _ Hnd Hin). done.
Qed.

Lemma Clear_Done m :
  (num_clear (lru_stats_ m) < INT64_MAX)%Z →
  Clear m =
  Done {| capacity_ := capacity_ m;
          lru_stats_ :=
            {| num_insert := num_insert (lru_stats_ m);
               num_overflow := num_overflow (lru_stats_ m);
               num_find := num_find (lru_stats_ m);
               num_find_ok := num_find_ok (lru_stats_ m);
               num_erase := num_erase (lru_stats_ m);
               num_clear := num_clear (lru_stats_ m) + 1 |};
          lru_list_ := [];
          lru_key_map_ := ∅;
          glog_ := glog_ m |}.
Proof. intros Hroom. unfold Clear. by rewrite incr64_Done by done. Qed.

Lemma Forall_list_unlink (Q : node * KeyValueEntry → Prop) it l :
  Forall Q l → Forall Q (list_unlink it l).
Proof.
  induction 1 as [|[a e] l Hx Hl IH]; simpl; [constructor|].
  case_decide; [done|by constructor].
Qed.

(** A call that returns found the counter it increments below [INT64_MAX]. *)
Lemma Insert_room m now k v m' :
  Insert P now k v m = Done m' → (num_insert (lru_stats_ m) < INT64_MAX)%Z.
Proof.
  unfold Insert. intros Hd.
  apply bind_Done in Hd as ([l1 km1] & _ & Hd).
  apply bind_Done in Hd as (front & _ & Hd).
  apply bind_Done in Hd as (? & _ & Hd).
  apply bind_Done in Hd as (l2 & _ & Hd).
  apply bind_Done in Hd as (sz & _ & Hd).
  apply bind_Done in Hd as ([[[ov g3] km3] l3] & _ & Hd).
  apply bind_Done in Hd as (ins & Hi & _).
  by apply incr64_inv in Hi as [_ ?].
Qed.

Lemma Find_room m now k r :
  Find P now k m = Done r → (num_find (lru_stats_ m) < INT64_MAX)%Z.
Proof.
  unfold Find. intros Hd.
  apply bind_Done in Hd as (nf & Hi & _).
  by apply incr64_inv in Hi as [_ ?].
Qed.

Lemma Erase_room m k m' :
  Erase P k m = Done m' → (num_erase (lru_stats_ m) < INT64_MAX)%Z.
Proof.
  unfold Erase. intros Hd.
  apply bind_Done in Hd as (ne & Hi & _).
  by apply incr64_inv in Hi as [_ ?].
Qed.

Lemma Clear_room m m' :
  Clear m = Done m' → (num_clear (lru_stats_ m) < INT64_MAX)%Z.
Proof.
  unfold Clear. intros Hd.
  apply bind_Done in Hd as (nc & Hi & _).
  by apply incr64_inv in Hi as [_ ?].
Qed.

(** ** The invariant is established by the constructor and maintained *)

Lemma LruMap_new_Done capacity :
  (1 ≤ capacity)%Z →
  LruMap_new capacity =
  Done {| capacity_ := capacity; lru_stats_ := LruMapStats_init;
          lru_list_ := []; lru_key_map_ := (∅ : gmap KeyType node);
          glog_ := @LruMap_log KeyType ValueType |}.
Proof.
  intros Hc. unfold LruMap_new, CHECK.
  by rewrite (proj2 (Z.leb_le _ _) Hc).
Qed.

Lemma LruMap_new_inv capacity m :
  LruMap_new capacity = Done m →
  (1 ≤ capacity)%Z ∧
  m = {| capacity_ := capacity; lru_stats_ := LruMapStats_init;
         lru_list_ := []; lru_key_map_ := ∅; glog_ := LruMap_log |}.
Proof.
  unfold LruMap_new, CHECK. destruct (Z.leb_spec 1 capacity); [|done].
  by intros [= <-].
Qed.

Lemma Inv_new capacity m : LruMap_new capacity = Done m → Inv m.
Proof.
  intros [Hc ->]%LruMap_new_inv.
  split; simpl; [done|apply consistent_empty|lia| |lia|constructor].
  unfold stats_ok. simpl. lia.
Qed.

(** The entry at the back of a sequence that is not empty. *)
Lemma list_snoc_inv l : l ≠ [] → ∃ l0 a e, l = l0 ++ [(a, e)].
Proof.
  intros Hne. apply last_is_Some in Hne as [[a e] Hl].
  apply last_Some in Hl as [l0 ->]. by exists l0, a, e.
Qed.

Lemma Inv_full_snoc m :
  Inv m → Z.of_nat (length (lru_list_ m)) = capacity_ m →
  ∃ l0 a e, lru_list_ m = l0 ++ [(a, e)].
Proof.
  intros HI Hfull. apply list_snoc_inv. intros Hl.
  destruct HI as [Hcap _ _ _ _ _]. rewrite Hl in Hfull. simpl in Hfull. lia.
Qed.

Lemma Inv_Insert m now k v m' : Inv m → Insert P now k v m = Done m' → Inv m'.
Proof.
  intros HI Hd. pose proof (Insert_room _ _ _ _ _ Hd) as Hroom.
  pose proof HI as [Hcap Hc Hb [Hok Hov] Hcnt Hhits].
  destruct (lru_key_map_ m !! k) as [it|] eqn:Hk.
  - destruct (consistent_lookup _ _ _ _ Hc Hk) as (e & Hde & Hke & Hin).
    rewrite (Insert_hit _ _ _ _ _ _ HI Hk Hin Hroom) in Hd.
    injection Hd as <-.
    pose proof (length_list_unlink _ _ _ Hde) as Hlen.
    split; simpl; [done| |lia| |done|].
    + apply (consistent_relink _ _ _ e); [done..|].
      by rewrite key_UpdateModifyTimestamp.
    + unfold stats_ok. simpl. lia.
    + constructor; [|by apply Forall_list_unlink].
      rewrite Forall_forall in Hhits. specialize (Hhits _ Hin).
      simpl in *. unfold UpdateModifyTimestamp.
      by destruct (timestamping P).
  - assert (consistent
              ((fresh_node (lru_list_ m), UpdateModifyTimestamp P now (KeyValueT k v))
                 :: lru_list_ m)
              (<[k := fresh_node (lru_list_ m)]> (lru_key_map_ m))) as Hc'.
    { apply (consistent_front_write _ _ _ (KeyValueT k v));
        [|by rewrite key_UpdateModifyTimestamp].
      by apply (consistent_push_front _ _ (KeyValueT k v)). }
    assert ((0 ≤ hit_count (UpdateModifyTimestamp P now (KeyValueT k v))
               ≤ num_find_ok (lru_stats_ m))%Z) as Hh.
    { unfold UpdateModifyTimestamp. destruct (timestamping P); simpl; lia. }
    destruct (decide (Z.of_nat (length (lru_list_ m)) < capacity_ m)%Z) as [Hlt|Hge].
    + rewrite (Insert_miss_room _ _ _ _ HI Hk Hlt Hroom) in Hd.
      injection Hd as <-.
      split; simpl; [done|done|lia| |done|by constructor].
      unfold stats_ok. simpl. lia.
    + assert (Z.of_nat (length (lru_list_ m)) = capacity_ m) as Hfull by lia.
      destruct (Inv_full_snoc _ HI Hfull) as (l0 & a & e & Hl).
      rewrite (Insert_miss_full _ _ _ _ _ _ _ HI Hk Hl Hfull Hroom) in Hd.
      injection Hd as <-.
      rewrite Hl in Hc', Hfull, Hhits. rewrite length_app in Hfull. simpl in Hfull.
      apply Forall_app in Hhits as [Hhits _].
      split; simpl; [done| |lia| |done|by constructor].
      * rewrite Hl. rewrite app_comm_cons in Hc'. by apply consistent_pop_back in Hc'.
      * unfold stats_ok. simpl. lia.
Qed.

Lemma Inv_Find m now k m' r : Inv m → Find P now k m = Done (m', r) → Inv m'.
Proof.
  intros HI Hd. pose proof (Find_room _ _ _ _ Hd) as Hroom.
  pose proof HI as [Hcap Hc Hb [Hok Hov] Hcnt Hhits].
  destruct (lru_key_map_ m !! k) as [it|] eqn:Hk.
  - destruct (consistent_lookup _ _ _ _ Hc Hk) as (e & Hde & Hke & Hin).
    rewrite (Find_hit _ _ _ _ _ HI Hk Hin Hroom) in Hd.
    injection Hd as <- <-.
    pose proof (length_list_unlink _ _ _ Hde) as Hlen.
    split; simpl; [done| |lia| |done|].
    + apply (consistent_relink _ _ _ e); [done..|].
      rewrite key_UpdateAccessTimestamp. by destruct (hit_counting P).
    + unfold stats_ok. simpl. lia.
    + rewrite Forall_forall in Hhits. pose proof (Hhits _ Hin) as Hh.
      constructor.
      * simpl in *. unfold UpdateAccessTimestamp.
        destruct (timestamping P), (hit_counting P); simpl; lia.
      * apply Forall_list_unlink, Forall_forall. intros x Hx.
        specialize (Hhits _ Hx). simpl in Hhits. lia.
  - rewrite (Find_miss _ _ _ Hk Hroom) in Hd. injection Hd as <- <-.
    split; simpl; [done..| |done|done].
    unfold stats_ok. simpl. lia.
Qed.

Lemma Inv_Erase m k m' : Inv m → Erase P k m = Done m' → Inv m'.
Proof.
  intros HI Hd. pose proof (Erase_room _ _ _ Hd) as Hroom.
  pose proof HI as [Hcap Hc Hb [Hok Hov] Hcnt Hhits].
  destruct (lru_key_map_ m !! k) as [it|] eqn:Hk.
  - destruct (consistent_lookup _ _ _ _ Hc Hk) as (e & Hde & Hke & Hin).
    rewrite (Erase_hit _ _ _ _ HI Hk Hin Hroom) in Hd.
    injection Hd as <-.
    pose proof (length_list_unlink _ _ _ Hde) as Hlen.
    split; simpl; [done| |lia|done|lia|by apply Forall_list_unlink].
    rewrite <- Hke. by apply consistent_unlink.
  - rewrite (Erase_miss _ _ Hk Hroom) in Hd. injection Hd as <-.
    split; simpl; [done..|lia|done].
Qed.

Lemma Inv_Clear m m' : Inv m → Clear m = Done m' → Inv m'.
Proof.
  intros HI Hd. pose proof (Clear_room _ _ Hd) as Hroom.
  pose proof HI as [Hcap Hc Hb [Hok Hov] Hcnt Hhits].
  rewrite (Clear_Done _ Hroom) in Hd. injection Hd as <-.
  split; simpl; [done|apply consistent_empty|lia|done|lia|constructor].
Qed.

Lemma Inv_step o m m' : Inv m → step P o m = Done m' → Inv m'.
Proof.
  intros HI. destruct o as [now k v|now k|k|k|]; simpl.
  - by apply Inv_Insert.
  - intros ([m1 r] & Hf & [= <-])%bind_Done. by eapply Inv_Find.
  - by intros [= <-].
  - by apply Inv_Erase.
  - by apply Inv_Clear.
Qed.

Lemma Inv_run ops m m' : Inv m → run P ops m = Done m' → Inv m'.
Proof.
  revert m. induction ops as [|o ops IH]; simpl; intros m HI.
  - by intros [= <-].
  - intros (m1 & Hs & Hr)%bind_Done. eapply IH; [|done]. by eapply Inv_step.
Qed.

Lemma Inv_reachable m : reachable P m → Inv m.
Proof.
  intros (capacity & ops & (m0 & Hn & Hr)%bind_Done).
  eapply Inv_run; [|done]. by eapply Inv_new.
Qed.

(** ** Capacity and counters across a call *)

Lemma stats_le_refl st : stats_le st st.
Proof. unfold stats_le. lia. Qed.

Lemma stats_le_trans st1 st2 st3 :
  stats_le st1 st2 → stats_le st2 st3 → stats_le st1 st3.
Proof. unfold stats_le. lia. Qed.

Lemma stats_succ_le st st' : stats_succ st st' → stats_le st st'.
Proof. unfold stats_succ, stats_le. lia. Qed.

Lemma Insert_frame m now k v m' :
  Inv m → Insert P now k v m = Done m' →
  capacity_ m' = capacity_ m ∧ stats_succ (lru_stats_ m) (lru_stats_ m').
Proof.
  intros HI Hd. pose proof (Insert_room _ _ _ _ _ Hd) as Hroom.
  pose proof HI as [Hcap Hc Hb _ _ _].
  destruct (lru_key_map_ m !! k) as [it|] eqn:Hk.
  - destruct (consistent_lookup _ _ _ _ Hc Hk) as (e & _ & _ & Hin).
    rewrite (Insert_hit _ _ _ _ _ _ HI Hk Hin Hroom) in Hd.
    injection Hd as <-. unfold stats_succ. simpl. split; [done|lia].
  - destruct (decide (Z.of_nat (length (lru_list_ m)) < capacity_ m)%Z) as [Hlt|Hge].
    + rewrite (Insert_miss_room _ _ _ _ HI Hk Hlt Hroom) in Hd.
      injection Hd as <-. unfold stats_succ. simpl. split; [done|lia].
    + assert (Z.of_nat (length (lru_list_ m)) = capacity_ m) as Hfull by lia.
      destruct (Inv_full_snoc _ HI Hfull) as (l0 & a & e & Hl).
      rewrite (Insert_miss_full _ _ _ _ _ _ _ HI Hk Hl Hfull Hroom) in Hd.
      injection Hd as <-. unfold stats_succ. simpl. split; [done|lia].
Qed.

Lemma Find_frame m now k m' r :
  Inv m → Find P now k m = Done (m', r) →
  capacity_ m' = capacity_ m ∧ stats_succ (lru_stats_ m) (lru_stats_ m').
Proof.
  intros HI Hd. pose proof (Find_room _ _ _ _ Hd) as Hroom.
  pose proof HI as [Hcap Hc Hb _ _ _].
  destruct (lru_key_map_ m !! k) as [it|] eqn:Hk.
  - destruct (consistent_lookup _ _ _ _ Hc Hk) as (e & _ & _ & Hin).
    rewrite (Find_hit _ _ _ _ _ HI Hk Hin Hroom) in Hd.
    injection Hd as <- <-. unfold stats_succ. simpl. split; [done|lia].
  - rewrite (Find_miss _ _ _ Hk Hroom) in Hd.
    injection Hd as <- <-. unfold stats_succ. simpl. split; [done|lia].
Qed.

Lemma Erase_frame m k m' :
  Inv m → Erase P k m = Done m' →
  capacity_ m' = capacity_ m ∧ stats_succ (lru_stats_ m) (lru_stats_ m').
Proof.
  intros HI Hd. pose proof (Erase_room _ _ _ Hd) as Hroom.
  pose proof HI as [Hcap Hc Hb _ _ _].
  destruct (lru_key_map_ m !! k) as [it|] eqn:Hk.
  - destruct (consistent_lookup _ _ _ _ Hc Hk) as (e & _ & _ & Hin).
    rewrite (Erase_hit _ _ _ _ HI Hk Hin Hroom) in Hd.
    injection Hd as <-. unfold stats_succ. simpl. split; [done|lia].
  - rewrite (Erase_miss _ _ Hk Hroom) in Hd.
    injection Hd as <-. unfold stats_succ. simpl. split; [done|lia].
Qed.

Lemma Clear_frame m m' :
  Clear m = Done m' →
  capacity_ m' = capacity_ m ∧ stats_succ (lru_stats_ m) (lru_stats_ m').
Proof.
  intros Hd. pose proof (Clear_room _ _ Hd) as Hroom.
  rewrite (Clear_Done _ Hroom) in Hd.
  injection Hd as <-. unfold stats_succ. simpl. split; [done|lia].
Qed.

Lemma step_frame o m m' :
  Inv m → step P o m = Done m' →
  capacity_ m' = capacity_ m ∧ stats_succ (lru_stats_ m) (lru_stats_ m').
Proof.
  intros HI. destruct o as [now k v|now k|k|k|]; simpl.
  - by apply Insert_frame.
  - intros ([m1 r] & Hf & [= <-])%bind_Done. by eapply Find_frame.
  - intros [= <-]. split; [done|]. unfold stats_succ. lia.
  - by apply Erase_frame.
  - by apply Clear_frame.
Qed.

(** ** On a map that satisfies the invariant the calls return *)

Lemma Insert_returns m now k v :
  Inv m → (num_insert (lru_stats_ m) < INT64_MAX)%Z →
  ∃ m', Insert P now k v m = Done m'.
Proof.
  intros HI Hroom. pose proof HI as [Hcap Hc Hb _ _ _].
  destruct (lru_key_map_ m !! k) as [it|] eqn:Hk.
  - destruct (consistent_lookup _ _ _ _ Hc Hk) as (e & _ & _ & Hin).
    eexists. by apply (Insert_hit _ _ _ _ _ _ HI Hk Hin Hroom).
  - destruct (decide (Z.of_nat (length (lru_list_ m)) < capacity_ m)%Z) as [Hlt|Hge].
    + eexists. by apply Insert_miss_room.
    + assert (Z.of_nat (length (lru_list_ m)) = capacity_ m) as Hfull by lia.
      destruct (Inv_full_snoc _ HI Hfull) as (l0 & a & e & Hl).
      eexists. by apply (Insert_miss_full _ _ _ _ _ _ _ HI Hk Hl Hfull Hroom).
Qed.

Lemma Find_returns m now k :
  Inv m → (num_find (lru_stats_ m) < INT64_MAX)%Z →
  ∃ m' r, Find P now k m = Done (m', r).
Proof.
  intros HI Hroom. pose proof HI as [Hcap Hc Hb _ _ _].
  destruct (lru_key_map_ m !! k) as [it|] eqn:Hk.
  - destruct (consistent_lookup _ _ _ _ Hc Hk) as (e & _ & _ & Hin).
    do 2 eexists. by apply (Find_hit _ _ _ _ _ HI Hk Hin Hroom).
  - do 2 eexists. by apply Find_miss.
Qed.

Lemma Erase_returns m k :
  Inv m → (num_erase (lru_stats_ m) < INT64_MAX)%Z →
  ∃ m', Erase P k m = Done m'.
Proof.
  intros HI Hroom. pose proof HI as [Hcap Hc Hb _ _ _].
  destruct (lru_key_map_ m !! k) as [it|] eqn:Hk.
  - destruct (consistent_lookup _ _ _ _ Hc Hk) as (e & _ & _ & Hin).
    eexists. by apply (Erase_hit _ _ _ _ HI Hk Hin Hroom).
  - eexists. by apply Erase_miss.
Qed.

Lemma step_returns o m :
  Inv m → stats_room (lru_stats_ m) → ∃ m', step P o m = Done m'.
Proof.
  intros HI (Hi & Hf & He & Hc). destruct o as [now k v|now k|k|k|]; simpl.
  - by apply Insert_returns.
  - destruct (Find_returns m now k HI Hf) as (m' & r & ->). by exists m'.
  - by exists m.
  - by apply Erase_returns.
  - eexists. by apply Clear_Done.
Qed.

(** ** Runs *)

Lemma run_app ops1 ops2 m :
  run P (ops1 ++ ops2) m = run P ops1 m ≫= run P ops2.
Proof.
  revert m. induction ops1 as [|o ops1 IH]; intros m; simpl; [done|].
  destruct (step P o m) as [m1| |]; simpl; [apply IH|done|done].
Qed.

Lemma run_snoc ops o m :
  run P (ops ++ [o]) m = run P ops m ≫= step P o.
Proof.
  rewrite run_app. destruct (run P ops m) as [m1| |]; simpl; [|done|done].
  by destruct (step P o m1).
Qed.

Lemma run_take n ops m m' :
  run P ops m = Done m' → ∃ mn, run P (take n ops) m = Done mn.
Proof.
  intros Hr. rewrite <- (take_drop n ops), run_app in Hr.
  apply bind_Done in Hr as (mn & Hn & _). by exists mn.
Qed.

Lemma reachable_new capacity m : LruMap_new capacity = Done m → reachable P m.
Proof. intros Hn. exists capacity, []. by rewrite Hn. Qed.

Lemma reachable_step o m m' : reachable P m → step P o m = Done m' → reachable P m'.
Proof.
  intros (capacity & ops & (m0 & Hn & Hr)%bind_Done) Hs.
  exists capacity, (ops ++ [o]). rewrite Hn. simpl.
  by rewrite run_snoc, Hr.
Qed.

Lemma reachable_run ops m m' : reachable P m → run P ops m = Done m' → reachable P m'.
Proof.
  revert m. induction ops as [|o ops IH]; simpl; intros m Hm.
  - by intros [= <-].
  - intros (m1 & Hs & Hr)%bind_Done. eapply IH; [|done]. by eapply reachable_step.
Qed.

(** A run that is short enough for the counters returns. *)
Lemma run_returns ops m (n : Z) :
  Inv m → stats_upto n (lru_stats_ m) →
  (n + Z.of_nat (length ops) ≤ INT64_MAX)%Z →
  ∃ m', run P ops m = Done m'.
Proof.
  revert m n. induction ops as [|o ops IH]; simpl; intros m n HI Hn Hlen.
  - by exists m.
  - destruct (step_returns o m HI) as [m1 Hs].
    { unfold stats_upto, stats_room in *. lia. }
    rewrite Hs. simpl. apply (IH m1 (n + 1)%Z); [by eapply Inv_step| |lia].
    destruct (step_frame _ _ _ HI Hs) as [_ Hsucc].
    unfold stats_upto, stats_succ in *. lia.
Qed.

(** ** Queries *)

Lemma Exists_true k m : Exists k m = true ↔ is_Some (lru_key_map_ m !! k).
Proof.
  unfold Exists. rewrite bool_decide_eq_true, <- not_eq_None_Some. done.
Qed.

Lemma Exists_false k m : Exists k m = false ↔ lru_key_map_ m !! k = None.
Proof.
  unfold Exists. rewrite bool_decide_eq_false. split.
  - intros Hn. destruct (lru_key_map_ m !! k); [|done]. by destruct Hn.
  - intros ->. by intros Hn.
Qed.

Lemma Exists_entry_keys k m : Inv m → Exists k m = true ↔ k ∈ entry_keys (lru_list_ m).
Proof.
  intros [_ Hc _ _ _ _]. rewrite Exists_true, <- not_eq_None_Some.
  rewrite (consistent_lookup_None _ _ k Hc). split; [|by intros ? ?].
  intros Hnn. by destruct (decide (k ∈ entry_keys (lru_list_ m))).
Qed.

Lemma Size_Done m : Inv m → Size m = Done (Z.of_nat (length (lru_list_ m))).
Proof. intros [_ Hc _ _ _ _]. by apply SizePrivate_Done. Qed.

Lemma Inv_structure_ok m : Inv m → structure_ok m.
Proof. by intros [Hcap (_ & Hsz & Hix) Hb _ _ _]. Qed.

Lemma run_capacity ops m m' :
  Inv m → run P ops m = Done m' → capacity_ m' = capacity_ m.
Proof.
  revert m. induction ops as [|o ops IH]; simpl; intros m HI.
  - by intros [= <-].
  - intros (m1 & Hs & Hr)%bind_Done.
    destruct (step_frame _ _ _ HI Hs) as [<- _].
    eapply IH; [|done]. by eapply Inv_step.
Qed.

(** ** The claims about every reachable state *)

(** C1.  A map is constructed with a capacity of at least 1 and
    [Insert], [Find], [Exists], [Erase] and [Clear] are called on it in any
    sequence.  After each call, that is in the state [mn] after the first [n]
    calls, for every [n] for which they all returned: the capacity is the one
    of the construction, the sequence has as many entries as the index has
    keys, and at most capacity many, and index and sequence resolve to each
    other (a key is mapped to an address exactly when the node at that
    address is in the sequence and stores the key).  And the calls do
    return, as long as the sequence is not longer than [INT64_MAX], so that
    no counter can overflow. *)
Theorem structure_invariant (capacity : Z) (ops : list Op) :
  (1 ≤ capacity)%Z →
  (∀ (n : nat) (mn : LruMap),
     LruMap_new capacity ≫= run P (take n ops) = Done mn →
     capacity_ mn = capacity ∧
     length (lru_list_ mn) = size (lru_key_map_ mn) ∧
     (Z.of_nat (length (lru_list_ mn)) ≤ capacity)%Z ∧
     index_resolves (lru_list_ mn) (lru_key_map_ mn)) ∧
  ((Z.of_nat (length ops) ≤ INT64_MAX)%Z →
   ∀ n : nat, ∃ mn, LruMap_new capacity ≫= run P (take n ops) = Done mn).
Proof.
  intros Hcap. rewrite (LruMap_new_Done _ Hcap). simpl.
  pose proof (Inv_new _ _ (LruMap_new_Done _ Hcap)) as HI0. split.
  - intros n mn Hmn.
    pose proof (Inv_run _ _ _ HI0 Hmn) as HI.
    pose proof (run_capacity _ _ _ HI0 Hmn) as Hc. simpl in Hc.
    destruct (Inv_structure_ok _ HI) as (_ & Hsz & Hb & Hix).
    rewrite Hc in Hb. done.
  - intros Hlen n. apply (run_returns _ _ 0%Z HI0).
    + unfold stats_upto. simpl. lia.
    + rewrite length_take. lia.
Qed.

(** C10.  In every state reached from a fresh map through the public
    operations, [0 <= num_find_ok <= num_find] and
    [0 <= num_overflow <= num_insert], and a further call that returns
    leaves no counter below what it was. *)
Theorem stats_invariant (m : LruMap) :
  reachable P m →
  (0 ≤ num_find_ok (lru_stats_ m) ≤ num_find (lru_stats_ m))%Z ∧
  (0 ≤ num_overflow (lru_stats_ m) ≤ num_insert (lru_stats_ m))%Z ∧
  ∀ o m', step P o m = Done m' →
    (num_insert (lru_stats_ m) ≤ num_insert (lru_stats_ m'))%Z ∧
    (num_overflow (lru_stats_ m) ≤ num_overflow (lru_stats_ m'))%Z ∧
    (num_find (lru_stats_ m) ≤ num_find (lru_stats_ m'))%Z ∧
    (num_find_ok (lru_stats_ m) ≤ num_find_ok (lru_stats_ m'))%Z ∧
    (num_erase (lru_stats_ m) ≤ num_erase (lru_stats_ m'))%Z ∧
    (num_clear (lru_stats_ m) ≤ num_clear (lru_stats_ m'))%Z.
Proof.
  intros HI%Inv_reachable. pose proof HI as [_ _ _ [Hok Hov] _ _].
  split; [done|]. split; [done|]. intros o m' Hs.
  destruct (step_frame _ _ _ HI Hs) as [_ Hle%stats_succ_le]. exact Hle.
Qed.

(** C7.  In a reachable state where the key [k] is not present (and the
    counters [num_find] and [num_erase] can still be incremented),
    [Find(k)] returns, with the absent indicator, [num_find] incremented,
    [num_find_ok] as it was, and the sequence and the index unchanged; and
    [Erase(k)] returns, with [num_erase] incremented and the sequence and the
    index unchanged.  Neither is a failed check or undefined. *)
Theorem miss_is_no_error (m : LruMap) (now : Z) (k : KeyType) :
  reachable P m →
  Exists k m = false →
  (num_find (lru_stats_ m) < INT64_MAX)%Z →
  (num_erase (lru_stats_ m) < INT64_MAX)%Z →
  (∃ m', Find P now k m = Done (m', None) ∧
     num_find (lru_stats_ m') = (num_find (lru_stats_ m) + 1)%Z ∧
     num_find_ok (lru_stats_ m') = num_find_ok (lru_stats_ m) ∧
     lru_list_ m' = lru_list_ m ∧
     lru_key_map_ m' = lru_key_map_ m) ∧
  (∃ m', Erase P k m = Done m' ∧
     num_erase (lru_stats_ m') = (num_erase (lru_stats_ m) + 1)%Z ∧
     lru_list_ m' = lru_list_ m ∧
     lru_key_map_ m' = lru_key_map_ m).
Proof.
  intros _ Hk%Exists_false Hf He. split.
  - eexists. by rewrite (Find_miss _ now _ Hk Hf).
  - eexists. by rewrite (Erase_miss _ _ Hk He).
Qed.

(** After [Insert(k, v)] the first node of the sequence stores [k] and [v],
    and the index maps [k] to it. *)
Lemma Insert_front m now k v :
  Inv m → (num_insert (lru_stats_ m) < INT64_MAX)%Z →
  ∃ m' it e l',
    Insert P now k v m = Done m' ∧ Inv m' ∧
    lru_list_ m' = (it, e) :: l' ∧ key e = k ∧ value e = v ∧
    lru_key_map_ m' !! k = Some it ∧
    num_find (lru_stats_ m') = num_find (lru_stats_ m).
Proof.
  intros HI Hroom. destruct (Insert_returns m now k v HI Hroom) as [m' Hd].
  pose proof (Inv_Insert _ _ _ _ _ HI Hd) as HI'.
  pose proof HI as [Hcap Hc Hb _ _ _].
  assert (∃ it e l', lru_list_ m' = (it, e) :: l' ∧ key e = k ∧ value e = v ∧
            num_find (lru_stats_ m') = num_find (lru_stats_ m))
    as (it & e & l' & Hl & Hke & Hve & Hnf).
  { destruct (lru_key_map_ m !! k) as [it|] eqn:Hk.
    - destruct (consistent_lookup _ _ _ _ Hc Hk) as (e & _ & Hke & Hin).
      rewrite (Insert_hit _ _ _ _ _ _ HI Hk Hin Hroom) in Hd.
      injection Hd as <-. simpl. do 3 eexists. split; [done|].
      unfold UpdateModifyTimestamp. by destruct (timestamping P).
    - destruct (decide (Z.of_nat (length (lru_list_ m)) < capacity_ m)%Z) as [Hlt|Hge].
      + rewrite (Insert_miss_room _ _ _ _ HI Hk Hlt Hroom) in Hd.
        injection Hd as <-. simpl. do 3 eexists. split; [done|].
        unfold UpdateModifyTimestamp. by destruct (timestamping P).
      + assert (Z.of_nat (length (lru_list_ m)) = capacity_ m) as Hfull by lia.
        destruct (Inv_full_snoc _ HI Hfull) as (l0 & a & e & Hl).
        rewrite (Insert_miss_full _ _ _ _ _ _ _ HI Hk Hl Hfull Hroom) in Hd.
        injection Hd as <-. simpl. do 3 eexists. split; [done|].
        unfold UpdateModifyTimestamp. by destruct (timestamping P). }
  exists m', it, e, l'. do 5 (split; [done|]). split; [|done].
  destruct HI' as [_ Hc' _ _ _ _]. rewrite <- Hke.
  apply (consistent_elem_of _ _ _ _ Hc'). rewrite Hl. left.
Qed.

(** C4.  In a reachable state (whose counters can still be incremented),
    [Insert(k, v)] followed at once by [Find(k)] returns [v], and [Erase(k)]
    followed at once by [Find(k)] returns the absent indicator. *)
Theorem insert_find_erase_find (m : LruMap) (now1 now2 : Z) (k : KeyType)
    (v : ValueType) :
  reachable P m →
  (num_insert (lru_stats_ m) < INT64_MAX)%Z →
  (num_find (lru_stats_ m) < INT64_MAX)%Z →
  (num_erase (lru_stats_ m) < INT64_MAX)%Z →
  (∃ m1 m2, Insert P now1 k v m = Done m1 ∧ Find P now2 k m1 = Done (m2, Some v)) ∧
  (∃ m1 m2, Erase P k m = Done m1 ∧ Find P now2 k m1 = Done (m2, None)).
Proof.
  intros HI%Inv_reachable Hi Hf He. split.
  - destruct (Insert_front m now1 k v HI Hi)
      as (m1 & it & e & l' & Hd & HI1 & Hl & Hke & Hve & Hk & Hnf).
    exists m1. eexists. split; [done|].
    assert ((it, e) ∈ lru_list_ m1) as Hin by (rewrite Hl; left).
    rewrite (Find_hit _ now2 _ _ _ HI1 Hk Hin) by (by rewrite Hnf).
    by rewrite Hve.
  - destruct (Erase_returns m k HI He) as [m1 Hd].
    exists m1. eexists. split; [done|].
    pose proof HI as [Hcap Hc Hb _ _ _].
    assert (lru_key_map_ m1 !! k = None ∧
            num_find (lru_stats_ m1) = num_find (lru_stats_ m)) as [Hk1 Hnf].
    { destruct (lru_key_map_ m !! k) as [it|] eqn:Hk.
      - destruct (consistent_lookup _ _ _ _ Hc Hk) as (e & _ & _ & Hin).
        rewrite (Erase_hit _ _ _ _ HI Hk Hin He) in Hd.
        injection Hd as <-. simpl. by rewrite lookup_delete_eq.
      - rewrite (Erase_miss _ _ Hk He) in Hd. by injection Hd as <-. }
    rewrite (Find_miss _ now2 _ Hk1) by (by rewrite Hnf). done.
Qed.

(** C5.  In a reachable state where the key [k] is present (and the counters
    can still be incremented), [Insert(k, v2)] returns and leaves [Size()]
    as it was; the node of [k] is relinked at the front of the sequence, the
    other nodes keep their order; the entry stores [v2], and [Find(k)] then
    returns [v2]; nothing is evicted: [num_overflow] and the index are
    unchanged. *)
Theorem insert_present_key (m : LruMap) (now1 now2 : Z) (k : KeyType)
    (v2 : ValueType) :
  reachable P m →
  Exists k m = true →
  (num_insert (lru_stats_ m) < INT64_MAX)%Z →
  (num_find (lru_stats_ m) < INT64_MAX)%Z →
  ∃ m1 it e e' n,
    lru_key_map_ m !! k = Some it ∧ (it, e) ∈ lru_list_ m ∧ key e = k ∧
    Insert P now1 k v2 m = Done m1 ∧
    Size m = Done n ∧ Size m1 = Done n ∧
    lru_list_ m1 = (it, e') :: list_unlink it (lru_list_ m) ∧
    lru_list_ m ≡ₚ (it, e) :: list_unlink it (lru_list_ m) ∧
    key e' = k ∧ value e' = v2 ∧
    (∃ m2, Find P now2 k m1 = Done (m2, Some v2)) ∧
    num_overflow (lru_stats_ m1) = num_overflow (lru_stats_ m) ∧
    lru_key_map_ m1 = lru_key_map_ m.
Proof.
  intros HI%Inv_reachable [it Hk]%Exists_true Hi Hf.
  pose proof HI as [Hcap Hc Hb _ _ _].
  destruct (consistent_lookup _ _ _ _ Hc Hk) as (e & Hde & Hke & Hin).
  pose proof (Insert_hit _ now1 _ v2 _ _ HI Hk Hin Hi) as Hd.
  pose proof (Inv_Insert _ _ _ _ _ HI Hd) as HI1.
  eexists. exists it, e. do 2 eexists.
  split; [done|]. split; [done|]. split; [done|]. split; [exact Hd|].
  split; [by apply Size_Done|].
  split.
  { rewrite (Size_Done _ HI1). simpl.
    by rewrite (length_list_unlink _ _ _ Hde). }
  simpl. split; [done|]. split; [by apply list_unlink_perm|].
  split; [by rewrite key_UpdateModifyTimestamp|].
  split; [unfold UpdateModifyTimestamp; by destruct (timestamping P)|].
  split; [|done].
  eexists.
  rewrite (Find_hit _ now2 k it (UpdateModifyTimestamp P now1 (set_value v2 e)) HI1);
    [|done|left|done].
  f_equal. f_equal. unfold UpdateModifyTimestamp. by destruct (timestamping P).
Qed.

(** C9.  [Insert] with a key that is already present writes to the entry
    that is there: the index still maps the key to the same node, which is
    now the first of the sequence; its key, its hit counter and its access
    timestamp are what they were, its value is the new one, and its modify
    timestamp is the clock reading under [TimestampAll] (and untouched
    under [TimestampNone]).  The other nodes are the ones that were there,
    unchanged. *)
Theorem insert_present_frame (m : LruMap) (now : Z) (k : KeyType)
    (v : ValueType) (it : node) (e : KeyValueEntry) :
  reachable P m →
  lru_key_map_ m !! k = Some it →
  (it, e) ∈ lru_list_ m →
  (num_insert (lru_stats_ m) < INT64_MAX)%Z →
  ∃ m1 e' l',
    Insert P now k v m = Done m1 ∧
    lru_list_ m1 = (it, e') :: l' ∧
    lru_key_map_ m1 !! k = Some it ∧
    key e' = key e ∧
    hit_count e' = hit_count e ∧
    access_time_usecs e' = access_time_usecs e ∧
    value e' = v ∧
    modify_time_usecs e' =
      match timestamping P with
      | TimestampNone => modify_time_usecs e
      | TimestampAll => now
      end ∧
    l' `sublist_of` lru_list_ m ∧
    ∀ x, x ∈ l' ↔ x ∈ lru_list_ m ∧ x.1 ≠ it.
Proof.
  intros HI%Inv_reachable Hk Hin Hi.
  pose proof HI as [Hcap Hc Hb _ _ _]. pose proof Hc as (Hnd & _).
  pose proof (Insert_hit _ now _ v _ _ HI Hk Hin Hi) as Hd.
  do 3 eexists. split; [exact Hd|]. simpl.
  split; [done|]. split; [done|].
  unfold UpdateModifyTimestamp.
  split; [by destruct (timestamping P)|].
  split; [by destruct (timestamping P)|].
  split; [by destruct (timestamping P)|].
  split; [by destruct (timestamping P)|].
  split; [by destruct (timestamping P)|].
  split; [apply list_unlink_sublist|].
  intros x. by apply elem_of_list_unlink.
Qed.

(** ** The keys of the sequence across a call *)

Lemma entry_keys_unlink_other it l k :
  (∀ a e, (a, e) ∈ l → key e = k → a = it) → it ∉ l.*1 →
  filter (λ k', k' ≠ k) (entry_keys l) = entry_keys l.
Proof.
  intros Hu Hit. unfold entry_keys.
  induction l as [|[a e] l IH]; simpl; [done|].
  simpl in Hit. apply not_elem_of_cons in Hit as [Hne Hit].
  rewrite filter_cons_True.
  2:{ intros Hk. apply Hne. symmetry. apply (Hu a e); [left|done]. }
  f_equal. apply IH; [|done]. intros a' e' Hin. apply Hu. by right.
Qed.

Lemma entry_keys_unlink it l e :
  NoDup l.*1 → (it, e) ∈ l →
  (∀ a' e', (a', e') ∈ l → key e' = key e → a' = it) →
  entry_keys (list_unlink it l) = filter (λ k', k' ≠ key e) (entry_keys l).
Proof.
  intros Hnd Hin Hu. unfold entry_keys.
  induction l as [|[a e0] l IH]; simpl; [done|].
  simpl in Hnd. apply NoDup_cons in Hnd as [Ha Hnd].
  case_decide as Heq.
  - subst a. assert (e0 = e) as ->.
    { apply elem_of_cons in Hin as [[= ->]|Hin]; [done|].
      exfalso. apply Ha. apply list_elem_of_fmap. by exists (it, e). }
    rewrite filter_cons_False by (by intros Hn; apply Hn).
    symmetry. apply (entry_keys_unlink_other it); [|done].
    intros a' e' Hin'. apply Hu. by right.
  - apply elem_of_cons in Hin as [[= -> ->]|Hin]; [done|].
    rewrite filter_cons_True.
    2:{ intros Hk. apply Heq. apply (Hu a e0); [left|done]. }
    simpl. f_equal. apply IH; [done..|].
    intros a' e' Hin'. apply Hu. by right.
Qed.

Lemma entry_keys_snoc l a e : entry_keys (l ++ [(a, e)]) = entry_keys l ++ [key e].
Proof. unfold entry_keys. by rewrite fmap_app. Qed.

Lemma length_entry_keys l : length (entry_keys l) = length l.
Proof. unfold entry_keys. by rewrite length_fmap. Qed.

(** [Insert] of a key that is not present, below capacity. *)
Lemma Insert_new_room m now k v :
  Inv m → k ∉ entry_keys (lru_list_ m) →
  (Z.of_nat (length (lru_list_ m)) < capacity_ m)%Z →
  (num_insert (lru_stats_ m) < INT64_MAX)%Z →
  ∃ m', Insert P now k v m = Done m' ∧ Inv m' ∧
    capacity_ m' = capacity_ m ∧
    entry_keys (lru_list_ m') = k :: entry_keys (lru_list_ m) ∧
    lru_stats_ m' =
      {| num_insert := num_insert (lru_stats_ m) + 1;
         num_overflow := num_overflow (lru_stats_ m);
         num_find := num_find (lru_stats_ m);
         num_find_ok := num_find_ok (lru_stats_ m);
         num_erase := num_erase (lru_stats_ m);
         num_clear := num_clear (lru_stats_ m) |}.
Proof.
  intros HI Hk Hlt Hroom. pose proof HI as [Hcap Hc Hb _ _ _].
  apply (consistent_lookup_None _ _ _ Hc) in Hk.
  pose proof (Insert_miss_room _ now _ v HI Hk Hlt Hroom) as Hd.
  eexists. split; [exact Hd|]. split; [by eapply Inv_Insert|].
  simpl. split; [done|]. split; [|done].
  by rewrite key_UpdateModifyTimestamp.
Qed.

(** [Insert] of a key that is not present, at capacity: the key at the back
    leaves the sequence and the index. *)
Lemma Insert_new_full m now k v ks kold :
  Inv m → k ∉ entry_keys (lru_list_ m) →
  entry_keys (lru_list_ m) = ks ++ [kold] →
  Z.of_nat (length (lru_list_ m)) = capacity_ m →
  (num_insert (lru_stats_ m) < INT64_MAX)%Z →
  ∃ m', Insert P now k v m = Done m' ∧ Inv m' ∧
    capacity_ m' = capacity_ m ∧
    entry_keys (lru_list_ m') = k :: ks ∧
    lru_key_map_ m' =
      delete kold (<[k := fresh_node (lru_list_ m)]> (lru_key_map_ m)) ∧
    lru_stats_ m' =
      {| num_insert := num_insert (lru_stats_ m) + 1;
         num_overflow := num_overflow (lru_stats_ m) + 1;
         num_find := num_find (lru_stats_ m);
         num_find_ok := num_find_ok (lru_stats_ m);
         num_erase := num_erase (lru_stats_ m);
         num_clear := num_clear (lru_stats_ m) |}.
Proof.
  intros HI Hk Hks Hfull Hroom. pose proof HI as [Hcap Hc Hb _ _ _].
  apply (consistent_lookup_None _ _ _ Hc) in Hk.
  destruct (Inv_full_snoc _ HI Hfull) as (l0 & a & e & Hl).
  rewrite Hl, entry_keys_snoc in Hks. apply app_inj_tail in Hks as [Hks Hke].
  pose proof (Insert_miss_full _ now _ v _ _ _ HI Hk Hl Hfull Hroom) as Hd.
  eexists. split; [exact Hd|]. split; [by eapply Inv_Insert|].
  simpl. split; [done|]. rewrite key_UpdateModifyTimestamp. simpl.
  by rewrite Hks, Hke.
Qed.

(** A [Find] that hits. *)
Lemma Find_present m now k :
  Inv m → k ∈ entry_keys (lru_list_ m) →
  (num_find (lru_stats_ m) < INT64_MAX)%Z →
  ∃ m' v, Find P now k m = Done (m', Some v) ∧ Inv m' ∧
    capacity_ m' = capacity_ m ∧
    entry_keys (lru_list_ m') =
      k :: filter (λ k', k' ≠ k) (entry_keys (lru_list_ m)) ∧
    length (lru_list_ m') = length (lru_list_ m) ∧
    lru_key_map_ m' = lru_key_map_ m ∧
    lru_stats_ m' =
      {| num_insert := num_insert (lru_stats_ m);
         num_overflow := num_overflow (lru_stats_ m);
         num_find := num_find (lru_stats_ m) + 1;
         num_find_ok := num_find_ok (lru_stats_ m) + 1;
         num_erase := num_erase (lru_stats_ m);
         num_clear := num_clear (lru_stats_ m) |}.
Proof.
  intros HI Hk Hroom. pose proof HI as [Hcap Hc Hb _ _ _].
  pose proof Hc as (Hnd & _).
  apply (Exists_entry_keys _ _ HI), Exists_true in Hk as [it Hk].
  destruct (consistent_lookup _ _ _ _ Hc Hk) as (e & Hde & Hke & Hin).
  pose proof (Find_hit _ now _ _ _ HI Hk Hin Hroom) as Hd. simpl in Hd.
  do 2 eexists. split; [exact Hd|]. split; [by eapply Inv_Find|].
  simpl. split; [done|]. split; [|split; [|done]].
  - rewrite key_UpdateAccessTimestamp.
    rewrite (entry_keys_unlink it _ e Hnd Hin).
    + rewrite <- Hke. by destruct (hit_counting P).
    + intros a' e' Hin' Hk'.
      by destruct (consistent_key_inj _ _ _ _ _ _ Hc Hin' Hin Hk').
  - by rewrite (length_list_unlink _ _ _ Hde).
Qed.

(** ** Inserting distinct keys into a fresh map *)

Lemma bind_run_snoc (x : outcome LruMap) ops o :
  x ≫= run P (ops ++ [o]) = (x ≫= run P ops) ≫= step P o.
Proof. destruct x as [m| |]; simpl; [apply run_snoc|done|done]. Qed.

Lemma run_inserts (c : Z) (kvs : list (Z * KeyType * ValueType)) :
  (1 ≤ c)%Z →
  NoDup (inserted_keys kvs) →
  (Z.of_nat (length kvs) ≤ INT64_MAX)%Z →
  ∃ m, LruMap_new c ≫= run P (insert_ops kvs) = Done m ∧ Inv m ∧
    capacity_ m = c ∧
    entry_keys (lru_list_ m) =
      reverse (drop (length kvs - Z.to_nat c) (inserted_keys kvs)) ∧
    lru_stats_ m =
      {| num_insert := Z.of_nat (length kvs);
         num_overflow := Z.of_nat (length kvs - Z.to_nat c);
         num_find := 0; num_find_ok := 0; num_erase := 0; num_clear := 0 |}.
Proof.
  intros Hc. induction kvs as [|[[now k] v] kvs IH] using rev_ind; intros Hnd Hlen.
  - rewrite (LruMap_new_Done c Hc). simpl. eexists. split; [done|].
    split; [by apply (Inv_new c), LruMap_new_Done|]. done.
  - unfold insert_ops, inserted_keys in *.
    rewrite fmap_app in Hnd. rewrite !fmap_app. rewrite length_app in Hlen.
    rewrite !length_app. simpl in *.
    apply NoDup_app in Hnd as (Hnd & Hk & _).
    destruct IH as (m & Hr & HI & Hcap & Hks & Hst); [done|lia|].
    rewrite bind_run_snoc, Hr. simpl.
    set (keys := (λ x : Z * KeyType * ValueType, x.1.2) <$> kvs) in *.
    assert (length keys = length kvs) as Hlk by apply length_fmap.
    assert (k ∉ entry_keys (lru_list_ m)) as Hnew.
    { rewrite Hks, elem_of_reverse. intros Hin%subseteq_drop.
      apply (Hk _ Hin). left. }
    assert (length (lru_list_ m) = length kvs - (length kvs - Z.to_nat c)) as Hll.
    { by rewrite <- length_entry_keys, Hks, length_reverse, length_drop, Hlk. }
    assert ((num_insert (lru_stats_ m) < INT64_MAX)%Z) as Hroom.
    { rewrite Hst. simpl. lia. }
    destruct (decide (length kvs < Z.to_nat c)) as [Hlt|Hge].
    + destruct (Insert_new_room m now k v HI Hnew) as (m' & Hd & HI' & Hcap' & Hks' & Hst');
        [lia|done|].
      exists m'. split; [done|]. split; [done|]. split; [congruence|].
      rewrite Hks', Hks, Hst', Hst. simpl.
      replace (length kvs + 1 - Z.to_nat c) with 0 by lia.
      replace (length kvs - Z.to_nat c) with 0 by lia.
      rewrite !drop_0, reverse_snoc. split; [done|]. f_equal. lia.
    + set (i := length kvs - Z.to_nat c) in *.
      assert (i < length keys) as Hi by lia.
      apply lookup_lt_is_Some_2 in Hi as [kold Hi].
      rewrite (drop_S _ _ _ Hi), reverse_cons in Hks.
      destruct (Insert_new_full m now k v _ _ HI Hnew Hks)
        as (m' & Hd & HI' & Hcap' & Hks' & _ & Hst'); [lia|done|].
      exists m'. split; [done|]. split; [done|]. split; [congruence|].
      rewrite Hks', Hst', Hst. simpl.
      replace (length kvs + 1 - Z.to_nat c) with (S i) by lia.
      rewrite drop_app_le by lia. rewrite reverse_snoc.
      split; [done|]. f_equal; lia.
Qed.

(** C2.  Into an empty map of capacity [c >= 1], distinct keys
    [k_0, k_1, ...] are inserted in order, [n >= c] of them, with no other
    calls; the next [Insert], of one more distinct key [k], overflows.  It
    evicts exactly [k_(n-c)]: that key was at the back of the sequence, it
    leaves the sequence (the other keys keep their order behind [k]) and the
    index (which otherwise only gains [k]), and [num_overflow] goes from
    [n - c] to [n - c + 1].  So the first overflow ([n = c]) evicts [k_0],
    the next one [k_1], and so on in the order of insertion. *)
Theorem eviction_order (c : Z) (kvs : list (Z * KeyType * ValueType))
    (now : Z) (k : KeyType) (v : ValueType) :
  (1 ≤ c)%Z →
  NoDup (inserted_keys kvs ++ [k]) →
  (c ≤ Z.of_nat (length kvs))%Z →
  (Z.of_nat (length kvs) < INT64_MAX)%Z →
  ∃ m m' kold,
    LruMap_new c ≫= run P (insert_ops kvs) = Done m ∧
    Insert P now k v m = Done m' ∧
    inserted_keys kvs !! (length kvs - Z.to_nat c) = Some kold ∧
    last (entry_keys (lru_list_ m)) = Some kold ∧
    entry_keys (lru_list_ m') = k :: removelast (entry_keys (lru_list_ m)) ∧
    (∀ k', Exists k' m' = true ↔ k' = k ∨ (Exists k' m = true ∧ k' ≠ kold)) ∧
    Size m = Done c ∧ Size m' = Done c ∧
    num_overflow (lru_stats_ m) = (Z.of_nat (length kvs) - c)%Z ∧
    num_overflow (lru_stats_ m') = (Z.of_nat (length kvs) - c + 1)%Z.
Proof.
  intros Hc Hnd Hge Hlen. apply NoDup_app in Hnd as (Hnd & Hk & _).
  destruct (run_inserts c kvs Hc Hnd) as (m & Hr & HI & Hcap & Hks & Hst); [lia|].
  assert (length (inserted_keys kvs) = length kvs) as Hlk by apply length_fmap.
  set (i := length kvs - Z.to_nat c) in *.
  assert (i < length (inserted_keys kvs)) as Hi by lia.
  apply lookup_lt_is_Some_2 in Hi as [kold Hi].
  rewrite (drop_S _ _ _ Hi), reverse_cons in Hks.
  assert (k ∉ entry_keys (lru_list_ m)) as Hnew.
  { rewrite Hks, <- reverse_cons, <- (drop_S _ _ _ Hi), elem_of_reverse.
    intros Hin%subseteq_drop. apply (Hk _ Hin). left. }
  assert (Z.of_nat (length (lru_list_ m)) = c) as Hfull.
  { rewrite <- length_entry_keys, Hks, length_app, length_reverse, length_drop.
    simpl. lia. }
  destruct (Insert_new_full m now k v _ _ HI Hnew Hks)
    as (m' & Hd & HI' & Hcap' & Hks' & Hkm' & Hst').
  { congruence. }
  { rewrite Hst. simpl. lia. }
  exists m, m', kold. split; [done|]. split; [done|]. split; [done|].
  rewrite Hks, Hks', last_snoc, removelast_last.
  split; [done|]. split; [done|]. split.
  { intros k'. rewrite !Exists_true, Hkm', lookup_delete.
    assert (k ≠ kold) as Hne.
    { intros ->. apply (Hk kold); [|left]. by eapply list_elem_of_lookup_2. }
    case_decide as Hko.
    - subst k'. split; [by intros [? ?]|]. intros [->|[_ ?]]; done.
    - rewrite lookup_insert. case_decide as Hkk.
      + subst k'. split; [by left|by eexists].
      + split; [by right|]. by intros [?|[? _]]. }
  rewrite (Size_Done _ HI), (Size_Done _ HI'), Hfull.
  rewrite <- !length_entry_keys, Hks', Hst', Hst in *. simpl.
  rewrite length_reverse, length_drop. split; [done|].
  split; [f_equal; lia|]. lia.
Qed.

Lemma filter_Forall_id {A} (Q : A → Prop) `{∀ x, Decision (Q x)} (xs : list A) :
  Forall Q xs → filter Q xs = xs.
Proof.
  induction 1 as [|x xs Hx Hxs IH]; [done|].
  by rewrite filter_cons_True, IH.
Qed.

(** C3.  Into an empty map of capacity [c >= 2], [c] distinct keys
    [k0, k1, ...] are inserted in order; then [Find(k0)] is called, and then
    one more distinct key [k] is inserted.  [Find(k0)] hits and moves [k0]
    from the back of the sequence to its front, and the [Insert] evicts
    [k1], not [k0]: afterwards [k0] is present, [k1] is not, and the
    sequence is [k], [k0] and then the other keys, newest first. *)
Theorem find_refreshes_recency (c : Z) (kvs : list (Z * KeyType * ValueType))
    (now1 now2 : Z) (k0 k1 : KeyType) (rest : list KeyType) (k : KeyType)
    (v : ValueType) :
  (2 ≤ c)%Z →
  Z.of_nat (length kvs) = c →
  inserted_keys kvs = k0 :: k1 :: rest →
  NoDup (inserted_keys kvs ++ [k]) →
  (c < INT64_MAX)%Z →
  ∃ m m1 v0 m2,
    LruMap_new c ≫= run P (insert_ops kvs) = Done m ∧
    Find P now1 k0 m = Done (m1, Some v0) ∧
    Insert P now2 k v m1 = Done m2 ∧
    last (entry_keys (lru_list_ m)) = Some k0 ∧
    entry_keys (lru_list_ m1) = k0 :: reverse (k1 :: rest) ∧
    entry_keys (lru_list_ m2) = k :: k0 :: reverse rest ∧
    Exists k0 m1 = true ∧ Exists k1 m1 = true ∧
    Exists k0 m2 = true ∧ Exists k1 m2 = false ∧
    num_overflow (lru_stats_ m1) = 0%Z ∧
    num_overflow (lru_stats_ m2) = 1%Z.
Proof.
  intros Hc Hlen Hkeys Hnd Hmax. apply NoDup_app in Hnd as (Hnd & Hk & _).
  destruct (run_inserts c kvs) as (m & Hr & HI & Hcap & Hks & Hst); [lia|done|lia|].
  replace (length kvs - Z.to_nat c) with 0 in Hks, Hst by lia.
  rewrite drop_0, Hkeys, reverse_cons in Hks.
  rewrite Hkeys in Hnd, Hk. apply NoDup_cons in Hnd as [Hk0 Hnd].
  destruct (Find_present m now1 k0 HI)
    as (m1 & v0 & Hf & HI1 & Hcap1 & Hks1 & Hlen1 & Hkm1 & Hst1).
  { rewrite Hks. apply elem_of_app. right. left. }
  { rewrite Hst. simpl. lia. }
  rewrite Hks, filter_app, filter_cons_False, filter_nil, app_nil_r in Hks1
    by (by intros Hn; apply Hn).
  rewrite filter_Forall_id in Hks1.
  2:{ apply Forall_forall. intros x Hx ->. by rewrite elem_of_reverse in Hx. }
  assert (k ∉ entry_keys (lru_list_ m1)) as Hnew.
  { rewrite Hks1. intros Hin. apply (Hk k); [|left].
    apply elem_of_cons in Hin as [->|Hin]; [left|].
    rewrite elem_of_reverse in Hin. by right. }
  rewrite reverse_cons, app_comm_cons in Hks1.
  destruct (Insert_new_full m1 now2 k v _ _ HI1 Hnew Hks1)
    as (m2 & Hd & HI2 & Hcap2 & Hks2 & Hkm2 & Hst2).
  { rewrite Hlen1, <- length_entry_keys, Hks, Hcap1, Hcap, <- Hlen.
    rewrite length_app, length_reverse, <- (length_fmap (λ x, x.1.2) kvs).
    fold (inserted_keys kvs). rewrite Hkeys. simpl. f_equal. lia. }
  { rewrite Hst1, Hst. simpl. lia. }
  exists m, m1, v0, m2. do 3 (split; [done|]).
  split; [by rewrite Hks, last_snoc|].
  split; [by rewrite Hks1, reverse_cons|]. split; [done|].
  rewrite !(Exists_entry_keys _ _ HI1), Hks1.
  rewrite (Exists_entry_keys _ _ HI2), Hks2, Hst2, Hst1, Hst. simpl.
  split; [left|].
  split; [apply elem_of_cons; right; apply elem_of_app; right; left|].
  split; [right; left|].
  split; [|done].
  apply not_true_iff_false. rewrite (Exists_entry_keys _ _ HI2), Hks2.
  apply NoDup_cons in Hnd as [Hk1 _].
  intros [->|[->|Hin]%elem_of_cons]%elem_of_cons.
  - apply (Hk k); [right; left|left].
  - apply Hk0. left.
  - by rewrite elem_of_reverse in Hin.
Qed.

(** The counters after a [Find], by its result. *)
Lemma Find_counts m now k m' r :
  Inv m → Find P now k m = Done (m', r) →
  lru_stats_ m' =
    {| num_insert := num_insert (lru_stats_ m);
       num_overflow := num_overflow (lru_stats_ m);
       num_find := num_find (lru_stats_ m) + 1;
       num_find_ok :=
         num_find_ok (lru_stats_ m) + match r with Some _ => 1 | None => 0 end;
       num_erase := num_erase (lru_stats_ m);
       num_clear := num_clear (lru_stats_ m) |} ∧
  (is_Some r ↔ Exists k m = true).
Proof.
  intros HI Hd. pose proof (Find_room _ _ _ _ Hd) as Hroom.
  pose proof HI as [Hcap Hc Hb _ _ _]. rewrite Exists_true.
  destruct (lru_key_map_ m !! k) as [it|] eqn:Hk.
  - destruct (consistent_lookup _ _ _ _ Hc Hk) as (e & _ & _ & Hin).
    rewrite (Find_hit _ _ _ _ _ HI Hk Hin Hroom) in Hd.
    injection Hd as <- <-. simpl. split; [done|]. split; by eexists.
  - rewrite (Find_miss _ _ _ Hk Hroom) in Hd.
    injection Hd as <- <-. simpl. split; [f_equal; lia|].
    split; by intros [? ?].
Qed.

(** C8.  Into an empty map of capacity 4, 8 distinct keys are inserted:
    [num_insert] is 8 and [num_overflow] is 4.  Three [Find] calls follow,
    and return; [num_find] is 3, and when two of them hit and one misses
    [num_find_ok] is 2.  [Clear()] then returns; [Size()] is 0, [num_clear]
    is one more than it was, and the other five counters are what they
    were. *)
Theorem stats_accuracy (kvs : list (Z * KeyType * ValueType))
    (t1 t2 t3 : Z) (f1 f2 f3 : KeyType) :
  length kvs = 8 →
  NoDup (inserted_keys kvs) →
  ∃ m8 m9 r1 m10 r2 m11 r3 m12,
    LruMap_new 4 ≫= run P (insert_ops kvs) = Done m8 ∧
    num_insert (lru_stats_ m8) = 8%Z ∧
    num_overflow (lru_stats_ m8) = 4%Z ∧
    Find P t1 f1 m8 = Done (m9, r1) ∧
    Find P t2 f2 m9 = Done (m10, r2) ∧
    Find P t3 f3 m10 = Done (m11, r3) ∧
    num_find (lru_stats_ m11) = 3%Z ∧
    (hits [r1; r2; r3] = 2 → num_find_ok (lru_stats_ m11) = 2%Z) ∧
    num_insert (lru_stats_ m11) = 8%Z ∧
    num_overflow (lru_stats_ m11) = 4%Z ∧
    Clear m11 = Done m12 ∧
    Size m12 = Done 0%Z ∧
    num_clear (lru_stats_ m12) = (num_clear (lru_stats_ m11) + 1)%Z ∧
    num_insert (lru_stats_ m12) = num_insert (lru_stats_ m11) ∧
    num_overflow (lru_stats_ m12) = num_overflow (lru_stats_ m11) ∧
    num_find (lru_stats_ m12) = num_find (lru_stats_ m11) ∧
    num_find_ok (lru_stats_ m12) = num_find_ok (lru_stats_ m11) ∧
    num_erase (lru_stats_ m12) = num_erase (lru_stats_ m11).
Proof.
  intros Hlen Hnd.
  assert (8 < INT64_MAX)%Z as Hmax by done.
  destruct (run_inserts 4 kvs) as (m8 & Hr & HI8 & _ & _ & Hst8);
    [lia|done|lia|].
  rewrite Hlen in Hst8. simpl in Hst8.
  destruct (Find_returns m8 t1 f1 HI8) as (m9 & r1 & Hf1).
  { rewrite Hst8. simpl. lia. }
  pose proof (Inv_Find _ _ _ _ _ HI8 Hf1) as HI9.
  destruct (Find_counts _ _ _ _ _ HI8 Hf1) as [Hst9 _].
  destruct (Find_returns m9 t2 f2 HI9) as (m10 & r2 & Hf2).
  { rewrite Hst9, Hst8. simpl. lia. }
  pose proof (Inv_Find _ _ _ _ _ HI9 Hf2) as HI10.
  destruct (Find_counts _ _ _ _ _ HI9 Hf2) as [Hst10 _].
  destruct (Find_returns m10 t3 f3 HI10) as (m11 & r3 & Hf3).
  { rewrite Hst10, Hst9, Hst8. simpl. lia. }
  pose proof (Inv_Find _ _ _ _ _ HI10 Hf3) as HI11.
  destruct (Find_counts _ _ _ _ _ HI10 Hf3) as [Hst11 _].
  assert (num_clear (lru_stats_ m11) < INT64_MAX)%Z as Hc.
  { rewrite Hst11, Hst10, Hst9, Hst8. simpl. lia. }
  assert (∃ m12, Clear m11 = Done m12 ∧ lru_list_ m12 = [] ∧
            lru_stats_ m12 =
              {| num_insert := num_insert (lru_stats_ m11);
                 num_overflow := num_overflow (lru_stats_ m11);
                 num_find := num_find (lru_stats_ m11);
                 num_find_ok := num_find_ok (lru_stats_ m11);
                 num_erase := num_erase (lru_stats_ m11);
                 num_clear := num_clear (lru_stats_ m11) + 1 |})
    as (m12 & Hcl & Hl12 & Hst12).
  { eexists. split; [by apply Clear_Done|]. done. }
  pose proof (Inv_Clear _ _ HI11 Hcl) as HI12.
  exists m8, m9, r1, m10, r2, m11, r3, m12.
  split; [done|]. rewrite Hst8 at 1 2. simpl.
  do 2 (split; [reflexivity|]). do 3 (split; [done|]).
  rewrite (Size_Done _ HI12), Hl12, Hst12. simpl.
  rewrite Hst11, Hst10, Hst9, Hst8. simpl.
  split; [done|]. split.
  { unfold hits. destruct r1, r2, r3; simpl; intros; lia. }
  do 2 (split; [reflexivity|]). do 2 (split; [done|]). by split.
Qed.

(** ** The timestamps along the sequence *)

Lemma Forall_sublist {A} (Q : A → Prop) (xs ys : list A) :
  xs `sublist_of` ys → Forall Q ys → Forall Q xs.
Proof.
  induction 1 as [|x xs ys _ IH|x xs ys _ IH]; intros Hys; [done|..].
  - apply Forall_cons in Hys as [Hx Hys]. constructor; [done|by apply IH].
  - apply Forall_cons in Hys as [_ Hys]. by apply IH.
Qed.

Lemma chronological_sublist l1 l2 :
  l1 `sublist_of` l2 → chronological l2 → chronological l1.
Proof.
  unfold chronological.
  induction 1 as [|x l1 l2 Hsub IH|x l1 l2 Hsub IH]; intros Hs; [done|..].
  - apply StronglySorted_inv in Hs as [Hs Hx].
    constructor; [by apply IH|]. by apply (Forall_sublist _ _ _ Hsub).
  - apply StronglySorted_inv in Hs as [Hs _]. by apply IH.
Qed.

Lemma chronological_front a e l t :
  chronological l → timestamps_upto t l → (t ≤ recent_usecs e)%Z →
  chronological ((a, e) :: l).
Proof.
  intros Hs Ht Hle. constructor; [done|].
  eapply Forall_impl; [exact Ht|]. simpl. intros x Hx. lia.
Qed.

Lemma timestamps_upto_mono t t' l :
  (t ≤ t')%Z → timestamps_upto t l → timestamps_upto t' l.
Proof.
  intros Hle Ht. eapply Forall_impl; [exact Ht|]. simpl. intros x Hx. lia.
Qed.

Lemma timestamps_upto_elem t l a e :
  timestamps_upto t l → (a, e) ∈ l → (recent_usecs e ≤ t)%Z.
Proof.
  unfold timestamps_upto. rewrite Forall_forall. intros Ht Hin.
  apply (Ht _ Hin).
Qed.

(** What [TimestampAll::Valid] computes. *)
Lemma TimestampAll_Valid_from_true prev l :
  chronological l → timestamps_upto prev l →
  TimestampAll_Valid_from prev l = true.
Proof.
  revert prev. induction l as [|[a e] l IH]; intros prev Hs Ht; simpl; [done|].
  apply StronglySorted_inv in Hs as [Hs Hx].
  apply Forall_cons in Ht as [He Ht]. simpl in He.
  fold (recent_usecs e).
  destruct (Z.ltb_spec prev (recent_usecs e)); [lia|].
  apply IH; [done|]. exact Hx.
Qed.

Section Timestamped.

Hypothesis HP : timestamping P = TimestampAll.

Lemma recent_modified now e :
  (access_time_usecs e ≤ now)%Z →
  recent_usecs (UpdateModifyTimestamp P now e) = now.
Proof.
  intros Ha. unfold UpdateModifyTimestamp, recent_usecs. rewrite HP. simpl. lia.
Qed.

Lemma recent_accessed now e :
  (modify_time_usecs e ≤ now)%Z →
  recent_usecs (UpdateAccessTimestamp P now e) = now.
Proof.
  intros Hm. unfold UpdateAccessTimestamp, recent_usecs. rewrite HP. simpl. lia.
Qed.

Lemma timed_front a e l t now :
  chronological l → timestamps_upto t l → (t ≤ now)%Z →
  recent_usecs e = now →
  chronological ((a, e) :: l) ∧ timestamps_upto now ((a, e) :: l).
Proof.
  intros Hs Ht Hle He. split.
  - apply (chronological_front _ _ _ t); [done..|lia].
  - constructor; [simpl; lia|]. by apply (timestamps_upto_mono t).
Qed.

Lemma timed_Insert m now k v m' t :
  Inv m → chronological (lru_list_ m) → timestamps_upto t (lru_list_ m) →
  (0 ≤ t ≤ now)%Z →
  Insert P now k v m = Done m' →
  chronological (lru_list_ m') ∧ timestamps_upto now (lru_list_ m').
Proof.
  intros HI Hs Ht Hle Hd. pose proof (Insert_room _ _ _ _ _ Hd) as Hroom.
  pose proof HI as [Hcap Hc Hb _ _ _].
  destruct (lru_key_map_ m !! k) as [it|] eqn:Hk.
  - destruct (consistent_lookup _ _ _ _ Hc Hk) as (e & _ & _ & Hin).
    rewrite (Insert_hit _ _ _ _ _ _ HI Hk Hin Hroom) in Hd.
    injection Hd as <-. simpl.
    pose proof (timestamps_upto_elem _ _ _ _ Ht Hin) as He.
    apply (timed_front _ _ _ t).
    + by apply (chronological_sublist _ _ (list_unlink_sublist _ _)).
    + by apply Forall_list_unlink.
    + lia.
    + apply recent_modified. unfold recent_usecs in He. simpl. lia.
  - assert (recent_usecs (UpdateModifyTimestamp P now (KeyValueT k v)) = now) as Hnew.
    { apply recent_modified. simpl. lia. }
    destruct (decide (Z.of_nat (length (lru_list_ m)) < capacity_ m)%Z) as [Hlt|Hge].
    + rewrite (Insert_miss_room _ _ _ _ HI Hk Hlt Hroom) in Hd.
      injection Hd as <-. simpl. apply (timed_front _ _ _ t); [done|done|lia|done].
    + assert (Z.of_nat (length (lru_list_ m)) = capacity_ m) as Hfull by lia.
      destruct (Inv_full_snoc _ HI Hfull) as (l0 & a & e & Hl).
      rewrite (Insert_miss_full _ _ _ _ _ _ _ HI Hk Hl Hfull Hroom) in Hd.
      injection Hd as <-. simpl. rewrite Hl in Hs, Ht.
      apply (timed_front _ _ _ t); [| |lia|done].
      * apply (chronological_sublist _ _ (sublist_inserts_r [(a, e)] _ _ (reflexivity l0)) Hs).
      * by apply Forall_app in Ht as [Ht _].
Qed.

Lemma timed_Find m now k m' r t :
  Inv m → chronological (lru_list_ m) → timestamps_upto t (lru_list_ m) →
  (0 ≤ t ≤ now)%Z →
  Find P now k m = Done (m', r) →
  chronological (lru_list_ m') ∧ timestamps_upto now (lru_list_ m').
Proof.
  intros HI Hs Ht Hle Hd. pose proof (Find_room _ _ _ _ Hd) as Hroom.
  pose proof HI as [Hcap Hc Hb _ _ _].
  destruct (lru_key_map_ m !! k) as [it|] eqn:Hk.
  - destruct (consistent_lookup _ _ _ _ Hc Hk) as (e & _ & _ & Hin).
    rewrite (Find_hit _ _ _ _ _ HI Hk Hin Hroom) in Hd.
    injection Hd as <- <-. simpl.
    pose proof (timestamps_upto_elem _ _ _ _ Ht Hin) as He.
    apply (timed_front _ _ _ t).
    + by apply (chronological_sublist _ _ (list_unlink_sublist _ _)).
    + by apply Forall_list_unlink.
    + lia.
    + apply recent_accessed. unfold recent_usecs in He.
      destruct (hit_counting P); simpl; lia.
  - rewrite (Find_miss _ _ _ Hk Hroom) in Hd. injection Hd as <- <-. simpl.
    split; [done|]. apply (timestamps_upto_mono t); [lia|done].
Qed.

Lemma timed_Erase m k m' t :
  Inv m → chronological (lru_list_ m) → timestamps_upto t (lru_list_ m) →
  Erase P k m = Done m' →
  chronological (lru_list_ m') ∧ timestamps_upto t (lru_list_ m').
Proof.
  intros HI Hs Ht Hd. pose proof (Erase_room _ _ _ Hd) as Hroom.
  pose proof HI as [Hcap Hc Hb _ _ _].
  destruct (lru_key_map_ m !! k) as [it|] eqn:Hk.
  - destruct (consistent_lookup _ _ _ _ Hc Hk) as (e & _ & _ & Hin).
    rewrite (Erase_hit _ _ _ _ HI Hk Hin Hroom) in Hd.
    injection Hd as <-. simpl. split.
    + by apply (chronological_sublist _ _ (list_unlink_sublist _ _)).
    + by apply Forall_list_unlink.
  - rewrite (Erase_miss _ _ Hk Hroom) in Hd. by injection Hd as <-.
Qed.

Lemma timed_step o m m' t :
  Inv m → chronological (lru_list_ m) → timestamps_upto t (lru_list_ m) →
  (0 ≤ t)%Z → clock_from t [o] →
  step P o m = Done m' →
  chronological (lru_list_ m') ∧ timestamps_upto (clock_after t o) (lru_list_ m').
Proof.
  intros HI Hs Ht Hle Hclock.
  destruct o as [now k v|now k|k|k|]; simpl in *; unfold clock_after; simpl.
  - intros Hd. apply (timed_Insert m now k v m' t); [done..|lia|done].
  - intros ([m1 r] & Hf & [= <-])%bind_Done.
    apply (timed_Find m now k m1 r t); [done..|lia|done].
  - by intros [= <-].
  - intros Hd. by apply (timed_Erase m k m' t).
  - intros Hd. pose proof (Clear_room _ _ Hd) as Hroom.
    rewrite (Clear_Done _ Hroom) in Hd. injection Hd as <-. simpl.
    split; constructor.
Qed.

Lemma timed_run ops m m' t :
  Inv m → chronological (lru_list_ m) → timestamps_upto t (lru_list_ m) →
  (0 ≤ t ≤ INT64_MAX)%Z → clock_from t ops →
  run P ops m = Done m' →
  ∃ t', (0 ≤ t' ≤ INT64_MAX)%Z ∧
    chronological (lru_list_ m') ∧ timestamps_upto t' (lru_list_ m').
Proof.
  revert m t. induction ops as [|o ops IH]; simpl; intros m t HI Hs Ht Hle Hclock.
  - intros [= <-]. by exists t.
  - intros (m1 & Hs1 & Hr)%bind_Done.
    assert (clock_from t [o] ∧ clock_from (clock_after t o) ops ∧
            (0 ≤ clock_after t o ≤ INT64_MAX)%Z) as (Ho & Hops & Hle').
    { unfold clock_after. simpl. destruct (op_clock o) as [now|]; simpl.
      - destruct Hclock as [Hnow Hops]. split; [done|]. split; [done|]. lia.
      - done. }
    destruct (timed_step o m m1 t HI Hs Ht) as [Hs' Ht']; [lia|done..|].
    apply (IH m1 (clock_after t o)); try done. by eapply Inv_step.
Qed.

End Timestamped.

(** The audit of the timestamps passes when the clock reads at or after the
    epoch.  A map is constructed with a capacity of at least 1 and [Insert],
    [Find], [Exists], [Erase] and [Clear] are called on it, with a clock
    that never reads before the epoch (no reading is negative) and never
    goes back (no reading is below the one of an earlier call).  The calls
    return, as long as the sequence is not longer than [INT64_MAX].  Under
    [TimestampAll], [Valid()] then returns true, and front to back the newer
    of the two timestamps of an entry does not increase.  Under
    [TimestampNone], [Valid()] returns true in every state ([m_any] is any
    state at all). *)
Theorem valid_audit (c : Z) (ops : list Op) (m_any : LruMap) :
  (1 ≤ c)%Z →
  clock_from 0 ops →
  ((Z.of_nat (length ops) ≤ INT64_MAX)%Z →
   ∃ m, LruMap_new c ≫= run P ops = Done m) ∧
  ∀ m, LruMap_new c ≫= run P ops = Done m →
    match timestamping P with
    | TimestampAll => Valid P m = true ∧ chronological (lru_list_ m)
    | TimestampNone => Valid P m_any = true
    end.
Proof.
  intros Hc Hclock. rewrite (LruMap_new_Done _ Hc). simpl.
  pose proof (Inv_new _ _ (LruMap_new_Done _ Hc)) as HI0. split.
  { intros Hlen. apply (run_returns _ _ 0%Z HI0); [|lia].
    unfold stats_upto. simpl. lia. }
  intros m Hr. destruct (timestamping P) eqn:HP.
  - unfold Valid, TimestampingPolicy_Valid. by rewrite HP.
  - destruct (timed_run HP ops _ m 0 HI0) as (t' & Hle & Hs & Ht); simpl.
    { constructor. }
    { constructor. }
    { unfold INT64_MAX. lia. }
    { done. }
    { done. }
    split; [|done].
    unfold Valid, TimestampingPolicy_Valid, TimestampAll_Valid. rewrite HP.
    apply TimestampAll_Valid_from_true; [done|].
    by apply (timestamps_upto_mono t'); [lia|].
Qed.

End Facts.

(** * The expectations of the repository's test

    [LruMapTest::Test] with capacity 4 and the values [5 * key]: after the
    keys 0 to 3 the size is 4 and all of them are found with their values;
    after the keys 4 to 7 the size is still 4, the keys 0 to 3 are gone and
    the keys 4 to 7 are there; [Valid()] holds at both points. *)
Example test_expectations :
  ∃ m4 m8,
    LruMap_new 4 ≫= run test_policies (insert_ops (take 4 test_inserts8)) = Done m4 ∧
    Size m4 = Done 4%Z ∧ Valid test_policies m4 = true ∧
    Forall (λ k, ∃ m', Find test_policies 9 k m4 = Done (m', Some (5 * k)%Z))
      [0; 1; 2; 3]%Z ∧
    LruMap_new 4 ≫= run test_policies (insert_ops test_inserts8) = Done m8 ∧
    Size m8 = Done 4%Z ∧ Valid test_policies m8 = true ∧
    Forall (λ k, Exists k m8 = false) [0; 1; 2; 3]%Z ∧
    Forall (λ k, Exists k m8 = true) [4; 5; 6; 7]%Z.
Proof.
  do 2 eexists. split; [vm_compute; reflexivity|].
  split; [vm_compute; reflexivity|]. split; [vm_compute; reflexivity|].
  split.
  { repeat constructor; eexists; vm_compute; reflexivity. }
  split; [vm_compute; reflexivity|].
  split; [vm_compute; reflexivity|]. split; [vm_compute; reflexivity|].
  split; repeat constructor.
Qed.

(** * The theorems at the instance of the test *)

Lemma structure_invariant_witness :
  (1 ≤ 2)%Z ∧
  (∀ (n : nat) (mn : @LruMap Z _ _ Z),
     LruMap_new 2 ≫= run test_policies (take n test_ops) = Done mn →
     capacity_ mn = 2%Z ∧
     length (lru_list_ mn) = size (lru_key_map_ mn) ∧
     (Z.of_nat (length (lru_list_ mn)) ≤ 2)%Z ∧
     index_resolves (lru_list_ mn) (lru_key_map_ mn)) ∧
  ((Z.of_nat (length test_ops) ≤ INT64_MAX)%Z →
   ∀ n : nat, ∃ mn,
     LruMap_new 2 ≫= run test_policies (take n test_ops) = Done mn).
Proof.
  assert (h1 : (1 ≤ 2)%Z) by lia.
  exact (conj h1 (structure_invariant test_policies 2 test_ops h1)).
Defined.

Lemma stats_invariant_witness :
  reachable test_policies test_state ∧
  (0 ≤ num_find_ok (lru_stats_ test_state) ≤ num_find (lru_stats_ test_state))%Z ∧
  (0 ≤ num_overflow (lru_stats_ test_state) ≤ num_insert (lru_stats_ test_state))%Z ∧
  ∀ o m', step test_policies o test_state = Done m' →
    (num_insert (lru_stats_ test_state) ≤ num_insert (lru_stats_ m'))%Z ∧
    (num_overflow (lru_stats_ test_state) ≤ num_overflow (lru_stats_ m'))%Z ∧
    (num_find (lru_stats_ test_state) ≤ num_find (lru_stats_ m'))%Z ∧
    (num_find_ok (lru_stats_ test_state) ≤ num_find_ok (lru_stats_ m'))%Z ∧
    (num_erase (lru_stats_ test_state) ≤ num_erase (lru_stats_ m'))%Z ∧
    (num_clear (lru_stats_ test_state) ≤ num_clear (lru_stats_ m'))%Z.
Proof.
  assert (h1 : reachable test_policies test_state)
    by (exists 2%Z, test_ops; vm_compute; reflexivity).
  exact (conj h1 (stats_invariant test_policies test_state h1)).
Defined.

Lemma miss_is_no_error_witness :
  reachable test_policies test_state ∧
  Exists 99%Z test_state = false ∧
  (num_find (lru_stats_ test_state) < INT64_MAX)%Z ∧
  (num_erase (lru_stats_ test_state) < INT64_MAX)%Z ∧
  (∃ m', Find test_policies 6 99%Z test_state = Done (m', None) ∧
     num_find (lru_stats_ m') = (num_find (lru_stats_ test_state) + 1)%Z ∧
     num_find_ok (lru_stats_ m') = num_find_ok (lru_stats_ test_state) ∧
     lru_list_ m' = lru_list_ test_state ∧
     lru_key_map_ m' = lru_key_map_ test_state) ∧
  (∃ m', Erase test_policies 99%Z test_state = Done m' ∧
     num_erase (lru_stats_ m') = (num_erase (lru_stats_ test_state) + 1)%Z ∧
     lru_list_ m' = lru_list_ test_state ∧
     lru_key_map_ m' = lru_key_map_ test_state).
Proof.
  assert (h1 : reachable test_policies test_state)
    by (exists 2%Z, test_ops; vm_compute; reflexivity).
  assert (h2 : Exists 99%Z test_state = false) by (vm_compute; reflexivity).
  assert (h3 : (num_find (lru_stats_ test_state) < INT64_MAX)%Z)
    by (vm_compute; reflexivity).
  assert (h4 : (num_erase (lru_stats_ test_state) < INT64_MAX)%Z)
    by (vm_compute; reflexivity).
  exact (conj h1 (conj h2 (conj h3 (conj h4
    (miss_is_no_error test_policies test_state 6 99%Z h1 h2 h3 h4))))).
Defined.

Lemma insert_find_erase_find_witness :
  reachable test_policies test_state ∧
  (num_insert (lru_stats_ test_state) < INT64_MAX)%Z ∧
  (num_find (lru_stats_ test_state) < INT64_MAX)%Z ∧
  (num_erase (lru_stats_ test_state) < INT64_MAX)%Z ∧
  (∃ m1 m2, Insert test_policies 6 30%Z 150%Z test_state = Done m1 ∧
     Find test_policies 7 30%Z m1 = Done (m2, Some 150%Z)) ∧
  (∃ m1 m2, Erase test_policies 30%Z test_state = Done m1 ∧
     Find test_policies 7 30%Z m1 = Done (m2, None)).
Proof.
  assert (h1 : reachable test_policies test_state)
    by (exists 2%Z, test_ops; vm_compute; reflexivity).
  assert (h2 : (num_insert (lru_stats_ test_state) < INT64_MAX)%Z)
    by (vm_compute; reflexivity).
  assert (h3 : (num_find (lru_stats_ test_state) < INT64_MAX)%Z)
    by (vm_compute; reflexivity).
  assert (h4 : (num_erase (lru_stats_ test_state) < INT64_MAX)%Z)
    by (vm_compute; reflexivity).
  exact (conj h1 (conj h2 (conj h3 (conj h4
    (insert_find_erase_find test_policies test_state 6 7 30%Z 150%Z
       h1 h2 h3 h4))))).
Defined.

Lemma insert_present_key_witness :
  reachable test_policies test_state ∧
  Exists 10%Z test_state = true ∧
  (num_insert (lru_stats_ test_state) < INT64_MAX)%Z ∧
  (num_find (lru_stats_ test_state) < INT64_MAX)%Z ∧
  ∃ m1 it e e' n,
    lru_key_map_ test_state !! 10%Z = Some it ∧
    (it, e) ∈ lru_list_ test_state ∧ key e = 10%Z ∧
    Insert test_policies 6 10%Z 2016%Z test_state = Done m1 ∧
    Size test_state = Done n ∧ Size m1 = Done n ∧
    lru_list_ m1 = (it, e') :: list_unlink it (lru_list_ test_state) ∧
    lru_list_ test_state ≡ₚ (it, e) :: list_unlink it (lru_list_ test_state) ∧
    key e' = 10%Z ∧ value e' = 2016%Z ∧
    (∃ m2, Find test_policies 7 10%Z m1 = Done (m2, Some 2016%Z)) ∧
    num_overflow (lru_stats_ m1) = num_overflow (lru_stats_ test_state) ∧
    lru_key_map_ m1 = lru_key_map_ test_state.
Proof.
  assert (h1 : reachable test_policies test_state)
    by (exists 2%Z, test_ops; vm_compute; reflexivity).
  assert (h2 : Exists 10%Z test_state = true) by (vm_compute; reflexivity).
  assert (h3 : (num_insert (lru_stats_ test_state) < INT64_MAX)%Z)
    by (vm_compute; reflexivity).
  assert (h4 : (num_find (lru_stats_ test_state) < INT64_MAX)%Z)
    by (vm_compute; reflexivity).
  exact (conj h1 (conj h2 (conj h3 (conj h4
    (insert_present_key test_policies test_state 6 7 10%Z 2016%Z
       h1 h2 h3 h4))))).
Defined.

Lemma insert_present_frame_witness :
  reachable test_policies test_state ∧
  lru_key_map_ test_state !! 10%Z = Some 1 ∧
  (1, test_entry) ∈ lru_list_ test_state ∧
  (num_insert (lru_stats_ test_state) < INT64_MAX)%Z ∧
  ∃ m1 e' l',
    Insert test_policies 6 10%Z 2016%Z test_state = Done m1 ∧
    lru_list_ m1 = (1, e') :: l' ∧
    lru_key_map_ m1 !! 10%Z = Some 1 ∧
    key e' = key test_entry ∧
    hit_count e' = hit_count test_entry ∧
    access_time_usecs e' = access_time_usecs test_entry ∧
    value e' = 2016%Z ∧
    modify_time_usecs e' = 6%Z ∧
    l' `sublist_of` lru_list_ test_state ∧
    ∀ x, x ∈ l' ↔ x ∈ lru_list_ test_state ∧ x.1 ≠ 1.
Proof.
  assert (h1 : reachable test_policies test_state)
    by (exists 2%Z, test_ops; vm_compute; reflexivity).
  assert (h2 : lru_key_map_ test_state !! 10%Z = Some 1)
    by (vm_compute; reflexivity).
  assert (h3 : (1, test_entry) ∈ lru_list_ test_state)
    by (simpl; apply list_elem_of_further, list_elem_of_here).
  assert (h4 : (num_insert (lru_stats_ test_state) < INT64_MAX)%Z)
    by (vm_compute; reflexivity).
  exact (conj h1 (conj h2 (conj h3 (conj h4
    (insert_present_frame test_policies test_state 6 10%Z 2016%Z 1 test_entry
       h1 h2 h3 h4))))).
Defined.

Lemma eviction_order_witness :
  (1 ≤ 2)%Z ∧
  NoDup (inserted_keys test_inserts3 ++ [40%Z]) ∧
  (2 ≤ Z.of_nat (length test_inserts3))%Z ∧
  (Z.of_nat (length test_inserts3) < INT64_MAX)%Z ∧
  ∃ m m' kold,
    LruMap_new 2 ≫= run test_policies (insert_ops test_inserts3) = Done m ∧
    Insert test_policies 4 40%Z 200%Z m = Done m' ∧
    inserted_keys test_inserts3 !! (length test_inserts3 - Z.to_nat 2) = Some kold ∧
    last (entry_keys (lru_list_ m)) = Some kold ∧
    entry_keys (lru_list_ m') = 40%Z :: removelast (entry_keys (lru_list_ m)) ∧
    (∀ k', Exists k' m' = true ↔ k' = 40%Z ∨ (Exists k' m = true ∧ k' ≠ kold)) ∧
    Size m = Done 2%Z ∧ Size m' = Done 2%Z ∧
    num_overflow (lru_stats_ m) = (Z.of_nat (length test_inserts3) - 2)%Z ∧
    num_overflow (lru_stats_ m') = (Z.of_nat (length test_inserts3) - 2 + 1)%Z.
Proof.
  assert (h1 : (1 ≤ 2)%Z) by lia.
  assert (h2 : NoDup (inserted_keys test_inserts3 ++ [40%Z]))
    by (apply (bool_decide_unpack _); vm_compute; exact I).
  assert (h3 : (2 ≤ Z.of_nat (length test_inserts3))%Z) by (simpl; lia).
  assert (h4 : (Z.of_nat (length test_inserts3) < INT64_MAX)%Z)
    by (vm_compute; reflexivity).
  exact (conj h1 (conj h2 (conj h3 (conj h4
    (eviction_order test_policies 2 test_inserts3 4 40%Z 200%Z
       h1 h2 h3 h4))))).
Defined.

Lemma find_refreshes_recency_witness :
  (2 ≤ 3)%Z ∧
  Z.of_nat (length test_inserts3) = 3%Z ∧
  inserted_keys test_inserts3 = 10%Z :: 20%Z :: [30%Z] ∧
  NoDup (inserted_keys test_inserts3 ++ [40%Z]) ∧
  (3 < INT64_MAX)%Z ∧
  ∃ m m1 v0 m2,
    LruMap_new 3 ≫= run test_policies (insert_ops test_inserts3) = Done m ∧
    Find test_policies 4 10%Z m = Done (m1, Some v0) ∧
    Insert test_policies 5 40%Z 200%Z m1 = Done m2 ∧
    last (entry_keys (lru_list_ m)) = Some 10%Z ∧
    entry_keys (lru_list_ m1) = 10%Z :: reverse (20%Z :: [30%Z]) ∧
    entry_keys (lru_list_ m2) = 40%Z :: 10%Z :: reverse [30%Z] ∧
    Exists 10%Z m1 = true ∧ Exists 20%Z m1 = true ∧
    Exists 10%Z m2 = true ∧ Exists 20%Z m2 = false ∧
    num_overflow (lru_stats_ m1) = 0%Z ∧
    num_overflow (lru_stats_ m2) = 1%Z.
Proof.
  assert (h1 : (2 ≤ 3)%Z) by lia.
  assert (h2 : Z.of_nat (length test_inserts3) = 3%Z) by reflexivity.
  assert (h3 : inserted_keys test_inserts3 = 10%Z :: 20%Z :: [30%Z])
    by reflexivity.
  assert (h4 : NoDup (inserted_keys test_inserts3 ++ [40%Z]))
    by (apply (bool_decide_unpack _); vm_compute; exact I).
  assert (h5 : (3 < INT64_MAX)%Z) by (vm_compute; reflexivity).
  exact (conj h1 (conj h2 (conj h3 (conj h4 (conj h5
    (find_refreshes_recency test_policies 3 test_inserts3 4 5
       10%Z 20%Z [30%Z] 40%Z 200%Z h1 h2 h3 h4 h5)))))).
Defined.

Lemma stats_accuracy_witness :
  length test_inserts8 = 8 ∧
  NoDup (inserted_keys test_inserts8) ∧
  ∃ m8 m9 r1 m10 r2 m11 r3 m12,
    LruMap_new 4 ≫= run test_policies (insert_ops test_inserts8) = Done m8 ∧
    num_insert (lru_stats_ m8) = 8%Z ∧
    num_overflow (lru_stats_ m8) = 4%Z ∧
    Find test_policies 9 7%Z m8 = Done (m9, r1) ∧
    Find test_policies 10 0%Z m9 = Done (m10, r2) ∧
    Find test_policies 11 5%Z m10 = Done (m11, r3) ∧
    num_find (lru_stats_ m11) = 3%Z ∧
    (hits [r1; r2; r3] = 2 → num_find_ok (lru_stats_ m11) = 2%Z) ∧
    num_insert (lru_stats_ m11) = 8%Z ∧
    num_overflow (lru_stats_ m11) = 4%Z ∧
    Clear m11 = Done m12 ∧
    Size m12 = Done 0%Z ∧
    num_clear (lru_stats_ m12) = (num_clear (lru_stats_ m11) + 1)%Z ∧
    num_insert (lru_stats_ m12) = num_insert (lru_stats_ m11) ∧
    num_overflow (lru_stats_ m12) = num_overflow (lru_stats_ m11) ∧
    num_find (lru_stats_ m12) = num_find (lru_stats_ m11) ∧
    num_find_ok (lru_stats_ m12) = num_find_ok (lru_stats_ m11) ∧
    num_erase (lru_stats_ m12) = num_erase (lru_stats_ m11).
Proof.
  assert (h1 : length test_inserts8 = 8) by reflexivity.
  assert (h2 : NoDup (inserted_keys test_inserts8))
    by (apply (bool_decide_unpack _); vm_compute; exact I).
  exact (conj h1 (conj h2
    (stats_accuracy test_policies test_inserts8 9 10 11 7%Z 0%Z 5%Z h1 h2))).
Defined.

Lemma valid_audit_witness :
  (1 ≤ 2)%Z ∧
  clock_from 0 test_ops ∧
  ((Z.of_nat (length test_ops) ≤ INT64_MAX)%Z →
   ∃ m, LruMap_new 2 ≫= run test_policies test_ops = Done m) ∧
  ∀ m, LruMap_new 2 ≫= run test_policies test_ops = Done m →
    Valid test_policies m = true ∧ chronological (lru_list_ m).
Proof.
  assert (h1 : (1 ≤ 2)%Z) by lia.
  assert (h2 : clock_from 0 test_ops) by (simpl; unfold INT64_MAX; lia).
  exact (conj h1 (conj h2
    (valid_audit test_policies 2 test_ops test_state h1 h2))).
Defined.

(** C6.  With [TimestampAll] and a clock that never goes back, [Valid()] is
    to return true after any calls; the comment on [TimestampAll::Valid]
    and the [CHECK(cache_.Valid())] of the test say so too.  It returns
    false when the system clock is set before the epoch: the readings -5,
    -3, -2 never go back, and after [Insert(1)], [Insert(2)] and [Find(1)]
    on a map of capacity 2 the sequence is in the order of last use, key 1
    (found at -2) in front of key 2 (inserted at -3).  The entry of key 2
    was never found and its access timestamp still is the 0 of the member
    initialiser, which the audit takes for a reading newer than -2.  With
    such a clock the test of the repository fails at a [CHECK] too. *)
Theorem valid_audit_before_epoch :
  timestamping test_policies = TimestampAll ∧
  clock_non_decreasing early_ops ∧
  (∃ m, LruMap_new 2 ≫= run test_policies early_ops = Done m ∧
     entries (lru_list_ m) =
       [ {| key := 1%Z; value := 10%Z; access_time_usecs := -2;
            modify_time_usecs := -5; hit_count := 1 |};
         {| key := 2%Z; value := 20%Z; access_time_usecs := 0;
            modify_time_usecs := -3; hit_count := 0 |} ] ∧
     Valid test_policies m = false) ∧
  (∀ i j : nat, i ≤ j → (early_clock i ≤ early_clock j)%Z) ∧
  LruMapTest_Test test_policies early_clock 4 = CheckFailed.
Proof.
  split; [reflexivity|]. split.
  { unfold clock_non_decreasing. simpl. unfold INT64_MIN, INT64_MAX. lia. }
  split.
  { eexists. split; [vm_compute; reflexivity|]. split; reflexivity. }
  split.
  - intros i j Hij. unfold early_clock. lia.
  - vm_compute. reflexivity.
Qed.

(** * Beyond the claims: what the operations do to the contents *)

Section Beyond.

Context {KeyType : Type} `{Countable KeyType} {ValueType : Type}.
Variable P : Policies.

Local Abbreviation KeyValueEntry := (@KeyValueEntry KeyType ValueType).
Local Abbreviation ItemList := (list (node * KeyValueEntry)).
Local Abbreviation LogLine := (@LogLine KeyType ValueType).
Local Abbreviation LruMap := (@LruMap KeyType _ _ ValueType).
Local Abbreviation Op := (@Op KeyType ValueType).

Implicit Types (l : ItemList) (km : gmap KeyType node) (m : LruMap).
Implicit Types (e : KeyValueEntry) (it a : node) (k : KeyType) (v : ValueType).

(** Reduces the projections of a state that is written out. *)
Local Ltac projections :=
  cbn [capacity_ lru_stats_ lru_list_ lru_key_map_ glog_
       num_insert num_overflow num_find num_find_ok num_erase num_clear].

Lemma contents_keys l : (contents l).*1 = entry_keys l.
Proof.
  unfold contents, entry_keys. rewrite <- list_fmap_compose.
  by apply list_fmap_ext.
Qed.

Lemma length_contents l : length (contents l) = length l.
Proof. unfold contents. by rewrite length_fmap. Qed.

Lemma contents_cons l a e :
  contents ((a, e) :: l) = (key e, value e) :: contents l.
Proof. done. Qed.

Lemma contents_snoc l a e :
  contents (l ++ [(a, e)]) = contents l ++ [(key e, value e)].
Proof. unfold contents. by rewrite fmap_app. Qed.

Lemma elem_of_contents l k v :
  (k, v) ∈ contents l ↔ ∃ a e, (a, e) ∈ l ∧ key e = k ∧ value e = v.
Proof.
  unfold contents. rewrite list_elem_of_fmap. split.
  - intros ([a e] & [= -> ->] & Hin). by exists a, e.
  - intros (a & e & Hin & <- & <-). by exists (a, e).
Qed.

Lemma contents_filter_absent l k :
  k ∉ entry_keys l → filter (λ kv, kv.1 ≠ k) (contents l) = contents l.
Proof.
  intros Hk. apply filter_Forall_id. apply Forall_forall.
  intros [k' v'] Hin Heq. simpl in Heq. subst k'. apply Hk.
  rewrite <- contents_keys. apply list_elem_of_fmap. by exists (k, v').
Qed.

Lemma contents_unlink it l e :
  NoDup l.*1 → (it, e) ∈ l →
  (∀ a' e', (a', e') ∈ l → key e' = key e → a' = it) →
  contents (list_unlink it l) = filter (λ kv, kv.1 ≠ key e) (contents l).
Proof.
  intros Hnd Hin Hu. unfold contents.
  induction l as [|[a e0] l IH]; simpl; [done|].
  simpl in Hnd. apply NoDup_cons in Hnd as [Ha Hnd].
  case_decide as Heq.
  - subst a. assert (e0 = e) as ->.
    { apply elem_of_cons in Hin as [[= ->]|Hin]; [done|].
      exfalso. apply Ha. apply list_elem_of_fmap. by exists (it, e). }
    rewrite filter_cons_False by (by intros Hn; apply Hn).
    symmetry. apply filter_Forall_id, Forall_forall.
    intros [k' v'] ([a' e'] & [= -> ->] & Hin')%list_elem_of_fmap Hk'.
    simpl in *. apply Ha. rewrite <- (Hu a' e'); [|by right|done].
    apply list_elem_of_fmap. by exists (a', e').
  - apply elem_of_cons in Hin as [[= -> ->]|Hin]; [done|].
    rewrite filter_cons_True.
    2:{ simpl. intros Hk. apply Heq. apply (Hu a e0); [left|done]. }
    simpl. f_equal. apply IH; [done..|].
    intros a' e' Hin'. apply Hu. by right.
Qed.

Lemma consistent_contents_unlink l km it e :
  consistent l km → (it, e) ∈ l →
  contents (list_unlink it l) = filter (λ kv, kv.1 ≠ key e) (contents l).
Proof.
  intros Hc Hin. pose proof Hc as (Hnd & _).
  apply contents_unlink; [done..|]. intros a' e' Hin' Hk'.
  by destruct (consistent_key_inj _ _ _ _ _ _ Hc Hin' Hin Hk').
Qed.

Lemma Exists_contents k m :
  Inv m → Exists k m = true ↔ k ∈ (contents (lru_list_ m)).*1.
Proof. intros HI. rewrite contents_keys. by apply Exists_entry_keys. Qed.

Lemma Exists_eq k m m' :
  Inv m → Inv m' →
  (k ∈ entry_keys (lru_list_ m') ↔ k ∈ entry_keys (lru_list_ m)) →
  Exists k m' = Exists k m.
Proof.
  intros HI HI' Hiff.
  pose proof (Exists_entry_keys k m HI) as H1.
  pose proof (Exists_entry_keys k m' HI') as H2.
  destruct (Exists k m), (Exists k m'); try done.
  - apply H2, Hiff, H1. done.
  - symmetry. apply H1, Hiff, H2. done.
Qed.

(** [Insert] on the keys and values of the sequence, with the counters. *)
Lemma Inv_Insert_contents m now k v :
  Inv m →
  (num_insert (lru_stats_ m) < INT64_MAX)%Z →
  ∃ m', Insert P now k v m = Done m' ∧
    contents (lru_list_ m') =
      take (Z.to_nat (capacity_ m))
        ((k, v) :: filter (λ kv, kv.1 ≠ k) (contents (lru_list_ m))) ∧
    lru_stats_ m' =
      {| num_insert := num_insert (lru_stats_ m) + 1;
         num_overflow :=
           num_overflow (lru_stats_ m) +
           (if bool_decide (Exists k m = false ∧
                            Z.of_nat (length (lru_list_ m)) = capacity_ m)
            then 1 else 0);
         num_find := num_find (lru_stats_ m);
         num_find_ok := num_find_ok (lru_stats_ m);
         num_erase := num_erase (lru_stats_ m);
         num_clear := num_clear (lru_stats_ m) |}.
Proof.
  intros HI Hroom. pose proof HI as [Hcap Hc Hb _ _ _].
  destruct (lru_key_map_ m !! k) as [it|] eqn:Hk.
  - destruct (consistent_lookup _ _ _ _ Hc Hk) as (e & Hde & Hke & Hin).
    eexists. split; [by apply (Insert_hit P m now k v it e)|]. projections.
    rewrite bool_decide_false.
    2:{ intros [Hex%Exists_false _]. congruence. }
    split; [|f_equal; lia].
    rewrite contents_cons.
    rewrite (consistent_contents_unlink _ _ _ e Hc Hin), Hke.
    rewrite key_UpdateModifyTimestamp. simpl. rewrite Hke.
    assert (value (UpdateModifyTimestamp P now (set_value v e)) = v) as ->.
    { unfold UpdateModifyTimestamp. by destruct (timestamping P). }
    rewrite take_ge; [done|]. simpl.
    pose proof (length_list_unlink _ _ _ Hde) as Hlen.
    rewrite <- Hke, <- (consistent_contents_unlink _ _ _ e Hc Hin).
    rewrite length_contents. lia.
  - assert (k ∉ entry_keys (lru_list_ m)) as Hnew
      by (by apply (consistent_lookup_None _ _ _ Hc)).
    rewrite (contents_filter_absent _ _ Hnew).
    assert (value (UpdateModifyTimestamp P now (KeyValueT k v)) = v) as Hv.
    { unfold UpdateModifyTimestamp. by destruct (timestamping P). }
    destruct (decide (Z.of_nat (length (lru_list_ m)) < capacity_ m)%Z) as [Hlt|Hge].
    + eexists. split; [by apply Insert_miss_room|]. projections.
      rewrite bool_decide_false by (intros [_ ?]; lia).
      split; [|f_equal; lia].
      rewrite contents_cons, key_UpdateModifyTimestamp, Hv. simpl.
      rewrite take_ge; [done|]. simpl. rewrite length_contents. lia.
    + assert (Z.of_nat (length (lru_list_ m)) = capacity_ m) as Hfull by lia.
      destruct (Inv_full_snoc _ HI Hfull) as (l0 & a & e & Hl).
      eexists. split; [by apply (Insert_miss_full P m now k v l0 a e)|]. projections.
      rewrite bool_decide_true by (by rewrite Exists_false).
      split; [|done].
      rewrite contents_cons, key_UpdateModifyTimestamp, Hv. simpl.
      rewrite Hl, contents_snoc, app_comm_cons.
      rewrite Hl, length_app in Hfull. simpl in Hfull.
      rewrite take_app_length'; [done|]. simpl. rewrite length_contents. lia.
Qed.

(** What [Insert] does to the keys and values of the sequence: the new pair
    goes to the front, an earlier pair of the key is dropped, and what does
    not fit into the capacity falls off the back.  [num_overflow] counts
    exactly the calls that insert an absent key into a full map. *)
Theorem Insert_contents (m : LruMap) (now : Z) (k : KeyType) (v : ValueType) :
  reachable P m →
  (num_insert (lru_stats_ m) < INT64_MAX)%Z →
  ∃ m', Insert P now k v m = Done m' ∧
    contents (lru_list_ m') =
      take (Z.to_nat (capacity_ m))
        ((k, v) :: filter (λ kv, kv.1 ≠ k) (contents (lru_list_ m))) ∧
    num_insert (lru_stats_ m') = (num_insert (lru_stats_ m) + 1)%Z ∧
    num_overflow (lru_stats_ m') =
      (num_overflow (lru_stats_ m) +
       if bool_decide (Exists k m = false ∧
                       Z.of_nat (length (lru_list_ m)) = capacity_ m)
       then 1 else 0)%Z.
Proof.
  intros HI%Inv_reachable Hroom.
  destruct (Inv_Insert_contents m now k v HI Hroom) as (m' & Hd & Hcont & Hst).
  exists m'. split; [done|]. split; [done|]. by rewrite Hst.
Qed.

(** [Find] on the keys and values of the sequence. *)
Lemma Inv_Find_contents m now k :
  Inv m →
  (num_find (lru_stats_ m) < INT64_MAX)%Z →
  ∃ m' r, Find P now k m = Done (m', r) ∧
    (∀ v, r = Some v ↔ (k, v) ∈ contents (lru_list_ m)) ∧
    (r = None ↔ Exists k m = false) ∧
    contents (lru_list_ m') =
      match r with
      | Some v => (k, v) :: filter (λ kv, kv.1 ≠ k) (contents (lru_list_ m))
      | None => contents (lru_list_ m)
      end ∧
    (∀ k', Exists k' m' = Exists k' m) ∧
    Size m' = Size m.
Proof.
  intros HI Hroom. pose proof HI as [Hcap Hc Hb _ _ _].
  destruct (lru_key_map_ m !! k) as [it|] eqn:Hk.
  - destruct (consistent_lookup _ _ _ _ Hc Hk) as (e & Hde & Hke & Hin).
    pose proof (Find_hit P m now k it e HI Hk Hin Hroom) as Hd. simpl in Hd.
    pose proof (Inv_Find P _ _ _ _ _ HI Hd) as HI'.
    do 2 eexists. split; [exact Hd|]. projections.
    assert (contents
              ((it, UpdateAccessTimestamp P now
                      match hit_counting P with
                      | HitCountDisabled => e
                      | HitCountEnabled => set_hit_count (hit_count e + 1) e
                      end) :: list_unlink it (lru_list_ m)) =
            (k, value e) :: filter (λ kv, kv.1 ≠ k) (contents (lru_list_ m)))
      as Hcont.
    { rewrite contents_cons.
      rewrite (consistent_contents_unlink _ _ _ e Hc Hin), Hke.
      rewrite key_UpdateAccessTimestamp. f_equal.
      unfold UpdateAccessTimestamp.
      destruct (timestamping P), (hit_counting P); simpl; by rewrite Hke. }
    split; [|split; [|split; [done|split]]].
    + intros v. split.
      * intros [= <-]. apply elem_of_contents. by exists it, e.
      * intros (a' & e' & Hin' & Hk' & <-)%elem_of_contents.
        rewrite <- Hke in Hk'.
        by destruct (consistent_key_inj _ _ _ _ _ _ Hc Hin' Hin Hk') as [_ ->].
    + split; [done|]. intros Hex%Exists_false. congruence.
    + intros k'. apply Exists_eq; [done..|]. projections.
      rewrite <- !contents_keys, Hcont. simpl.
      rewrite elem_of_cons, !list_elem_of_fmap. split.
      * intros [->|([k1 v1] & -> & [Hne Hin1]%list_elem_of_filter)].
        -- exists (k, value e). split; [done|].
           apply elem_of_contents. by exists it, e.
        -- by exists (k1, v1).
      * intros ([k1 v1] & -> & Hin1). simpl.
        destruct (decide (k1 = k)) as [->|Hne]; [by left|right].
        exists (k1, v1). split; [done|]. by apply list_elem_of_filter.
    + rewrite (Size_Done _ HI), (Size_Done _ HI'). projections. simpl.
      by rewrite (length_list_unlink _ _ _ Hde).
  - pose proof (Find_miss P m now k Hk Hroom) as Hd.
    do 2 eexists. split; [exact Hd|]. simpl.
    split; [|split; [|done]].
    + intros v. split; [done|].
      intros (a' & e' & Hin' & Hk' & _)%elem_of_contents.
      rewrite <- Hk' in Hk.
      by rewrite (consistent_elem_of _ _ _ _ Hc Hin') in Hk.
    + by rewrite Exists_false.
Qed.

(** What [Find] returns and does: it returns the value that the sequence
    holds for the key, and the absent indicator exactly when it holds none;
    on a hit the pair of the key moves to the front and nothing else moves;
    the keys that are present and [Size()] never change. *)
Theorem Find_contents (m : LruMap) (now : Z) (k : KeyType) :
  reachable P m →
  (num_find (lru_stats_ m) < INT64_MAX)%Z →
  ∃ m' r, Find P now k m = Done (m', r) ∧
    (∀ v, r = Some v ↔ (k, v) ∈ contents (lru_list_ m)) ∧
    (r = None ↔ Exists k m = false) ∧
    contents (lru_list_ m') =
      match r with
      | Some v => (k, v) :: filter (λ kv, kv.1 ≠ k) (contents (lru_list_ m))
      | None => contents (lru_list_ m)
      end ∧
    (∀ k', Exists k' m' = Exists k' m) ∧
    Size m' = Size m.
Proof.
  intros HI%Inv_reachable Hroom.
  destruct (Inv_Find_contents m now k HI Hroom) as (m' & r & Hd & Hrest).
  by exists m', r.
Qed.

(** [Erase] on the keys and values of the sequence. *)
Lemma Inv_Erase_contents m k :
  Inv m →
  (num_erase (lru_stats_ m) < INT64_MAX)%Z →
  ∃ m', Erase P k m = Done m' ∧
    contents (lru_list_ m') =
      filter (λ kv, kv.1 ≠ k) (contents (lru_list_ m)) ∧
    Exists k m' = false ∧
    (∀ k', k' ≠ k → Exists k' m' = Exists k' m) ∧
    Size m' =
      Done (Z.of_nat (length (lru_list_ m)) - if Exists k m then 1 else 0)%Z.
Proof.
  intros HI Hroom. pose proof HI as [Hcap Hc Hb _ _ _].
  destruct (lru_key_map_ m !! k) as [it|] eqn:Hk.
  - destruct (consistent_lookup _ _ _ _ Hc Hk) as (e & Hde & Hke & Hin).
    pose proof (Erase_hit P m k it e HI Hk Hin Hroom) as Hd.
    pose proof (Inv_Erase P _ _ _ HI Hd) as HI'.
    eexists. split; [exact Hd|].
    rewrite (Size_Done _ HI'). projections.
    assert (Exists k m = true) as -> by (apply Exists_true; by eexists).
    split; [by rewrite (consistent_contents_unlink _ _ _ e Hc Hin), Hke|].
    split; [apply Exists_false; simpl; apply lookup_delete_eq|].
    split.
    + intros k' Hne. unfold Exists. simpl. by rewrite lookup_delete_ne.
    + rewrite (length_list_unlink _ _ _ Hde). f_equal. lia.
  - pose proof (Erase_miss P m k Hk Hroom) as Hd.
    pose proof (Inv_Erase P _ _ _ HI Hd) as HI'.
    eexists. split; [exact Hd|].
    rewrite (Size_Done _ HI'). projections.
    assert (Exists k m = false) as -> by (by apply Exists_false).
    split.
    { symmetry. apply contents_filter_absent.
      by apply (consistent_lookup_None _ _ _ Hc). }
    split; [by apply Exists_false|]. split; [done|]. f_equal. lia.
Qed.

(** What [Erase] does: the pair of the key leaves the sequence, the other
    pairs stay where they are; afterwards the key is absent, and for every
    other key [Exists] answers what it answered before. *)
Theorem Erase_contents (m : LruMap) (k : KeyType) :
  reachable P m →
  (num_erase (lru_stats_ m) < INT64_MAX)%Z →
  ∃ m', Erase P k m = Done m' ∧
    contents (lru_list_ m') =
      filter (λ kv, kv.1 ≠ k) (contents (lru_list_ m)) ∧
    Exists k m' = false ∧
    (∀ k', k' ≠ k → Exists k' m' = Exists k' m) ∧
    Size m' =
      Done (Z.of_nat (length (lru_list_ m)) - if Exists k m then 1 else 0)%Z.
Proof.
  intros HI%Inv_reachable Hroom.
  destruct (Inv_Erase_contents m k HI Hroom) as (m' & Hd & Hrest).
  by exists m'.
Qed.

(** ** Keys, addresses and checks *)

(** No key is twice in the sequence and no two nodes have the same address;
    so [Size()] is the number of keys that are present. *)
Theorem keys_unique (m : LruMap) :
  reachable P m →
  NoDup (entry_keys (lru_list_ m)) ∧
  NoDup (lru_list_ m).*1 ∧
  Size m = Done (Z.of_nat (size (dom (lru_key_map_ m)))).
Proof.
  intros HI%Inv_reachable. pose proof HI as [_ Hc _ _ _ _].
  split; [by eapply consistent_NoDup_keys|].
  destruct Hc as (Hnd & Hsz & _). split; [done|].
  rewrite (Size_Done _ HI), size_dom. by rewrite Hsz.
Qed.

(** On a reachable state every call returns as long as the counters can be
    incremented: no [CHECK] or [DCHECK] of [Insert], [Find] or
    [SizePrivate] fails, and no iterator of the index is dangling.  [Size()]
    returns too. *)
Theorem calls_return (m : LruMap) (o : Op) :
  reachable P m →
  stats_room (lru_stats_ m) →
  (∃ m', step P o m = Done m') ∧
  Size m = Done (Z.of_nat (length (lru_list_ m))).
Proof.
  intros HI%Inv_reachable Hroom. split; [by apply step_returns|].
  by apply Size_Done.
Qed.

(** ** What the policies write into the entries *)

(** A property of entries that the constructor of an entry establishes and
    the writes of the operations keep holds for all entries after a call. *)
Lemma step_entries (Q : KeyValueEntry → Prop) o m m' :
  (∀ k v, Q (KeyValueT k v)) →
  (∀ v e, Q e → Q (set_value v e)) →
  (∀ now e, Q e → Q (UpdateModifyTimestamp P now e)) →
  (∀ now e, Q e → Q (UpdateAccessTimestamp P now e)) →
  (∀ e, Q e → Q (set_hit_count (hit_count e + 1) e) ∨
             hit_counting P = HitCountDisabled) →
  Inv m → Forall (λ ne, Q ne.2) (lru_list_ m) →
  step P o m = Done m' →
  Forall (λ ne, Q ne.2) (lru_list_ m').
Proof.
  intros Qnew Qval Qmod Qacc Qhit HI HQ Hs.
  pose proof HI as [Hcap Hc Hb _ _ _].
  destruct o as [now k v|now k|k|k|]; simpl in Hs.
  - pose proof (Insert_room _ _ _ _ _ _ Hs) as Hroom.
    destruct (lru_key_map_ m !! k) as [it|] eqn:Hk.
    + destruct (consistent_lookup _ _ _ _ Hc Hk) as (e & _ & _ & Hin).
      rewrite (Insert_hit P m now k v it e HI Hk Hin Hroom) in Hs.
      injection Hs as <-. projections.
      constructor; [|by apply Forall_list_unlink].
      rewrite Forall_forall in HQ. apply Qmod, Qval, (HQ _ Hin).
    + destruct (decide (Z.of_nat (length (lru_list_ m)) < capacity_ m)%Z) as [Hlt|Hge].
      * rewrite (Insert_miss_room P m now k v HI Hk Hlt Hroom) in Hs.
        injection Hs as <-. projections. constructor; [|done]. apply Qmod, Qnew.
      * assert (Z.of_nat (length (lru_list_ m)) = capacity_ m) as Hfull by lia.
        destruct (Inv_full_snoc _ HI Hfull) as (l0 & a & e & Hl).
        rewrite (Insert_miss_full P m now k v l0 a e HI Hk Hl Hfull Hroom) in Hs.
        injection Hs as <-. projections. rewrite Hl in HQ.
        apply Forall_app in HQ as [HQ _].
        constructor; [|done]. apply Qmod, Qnew.
  - apply bind_Done in Hs as ([m1 r] & Hf & [= <-]).
    pose proof (Find_room _ _ _ _ _ Hf) as Hroom.
    destruct (lru_key_map_ m !! k) as [it|] eqn:Hk.
    + destruct (consistent_lookup _ _ _ _ Hc Hk) as (e & _ & _ & Hin).
      rewrite (Find_hit P m now k it e HI Hk Hin Hroom) in Hf.
      injection Hf as <- _. projections.
      constructor; [|by apply Forall_list_unlink].
      rewrite Forall_forall in HQ. specialize (HQ _ Hin). simpl. apply Qacc.
      destruct (Qhit e HQ) as [Hq| ->]; [|done].
      by destruct (hit_counting P).
    + rewrite (Find_miss P m now k Hk Hroom) in Hf. by injection Hf as <- _.
  - by injection Hs as <-.
  - pose proof (Erase_room _ _ _ _ Hs) as Hroom.
    destruct (lru_key_map_ m !! k) as [it|] eqn:Hk.
    + destruct (consistent_lookup _ _ _ _ Hc Hk) as (e & _ & _ & Hin).
      rewrite (Erase_hit P m k it e HI Hk Hin Hroom) in Hs.
      injection Hs as <-. projections. by apply Forall_list_unlink.
    + rewrite (Erase_miss P m k Hk Hroom) in Hs. by injection Hs as <-.
  - pose proof (Clear_room _ _ Hs) as Hroom.
    rewrite (Clear_Done _ Hroom) in Hs. injection Hs as <-. constructor.
Qed.

Lemma run_entries (Q : KeyValueEntry → Prop) ops m m' :
  (∀ k v, Q (KeyValueT k v)) →
  (∀ v e, Q e → Q (set_value v e)) →
  (∀ now e, Q e → Q (UpdateModifyTimestamp P now e)) →
  (∀ now e, Q e → Q (UpdateAccessTimestamp P now e)) →
  (∀ e, Q e → Q (set_hit_count (hit_count e + 1) e) ∨
             hit_counting P = HitCountDisabled) →
  Inv m → Forall (λ ne, Q ne.2) (lru_list_ m) →
  run P ops m = Done m' →
  Forall (λ ne, Q ne.2) (lru_list_ m').
Proof.
  intros Qnew Qval Qmod Qacc Qhit. revert m.
  induction ops as [|o ops IH]; simpl; intros m HI HQ.
  - by intros [= <-].
  - intros (m1 & Hs & Hr)%bind_Done. apply (IH m1); [by eapply Inv_step| |done].
    by apply (step_entries Q o m m1).
Qed.

(** A policy that is disabled never writes its fields: under
    [TimestampNone] both timestamps of every entry are the initial 0, and
    under [HitCountDisabled] so is every hit counter. *)
Theorem disabled_policies_write_nothing (m : LruMap) :
  reachable P m →
  Forall (λ ne,
    (timestamping P = TimestampNone →
       access_time_usecs ne.2 = 0%Z ∧ modify_time_usecs ne.2 = 0%Z) ∧
    (hit_counting P = HitCountDisabled → hit_count ne.2 = 0%Z))
    (lru_list_ m).
Proof.
  intros (c & ops & (m0 & Hn & Hr)%bind_Done).
  pose proof (Inv_new _ _ Hn) as HI0. apply LruMap_new_inv in Hn as [_ ->].
  eapply (run_entries
    (λ e, (timestamping P = TimestampNone →
             access_time_usecs e = 0%Z ∧ modify_time_usecs e = 0%Z) ∧
          (hit_counting P = HitCountDisabled → hit_count e = 0%Z))
    ops); [| | | | |exact HI0|constructor|exact Hr].
  - done.
  - done.
  - intros now e HQ. unfold UpdateModifyTimestamp.
    destruct (timestamping P); [done|]. split; [done|apply HQ].
  - intros now e HQ. unfold UpdateAccessTimestamp.
    destruct (timestamping P); [done|]. split; [done|apply HQ].
  - intros e HQ. destruct (hit_counting P); [by right|left].
    split; [|done]. apply HQ.
Qed.

(** A hit of [Find] writes the entry it found and no other: under
    [HitCountEnabled] its hit counter goes up by one, under [TimestampAll]
    its access timestamp becomes the clock reading, and its key, its value
    and its modify timestamp are what they were; the node keeps its address
    and the other nodes are unchanged. *)
Theorem Find_hit_frame (m : LruMap) (now : Z) (k : KeyType) (it : node)
    (e : KeyValueEntry) :
  reachable P m →
  lru_key_map_ m !! k = Some it →
  (it, e) ∈ lru_list_ m →
  (num_find (lru_stats_ m) < INT64_MAX)%Z →
  ∃ m1 e' l',
    Find P now k m = Done (m1, Some (value e)) ∧
    lru_list_ m1 = (it, e') :: l' ∧
    lru_key_map_ m1 = lru_key_map_ m ∧
    key e' = key e ∧ value e' = value e ∧
    modify_time_usecs e' = modify_time_usecs e ∧
    hit_count e' =
      match hit_counting P with
      | HitCountDisabled => hit_count e
      | HitCountEnabled => (hit_count e + 1)%Z
      end ∧
    access_time_usecs e' =
      match timestamping P with
      | TimestampNone => access_time_usecs e
      | TimestampAll => now
      end ∧
    l' `sublist_of` lru_list_ m ∧
    ∀ x, x ∈ l' ↔ x ∈ lru_list_ m ∧ x.1 ≠ it.
Proof.
  intros HI%Inv_reachable Hk Hin Hroom.
  pose proof HI as [Hcap Hc Hb _ _ _]. pose proof Hc as (Hnd & _).
  pose proof (Find_hit P m now k it e HI Hk Hin Hroom) as Hd. simpl in Hd.
  do 3 eexists. split; [exact Hd|]. projections.
  split; [done|]. split; [done|].
  unfold UpdateAccessTimestamp.
  split; [by destruct (timestamping P), (hit_counting P)|].
  split; [by destruct (timestamping P), (hit_counting P)|].
  split; [by destruct (timestamping P), (hit_counting P)|].
  split; [by destruct (timestamping P), (hit_counting P)|].
  split; [by destruct (timestamping P), (hit_counting P)|].
  split; [apply list_unlink_sublist|].
  intros x. by apply elem_of_list_unlink.
Qed.

Lemma total_hits_perm l1 l2 : l1 ≡ₚ l2 → total_hits l1 = total_hits l2.
Proof.
  unfold total_hits.
  induction 1 as [|x l1 l2 _ IH|x y l|l1 l2 l3 _ IH1 _ IH2]; simpl;
    [done|by rewrite IH|lia|congruence].
Qed.

Lemma total_hits_app l1 l2 :
  total_hits (l1 ++ l2) = (total_hits l1 + total_hits l2)%Z.
Proof.
  unfold total_hits. induction l1 as [|x l1 IH]; simpl; [done|].
  rewrite IH. lia.
Qed.

Lemma total_hits_unlink it l e :
  list_deref it l = Done e →
  total_hits (list_unlink it l) = (total_hits l - hit_count e)%Z.
Proof.
  intros Hd. rewrite (total_hits_perm _ _ (list_unlink_perm _ _ _ Hd)).
  unfold total_hits. simpl. lia.
Qed.

Lemma total_hits_step o m m' :
  Inv m → (total_hits (lru_list_ m) ≤ num_find_ok (lru_stats_ m))%Z →
  step P o m = Done m' →
  (total_hits (lru_list_ m') ≤ num_find_ok (lru_stats_ m'))%Z.
Proof.
  intros HI Ht Hs. pose proof HI as [Hcap Hc Hb _ _ Hhits].
  rewrite Forall_forall in Hhits.
  destruct o as [now k v|now k|k|k|]; simpl in Hs.
  - pose proof (Insert_room _ _ _ _ _ _ Hs) as Hroom.
    destruct (lru_key_map_ m !! k) as [it|] eqn:Hk.
    + destruct (consistent_lookup _ _ _ _ Hc Hk) as (e & Hde & _ & Hin).
      rewrite (Insert_hit P m now k v it e HI Hk Hin Hroom) in Hs.
      injection Hs as <-. projections.
      change (total_hits ((it, ?x) :: ?l)) with (hit_count x + total_hits l)%Z.
      rewrite (total_hits_unlink _ _ _ Hde).
      unfold UpdateModifyTimestamp. destruct (timestamping P); simpl; lia.
    + assert (hit_count (UpdateModifyTimestamp P now (KeyValueT k v)) = 0%Z) as H0.
      { unfold UpdateModifyTimestamp. by destruct (timestamping P). }
      destruct (decide (Z.of_nat (length (lru_list_ m)) < capacity_ m)%Z) as [Hlt|Hge].
      * rewrite (Insert_miss_room P m now k v HI Hk Hlt Hroom) in Hs.
        injection Hs as <-. projections.
        change (total_hits ((?a, ?x) :: ?l)) with (hit_count x + total_hits l)%Z.
        lia.
      * assert (Z.of_nat (length (lru_list_ m)) = capacity_ m) as Hfull by lia.
        destruct (Inv_full_snoc _ HI Hfull) as (l0 & a & e & Hl).
        rewrite (Insert_miss_full P m now k v l0 a e HI Hk Hl Hfull Hroom) in Hs.
        injection Hs as <-. projections.
        change (total_hits ((?a, ?x) :: ?l)) with (hit_count x + total_hits l)%Z.
        assert ((a, e) ∈ lru_list_ m) as Hin
          by (rewrite Hl; apply elem_of_app; right; left).
        specialize (Hhits _ Hin). simpl in Hhits.
        rewrite Hl, total_hits_app in Ht. unfold total_hits at 2 in Ht.
        simpl in Ht. lia.
  - apply bind_Done in Hs as ([m1 r] & Hf & [= <-]).
    pose proof (Find_room _ _ _ _ _ Hf) as Hroom.
    destruct (lru_key_map_ m !! k) as [it|] eqn:Hk.
    + destruct (consistent_lookup _ _ _ _ Hc Hk) as (e & Hde & _ & Hin).
      rewrite (Find_hit P m now k it e HI Hk Hin Hroom) in Hf.
      injection Hf as <- _. projections.
      change (total_hits ((it, ?x) :: ?l)) with (hit_count x + total_hits l)%Z.
      rewrite (total_hits_unlink _ _ _ Hde).
      unfold UpdateAccessTimestamp.
      destruct (timestamping P), (hit_counting P); simpl; lia.
    + rewrite (Find_miss P m now k Hk Hroom) in Hf. by injection Hf as <- _.
  - by injection Hs as <-.
  - pose proof (Erase_room _ _ _ _ Hs) as Hroom.
    destruct (lru_key_map_ m !! k) as [it|] eqn:Hk.
    + destruct (consistent_lookup _ _ _ _ Hc Hk) as (e & Hde & _ & Hin).
      rewrite (Erase_hit P m k it e HI Hk Hin Hroom) in Hs.
      injection Hs as <-. projections.
      rewrite (total_hits_unlink _ _ _ Hde).
      specialize (Hhits _ Hin). simpl in Hhits. lia.
    + rewrite (Erase_miss P m k Hk Hroom) in Hs. by injection Hs as <-.
  - pose proof (Clear_room _ _ Hs) as Hroom.
    rewrite (Clear_Done _ Hroom) in Hs. injection Hs as <-. projections.
    pose proof HI as [_ _ _ [Hok _] _ _]. unfold total_hits. simpl. lia.
Qed.

Lemma total_hits_run ops m m' :
  Inv m → (total_hits (lru_list_ m) ≤ num_find_ok (lru_stats_ m))%Z →
  run P ops m = Done m' →
  (total_hits (lru_list_ m') ≤ num_find_ok (lru_stats_ m'))%Z.
Proof.
  revert m. induction ops as [|o ops IH]; simpl; intros m HI Ht.
  - by intros [= <-].
  - intros (m1 & Hs & Hr)%bind_Done. apply (IH m1); [by eapply Inv_step| |done].
    by apply (total_hits_step o m).
Qed.

(** The hit counters account for the hits: no hit counter is negative, and
    the hit counters of the entries that are in the map add up to at most
    [num_find_ok], the number of [Find] calls that hit. *)
Theorem hit_counts_accounted (m : LruMap) :
  reachable P m →
  Forall (λ ne, (0 ≤ hit_count ne.2)%Z) (lru_list_ m) ∧
  (0 ≤ total_hits (lru_list_ m) ≤ num_find_ok (lru_stats_ m))%Z.
Proof.
  intros Hreach. pose proof (Inv_reachable _ _ Hreach) as [_ _ _ _ _ Hhits].
  assert (Forall (λ ne, (0 ≤ hit_count ne.2)%Z) (lru_list_ m)) as Hpos.
  { eapply Forall_impl; [exact Hhits|]. simpl. intros x Hx. lia. }
  split; [done|]. split.
  { clear Hhits. unfold total_hits.
    induction Hpos as [|x l Hx _ IH]; simpl; lia. }
  destruct Hreach as (c & ops & (m0 & Hn & Hr)%bind_Done).
  pose proof (Inv_new _ _ Hn) as HI0. apply LruMap_new_inv in Hn as [_ ->].
  by apply (total_hits_run ops _ m HI0).
Qed.

(** ** The audit of the timestamps *)

Lemma TimestampAll_Valid_from_exact prev l :
  TimestampAll_Valid_from prev l = true ↔
  chronological l ∧ timestamps_upto prev l.
Proof.
  split; [|by intros [? ?]; apply TimestampAll_Valid_from_true].
  revert prev. induction l as [|[a e] l IH]; intros prev; simpl.
  - intros _. split; constructor.
  - fold (recent_usecs e).
    destruct (Z.ltb_spec prev (recent_usecs e)); [done|].
    intros [Hs Ht]%IH. split.
    + by constructor.
    + constructor; [done|]. by apply (timestamps_upto_mono (recent_usecs e)).
Qed.

(** [TimestampAll::Valid] is exact: it returns true when, and only when,
    front to back the newer of the two timestamps of an entry never
    increases (and is an [int64_t] value).  So it returns false on every
    sequence in which some entry is newer than one in front of it. *)
Theorem TimestampAll_Valid_exact (l : ItemList) :
  TimestampAll_Valid l = true ↔
  chronological l ∧ timestamps_upto INT64_MAX l.
Proof. apply TimestampAll_Valid_from_exact. Qed.

(** ** The log *)

Lemma count_event_Log (event event' : string) e (g : list LogLine) :
  count_event event (Log event' e g) =
  count_event event g + (if decide (event' = event) then 1 else 0).
Proof.
  unfold count_event, Log. rewrite filter_app, length_app. f_equal.
  destruct (decide (event' = event)) as [Heq|Hne].
  - rewrite filter_cons_True; [done|]. simpl. by rewrite Heq.
  - rewrite filter_cons_False; [done|]. simpl. congruence.
Qed.

Lemma length_Log (event : string) e (g : list LogLine) :
  length (Log event e g) = S (length g).
Proof. unfold Log. rewrite length_app. simpl. lia. Qed.

Lemma prefix_Log (event : string) e (g0 g : list LogLine) :
  g0 `prefix_of` g → g0 `prefix_of` Log event e g.
Proof. apply prefix_app_r. Qed.

(** A step of the account: the log is as it was, or has new lines at its
    end, counted with the counters. *)
Local Ltac log_lines Hg :=
  first
    [ done
    | destruct Hg as [? Hg]; split; [by repeat apply prefix_Log|];
      rewrite ?count_event_Log, ?length_Log;
      repeat case_decide; simplify_eq; lia ].

Lemma log_accounted_step o m m' :
  Inv m → log_accounted P m → step P o m = Done m' → log_accounted P m'.
Proof.
  intros HI Hg Hs. pose proof HI as [Hcap Hc Hb _ _ _].
  destruct o as [now k v|now k|k|k|]; simpl in Hs.
  - pose proof (Insert_room _ _ _ _ _ _ Hs) as Hroom.
    destruct (lru_key_map_ m !! k) as [it|] eqn:Hk.
    + destruct (consistent_lookup _ _ _ _ Hc Hk) as (e & Hde & _ & Hin).
      rewrite (Insert_hit P m now k v it e HI Hk Hin Hroom) in Hs.
      injection Hs as <-. unfold log_accounted in *. projections.
      unfold LogInsert. destruct (logging P); log_lines Hg.
    + destruct (decide (Z.of_nat (length (lru_list_ m)) < capacity_ m)%Z) as [Hlt|Hge].
      * rewrite (Insert_miss_room P m now k v HI Hk Hlt Hroom) in Hs.
        injection Hs as <-. unfold log_accounted in *. projections.
        unfold LogInsert. destruct (logging P); log_lines Hg.
      * assert (Z.of_nat (length (lru_list_ m)) = capacity_ m) as Hfull by lia.
        destruct (Inv_full_snoc _ HI Hfull) as (l0 & a & e & Hl).
        rewrite (Insert_miss_full P m now k v l0 a e HI Hk Hl Hfull Hroom) in Hs.
        injection Hs as <-. unfold log_accounted in *. projections.
        unfold LogInsert, LogOverflow. destruct (logging P); log_lines Hg.
  - apply bind_Done in Hs as ([m1 r] & Hf & [= <-]).
    pose proof (Find_room _ _ _ _ _ Hf) as Hroom.
    destruct (lru_key_map_ m !! k) as [it|] eqn:Hk.
    + destruct (consistent_lookup _ _ _ _ Hc Hk) as (e & Hde & _ & Hin).
      rewrite (Find_hit P m now k it e HI Hk Hin Hroom) in Hf.
      injection Hf as <- _. unfold log_accounted in *. projections.
      unfold LogFind. destruct (logging P); log_lines Hg.
    + rewrite (Find_miss P m now k Hk Hroom) in Hf. injection Hf as <- _.
      unfold log_accounted in *. projections. by destruct (logging P).
  - by injection Hs as <-.
  - pose proof (Erase_room _ _ _ _ Hs) as Hroom.
    destruct (lru_key_map_ m !! k) as [it|] eqn:Hk.
    + destruct (consistent_lookup _ _ _ _ Hc Hk) as (e & Hde & _ & Hin).
      rewrite (Erase_hit P m k it e HI Hk Hin Hroom) in Hs.
      injection Hs as <-. unfold log_accounted in *. projections.
      unfold LogErase. destruct (logging P); log_lines Hg.
    + rewrite (Erase_miss P m k Hk Hroom) in Hs. injection Hs as <-.
      unfold log_accounted in *. projections.
      destruct (logging P); log_lines Hg.
  - pose proof (Clear_room _ _ Hs) as Hroom.
    rewrite (Clear_Done _ Hroom) in Hs. injection Hs as <-.
    unfold log_accounted in *. projections. by destruct (logging P).
Qed.

Lemma log_accounted_run ops m m' :
  Inv m → log_accounted P m → run P ops m = Done m' → log_accounted P m'.
Proof.
  revert m. induction ops as [|o ops IH]; simpl; intros m HI Hg.
  - by intros [= <-].
  - intros (m1 & Hs & Hr)%bind_Done. apply (IH m1); [by eapply Inv_step| |done].
    by apply (log_accounted_step o m).
Qed.

(** The log accounts for the life of a map.  Under every logging policy it
    starts with the two lines of the constructor.  Under [LogEventNone]
    nothing else is ever logged.  Under [LogEventOverflow] the log has
    besides one line for each overflow and no other line.  Under
    [LogEventAll] it has besides one "Insert" line for each [Insert], one
    "Overflow" line for each overflow, one "Find" line for each [Find] that
    hit, at most one "Erase" line for each [Erase], and no other line. *)
Theorem log_accounts (m : LruMap) :
  reachable P m →
  match logging P with
  | LogEventNone => glog_ m = [LogSizeOfTypes; LogSizeOfMembers]
  | LogEventOverflow =>
      [LogSizeOfTypes; LogSizeOfMembers] `prefix_of` glog_ m ∧
      Z.of_nat (count_event "Overflow" (glog_ m)) = num_overflow (lru_stats_ m) ∧
      length (glog_ m) = 2 + count_event "Overflow" (glog_ m)
  | LogEventAll =>
      [LogSizeOfTypes; LogSizeOfMembers] `prefix_of` glog_ m ∧
      Z.of_nat (count_event "Insert" (glog_ m)) = num_insert (lru_stats_ m) ∧
      Z.of_nat (count_event "Overflow" (glog_ m)) = num_overflow (lru_stats_ m) ∧
      Z.of_nat (count_event "Find" (glog_ m)) = num_find_ok (lru_stats_ m) ∧
      (Z.of_nat (count_event "Erase" (glog_ m)) ≤ num_erase (lru_stats_ m))%Z ∧
      length (glog_ m) =
        2 + count_event "Insert" (glog_ m) + count_event "Overflow" (glog_ m) +
        count_event "Find" (glog_ m) + count_event "Erase" (glog_ m)
  end.
Proof.
  intros (c & ops & (m0 & Hn & Hr)%bind_Done).
  pose proof (Inv_new _ _ Hn) as HI0. apply LruMap_new_inv in Hn as [_ ->].
  apply (log_accounted_run ops _ m HI0); [|done].
  unfold log_accounted. simpl. destruct (logging P); [done|by split..].
Qed.

End Beyond.
(** * Beyond the claims: the policies and the clock do not steer the engine *)

Section TwoPolicies.

Context {KeyType : Type} `{Countable KeyType} {ValueType : Type}.
Variables P1 P2 : Policies.

Local Abbreviation KeyValueEntry := (@KeyValueEntry KeyType ValueType).
Local Abbreviation ItemList := (list (node * KeyValueEntry)).
Local Abbreviation LruMap := (@LruMap KeyType _ _ ValueType).
Local Abbreviation Op := (@Op KeyType ValueType).

Implicit Types (l : ItemList) (m : LruMap) (e : KeyValueEntry).
Implicit Types (k : KeyType) (v : ValueType).

Local Ltac projections :=
  cbn [capacity_ lru_stats_ lru_list_ lru_key_map_ glog_
       num_insert num_overflow num_find num_find_ok num_erase num_clear].

Lemma same_content_length m1 m2 :
  same_content m1 m2 → length (lru_list_ m1) = length (lru_list_ m2).
Proof.
  intros [_ Hcont]. apply (f_equal length) in Hcont.
  by rewrite !length_contents in Hcont.
Qed.

Lemma same_content_Exists k m1 m2 :
  Inv m1 → Inv m2 → same_content m1 m2 → Exists k m1 = Exists k m2.
Proof.
  intros HI1 HI2 [_ Hcont]. apply Exists_eq; [done..|].
  by rewrite <- !contents_keys, Hcont.
Qed.

(** The result of a lookup is fixed by the pairs of the map. *)
Lemma same_result k (L : list (KeyType * ValueType)) (r1 r2 : option ValueType) :
  (∀ v, r1 = Some v ↔ (k, v) ∈ L) → (∀ v, r2 = Some v ↔ (k, v) ∈ L) →
  r1 = r2.
Proof.
  intros H1 H2. destruct r1 as [v1|], r2 as [v2|]; [| | |done].
  - symmetry. by apply H2, H1.
  - symmetry. by apply H2, H1.
  - by apply H1, H2.
Qed.

Lemma Erase_counts (P : Policies) m k m' :
  Inv m → Erase P k m = Done m' →
  lru_stats_ m' =
    {| num_insert := num_insert (lru_stats_ m);
       num_overflow := num_overflow (lru_stats_ m);
       num_find := num_find (lru_stats_ m);
       num_find_ok := num_find_ok (lru_stats_ m);
       num_erase := num_erase (lru_stats_ m) + 1;
       num_clear := num_clear (lru_stats_ m) |}.
Proof.
  intros HI Hd. pose proof (Erase_room _ _ _ _ Hd) as Hroom.
  pose proof HI as [_ Hc _ _ _ _].
  destruct (lru_key_map_ m !! k) as [it|] eqn:Hk.
  - destruct (consistent_lookup _ _ _ _ Hc Hk) as (e & _ & _ & Hin).
    rewrite (Erase_hit P m k it e HI Hk Hin Hroom) in Hd. by injection Hd as <-.
  - rewrite (Erase_miss P m k Hk Hroom) in Hd. by injection Hd as <-.
Qed.

(** One call on two maps with the same pairs, under two sets of policies
    and with two clock readings.  The nodes of the two maps may lie at
    different addresses. *)
Lemma step_simulation o1 o2 m1 m2 m1' :
  Inv m1 → Inv m2 → same_content m1 m2 →
  forget_clock o1 = forget_clock o2 →
  stats_le (lru_stats_ m2) (lru_stats_ m1) →
  step P1 o1 m1 = Done m1' →
  ∃ m2', step P2 o2 m2 = Done m2' ∧ same_content m1' m2' ∧
    stats_diff (lru_stats_ m1') (lru_stats_ m2') =
    stats_diff (lru_stats_ m1) (lru_stats_ m2).
Proof.
  intros HI1 HI2 Hsame Ho Hle Hs.
  pose proof (same_content_length _ _ Hsame) as Hlen.
  pose proof Hsame as [Hcap Hcont].
  unfold stats_le in Hle.
  destruct o1 as [now1 k v|now1 k|k|k|], o2 as [now2 k2 v2|now2 k2|k2|k2|];
    simpl in Ho; try discriminate; simplify_eq; simpl in Hs; simpl.
  - pose proof (Insert_room _ _ _ _ _ _ Hs) as Hroom1.
    assert (num_insert (lru_stats_ m2) < INT64_MAX)%Z as Hroom2 by lia.
    destruct (Inv_Insert_contents P1 m1 now1 k2 v2 HI1 Hroom1)
      as (m1x & Hd1 & Hc1 & Hst1).
    assert (m1x = m1') as -> by congruence.
    destruct (Inv_Insert_contents P2 m2 now2 k2 v2 HI2 Hroom2)
      as (m2' & Hd2 & Hc2 & Hst2).
    exists m2'. split; [done|]. split.
    + split; [|by rewrite Hc1, Hc2, Hcap, Hcont].
      destruct (Insert_frame P1 _ _ _ _ _ HI1 Hd1) as [-> _].
      by destruct (Insert_frame P2 _ _ _ _ _ HI2 Hd2) as [-> _].
    + rewrite Hst1, Hst2.
      rewrite (same_content_Exists k2 m1 m2 HI1 HI2 Hsame), Hlen, Hcap.
      unfold stats_diff. projections. f_equal; lia.
  - apply bind_Done in Hs as ([m1x r1] & Hf & [= <-]).
    pose proof (Find_room _ _ _ _ _ Hf) as Hroom1.
    assert (num_find (lru_stats_ m2) < INT64_MAX)%Z as Hroom2 by lia.
    destruct (Inv_Find_contents P1 m1 now1 k2 HI1 Hroom1)
      as (m1y & r1' & Hd1 & Hr1 & _ & Hc1 & _).
    rewrite Hf in Hd1. injection Hd1 as <- <-.
    destruct (Inv_Find_contents P2 m2 now2 k2 HI2 Hroom2)
      as (m2' & r2 & Hd2 & Hr2 & _ & Hc2 & _).
    rewrite <- Hcont in Hr2, Hc2.
    assert (r2 = r1) as -> by exact (same_result k2 _ _ _ Hr2 Hr1).
    rewrite Hd2. simpl. exists m2'. split; [done|]. split.
    + split; [|by rewrite Hc1, Hc2].
      destruct (Find_frame P1 _ _ _ _ _ HI1 Hf) as [-> _].
      by destruct (Find_frame P2 _ _ _ _ _ HI2 Hd2) as [-> _].
    + destruct (Find_counts P1 _ _ _ _ _ HI1 Hf) as [-> _].
      destruct (Find_counts P2 _ _ _ _ _ HI2 Hd2) as [-> _].
      unfold stats_diff. projections. f_equal; lia.
  - injection Hs as <-. exists m2. by split.
  - pose proof (Erase_room _ _ _ _ Hs) as Hroom1.
    assert (num_erase (lru_stats_ m2) < INT64_MAX)%Z as Hroom2 by lia.
    destruct (Inv_Erase_contents P1 m1 k2 HI1 Hroom1) as (m1x & Hd1 & Hc1 & _).
    assert (m1x = m1') as -> by congruence.
    destruct (Inv_Erase_contents P2 m2 k2 HI2 Hroom2) as (m2' & Hd2 & Hc2 & _).
    exists m2'. split; [done|]. split.
    + split; [|by rewrite Hc1, Hc2, Hcont].
      destruct (Erase_frame P1 _ _ _ HI1 Hd1) as [-> _].
      by destruct (Erase_frame P2 _ _ _ HI2 Hd2) as [-> _].
    + rewrite (Erase_counts P1 _ _ _ HI1 Hd1), (Erase_counts P2 _ _ _ HI2 Hd2).
      unfold stats_diff. projections. f_equal; lia.
  - pose proof (Clear_room _ _ Hs) as Hroom1.
    assert (num_clear (lru_stats_ m2) < INT64_MAX)%Z as Hroom2 by lia.
    rewrite (Clear_Done _ Hroom1) in Hs. injection Hs as <-.
    eexists. split; [by apply Clear_Done|].
    unfold same_content, stats_diff. projections.
    split; [done|f_equal; lia].
Qed.

Lemma stats_diff_le (st1 st2 st1' st2' : LruMapStats) :
  stats_diff st1' st2' = stats_diff st1 st2 →
  stats_le st2 st1 → stats_le st2' st1'.
Proof. unfold stats_diff, stats_le. intros [= ? ? ? ? ? ?]. lia. Qed.

Lemma stats_diff_eq (st1 st2 st : LruMapStats) :
  stats_diff st1 st2 = stats_diff st st → st1 = st2.
Proof.
  unfold stats_diff. destruct st1, st2. simpl. intros [= ? ? ? ? ? ?].
  f_equal; lia.
Qed.

Lemma run_simulation ops1 ops2 m1 m2 m1' :
  Inv m1 → Inv m2 → same_content m1 m2 →
  forget_clock <$> ops1 = forget_clock <$> ops2 →
  stats_le (lru_stats_ m2) (lru_stats_ m1) →
  run P1 ops1 m1 = Done m1' →
  ∃ m2', run P2 ops2 m2 = Done m2' ∧ Inv m1' ∧ Inv m2' ∧
    same_content m1' m2' ∧
    stats_diff (lru_stats_ m1') (lru_stats_ m2') =
    stats_diff (lru_stats_ m1) (lru_stats_ m2).
Proof.
  revert ops2 m1 m2. induction ops1 as [|o1 ops1 IH];
    intros [|o2 ops2] m1 m2 HI1 HI2 Hsame Hops Hle; try done; simpl.
  - intros [= <-]. by exists m2.
  - injection Hops as Ho Hops.
    intros (m1a & Hs1 & Hr1)%bind_Done.
    destruct (step_simulation o1 o2 m1 m2 m1a HI1 HI2 Hsame Ho Hle Hs1)
      as (m2a & Hs2 & Hsame' & Hdiff).
    rewrite Hs2. simpl.
    destruct (IH ops2 m1a m2a) as (m2' & Hr2 & HI1' & HI2' & Hsame'' & Hdiff');
      [exact (Inv_step P1 o1 m1 m1a HI1 Hs1)|exact (Inv_step P2 o2 m2 m2a HI2 Hs2)
      |done|done| |done|].
    { by apply (stats_diff_le _ _ _ _ Hdiff). }
    exists m2'. do 4 (split; [done|]). congruence.
Qed.

Lemma incr64_Undefined (x : Z) : ¬ (x < INT64_MAX)%Z → incr64 x = Undefined.
Proof. intros Hx. unfold incr64. by destruct (Z.ltb_spec x INT64_MAX). Qed.

Lemma Find_result_simulation now1 now2 k m1 m2 :
  Inv m1 → Inv m2 → same_content m1 m2 →
  num_find (lru_stats_ m1) = num_find (lru_stats_ m2) →
  Find_result P1 now1 k m1 = Find_result P2 now2 k m2.
Proof.
  intros HI1 HI2 [Hcap Hcont] Hnf. unfold Find_result.
  destruct (decide (num_find (lru_stats_ m1) < INT64_MAX)%Z) as [Hroom1|Hfull].
  - assert (num_find (lru_stats_ m2) < INT64_MAX)%Z as Hroom2 by lia.
    destruct (Inv_Find_contents P1 m1 now1 k HI1 Hroom1)
      as (m1' & r1 & Hd1 & Hr1 & _).
    destruct (Inv_Find_contents P2 m2 now2 k HI2 Hroom2)
      as (m2' & r2 & Hd2 & Hr2 & _).
    rewrite <- Hcont in Hr2. rewrite Hd1, Hd2. simpl.
    by rewrite (same_result k _ _ _ Hr1 Hr2).
  - unfold Find.
    rewrite (incr64_Undefined (num_find (lru_stats_ m1))) by done.
    rewrite (incr64_Undefined (num_find (lru_stats_ m2))) by lia. done.
Qed.

(** The policies and the clock do not steer the engine.  Two runs of the
    same calls on maps of the same capacity, under any two sets of policies
    and with any clock readings, return together, and end with the same
    keys and values in the same order, the same size and the same counters;
    [Exists] and [Find] then answer the same in both.  Timestamps, hit
    counters and the log are written, never read, by the operations.
    Nothing is said of the addresses of the nodes, which the allocator
    chooses. *)
Theorem policies_do_not_interfere (c : Z) (ops1 ops2 : list Op) (m1 : LruMap) :
  forget_clock <$> ops1 = forget_clock <$> ops2 →
  LruMap_new c ≫= run P1 ops1 = Done m1 →
  ∃ m2, LruMap_new c ≫= run P2 ops2 = Done m2 ∧
    capacity_ m2 = capacity_ m1 ∧
    contents (lru_list_ m2) = contents (lru_list_ m1) ∧
    Size m2 = Size m1 ∧
    lru_stats_ m2 = lru_stats_ m1 ∧
    (∀ k, Exists k m2 = Exists k m1) ∧
    (∀ now1 now2 k,
       Find_result P2 now2 k m2 = Find_result P1 now1 k m1).
Proof.
  intros Hops (m0 & Hn & Hr)%bind_Done. rewrite Hn. simpl.
  pose proof (Inv_new _ _ Hn) as HI0.
  destruct (run_simulation ops1 ops2 m0 m0 m1)
    as (m2 & Hr2 & HI1 & HI2 & Hsame & Hdiff);
    [done|done|by split|done|unfold stats_le; lia|done|].
  apply stats_diff_eq in Hdiff. pose proof Hsame as [Hcap Hcont].
  exists m2. do 3 (split; [done|]). split.
  { rewrite (Size_Done _ HI1), (Size_Done _ HI2).
    by rewrite (same_content_length _ _ Hsame). }
  split; [done|]. split.
  - intros k. symmetry. by apply same_content_Exists.
  - intros now1 now2 k. symmetry. apply Find_result_simulation; try done.
    by rewrite Hdiff.
Qed.

End TwoPolicies.

Section Restart.

Context {KeyType : Type} `{Countable KeyType} {ValueType : Type}.
Variable P : Policies.

Local Abbreviation LruMap := (@LruMap KeyType _ _ ValueType).
Local Abbreviation Op := (@Op KeyType ValueType).

(** After [Clear()] the map behaves as a freshly constructed map of the
    same capacity: the same calls return on both and leave the same keys
    and values in the same order and the same size, and [Exists] answers
    the same; only the counters carry over, each being what it was at the
    [Clear] plus what the calls add on the fresh map.  Nothing is said of
    the addresses of the nodes. *)
Theorem cleared_map_is_fresh (m mc : LruMap) (ops : list Op) (m1 : LruMap) :
  reachable P m →
  Clear m = Done mc →
  run P ops mc = Done m1 →
  ∃ m2, LruMap_new (capacity_ m) ≫= run P ops = Done m2 ∧
    contents (lru_list_ m1) = contents (lru_list_ m2) ∧
    Size m1 = Size m2 ∧
    (∀ k, Exists k m1 = Exists k m2) ∧
    stats_diff (lru_stats_ m1) (lru_stats_ m2) = lru_stats_ mc.
Proof.
  intros HI%Inv_reachable Hcl Hr.
  pose proof (Inv_Clear _ _ HI Hcl) as HIc.
  pose proof (Clear_room _ _ Hcl) as Hroom.
  rewrite (Clear_Done _ Hroom) in Hcl. injection Hcl as <-.
  pose proof HI as [Hcap _ _ [Hok Hov] [He Hc] _].
  rewrite (LruMap_new_Done _ Hcap). simpl.
  pose proof (Inv_new _ _ (LruMap_new_Done (KeyType:=KeyType)
                             (ValueType:=ValueType) _ Hcap)) as HI0.
  destruct (run_simulation P P ops ops _ _ m1 HIc HI0)
    as (m2 & Hr2 & HI1 & HI2 & Hsame & Hdiff);
    [by split|done|unfold stats_le; simpl; lia|done|].
  pose proof Hsame as [_ Hcont].
  exists m2. do 2 (split; [done|]). split.
  { rewrite (Size_Done _ HI1), (Size_Done _ HI2).
    by rewrite (same_content_length _ _ Hsame). }
  split.
  - intros k. by apply same_content_Exists.
  - rewrite Hdiff. unfold stats_diff. simpl. f_equal; lia.
Qed.

End Restart.

(** * The further theorems at the instance of the test *)

Lemma Insert_contents_witness :
  reachable test_policies test_state ∧
  (num_insert (lru_stats_ test_state) < INT64_MAX)%Z ∧
  ∃ m', Insert test_policies 6 30%Z 150%Z test_state = Done m' ∧
    contents (lru_list_ m') =
      take (Z.to_nat (capacity_ test_state))
        ((30%Z, 150%Z) ::
         filter (λ kv, kv.1 ≠ 30%Z) (contents (lru_list_ test_state))) ∧
    num_insert (lru_stats_ m') = (num_insert (lru_stats_ test_state) + 1)%Z ∧
    num_overflow (lru_stats_ m') =
      (num_overflow (lru_stats_ test_state) +
       if bool_decide (Exists 30%Z test_state = false ∧
                       Z.of_nat (length (lru_list_ test_state)) =
                       capacity_ test_state)
       then 1 else 0)%Z.
Proof.
  assert (h1 : reachable test_policies test_state)
    by (exists 2%Z, test_ops; vm_compute; reflexivity).
  assert (h2 : (num_insert (lru_stats_ test_state) < INT64_MAX)%Z)
    by (vm_compute; reflexivity).
  exact (conj h1 (conj h2
    (Insert_contents test_policies test_state 6 30%Z 150%Z h1 h2))).
Defined.

Lemma Find_contents_witness :
  reachable test_policies test_state ∧
  (num_find (lru_stats_ test_state) < INT64_MAX)%Z ∧
  ∃ m' r, Find test_policies 6 10%Z test_state = Done (m', r) ∧
    (∀ v, r = Some v ↔ (10%Z, v) ∈ contents (lru_list_ test_state)) ∧
    (r = None ↔ Exists 10%Z test_state = false) ∧
    contents (lru_list_ m') =
      match r with
      | Some v =>
          (10%Z, v) ::
          filter (λ kv, kv.1 ≠ 10%Z) (contents (lru_list_ test_state))
      | None => contents (lru_list_ test_state)
      end ∧
    (∀ k', Exists k' m' = Exists k' test_state) ∧
    Size m' = Size test_state.
Proof.
  assert (h1 : reachable test_policies test_state)
    by (exists 2%Z, test_ops; vm_compute; reflexivity).
  assert (h2 : (num_find (lru_stats_ test_state) < INT64_MAX)%Z)
    by (vm_compute; reflexivity).
  exact (conj h1 (conj h2
    (Find_contents test_policies test_state 6 10%Z h1 h2))).
Defined.

Lemma Erase_contents_witness :
  reachable test_policies test_state ∧
  (num_erase (lru_stats_ test_state) < INT64_MAX)%Z ∧
  ∃ m', Erase test_policies 10%Z test_state = Done m' ∧
    contents (lru_list_ m') =
      filter (λ kv, kv.1 ≠ 10%Z) (contents (lru_list_ test_state)) ∧
    Exists 10%Z m' = false ∧
    (∀ k', k' ≠ 10%Z → Exists k' m' = Exists k' test_state) ∧
    Size m' =
      Done (Z.of_nat (length (lru_list_ test_state)) -
            if Exists 10%Z test_state then 1 else 0)%Z.
Proof.
  assert (h1 : reachable test_policies test_state)
    by (exists 2%Z, test_ops; vm_compute; reflexivity).
  assert (h2 : (num_erase (lru_stats_ test_state) < INT64_MAX)%Z)
    by (vm_compute; reflexivity).
  exact (conj h1 (conj h2
    (Erase_contents test_policies test_state 10%Z h1 h2))).
Defined.

Lemma keys_unique_witness :
  reachable test_policies test_state ∧
  NoDup (entry_keys (lru_list_ test_state)) ∧
  NoDup (lru_list_ test_state).*1 ∧
  Size test_state = Done (Z.of_nat (size (dom (lru_key_map_ test_state)))).
Proof.
  assert (h1 : reachable test_policies test_state)
    by (exists 2%Z, test_ops; vm_compute; reflexivity).
  exact (conj h1 (keys_unique test_policies test_state h1)).
Defined.

Lemma calls_return_witness :
  reachable test_policies test_state ∧
  stats_room (lru_stats_ test_state) ∧
  (∃ m', step test_policies (OpInsert 6 30%Z 150%Z) test_state = Done m') ∧
  Size test_state = Done (Z.of_nat (length (lru_list_ test_state))).
Proof.
  assert (h1 : reachable test_policies test_state)
    by (exists 2%Z, test_ops; vm_compute; reflexivity).
  assert (h2 : stats_room (lru_stats_ test_state))
    by (vm_compute; repeat split; reflexivity).
  exact (conj h1 (conj h2
    (calls_return test_policies test_state (OpInsert 6 30%Z 150%Z) h1 h2))).
Defined.

Lemma disabled_policies_write_nothing_witness :
  reachable default_policies test_state_default ∧
  Forall (λ ne,
    (timestamping default_policies = TimestampNone →
       access_time_usecs ne.2 = 0%Z ∧ modify_time_usecs ne.2 = 0%Z) ∧
    (hit_counting default_policies = HitCountDisabled → hit_count ne.2 = 0%Z))
    (lru_list_ test_state_default).
Proof.
  assert (h1 : reachable default_policies test_state_default)
    by (exists 2%Z, test_ops; vm_compute; reflexivity).
  exact (conj h1
    (disabled_policies_write_nothing default_policies test_state_default h1)).
Defined.

Lemma Find_hit_frame_witness :
  reachable test_policies test_state ∧
  lru_key_map_ test_state !! 10%Z = Some 1 ∧
  (1, test_entry) ∈ lru_list_ test_state ∧
  (num_find (lru_stats_ test_state) < INT64_MAX)%Z ∧
  ∃ m1 e' l',
    Find test_policies 6 10%Z test_state = Done (m1, Some (value test_entry)) ∧
    lru_list_ m1 = (1, e') :: l' ∧
    lru_key_map_ m1 = lru_key_map_ test_state ∧
    key e' = key test_entry ∧ value e' = value test_entry ∧
    modify_time_usecs e' = modify_time_usecs test_entry ∧
    hit_count e' = (hit_count test_entry + 1)%Z ∧
    access_time_usecs e' = 6%Z ∧
    l' `sublist_of` lru_list_ test_state ∧
    ∀ x, x ∈ l' ↔ x ∈ lru_list_ test_state ∧ x.1 ≠ 1.
Proof.
  assert (h1 : reachable test_policies test_state)
    by (exists 2%Z, test_ops; vm_compute; reflexivity).
  assert (h2 : lru_key_map_ test_state !! 10%Z = Some 1)
    by (vm_compute; reflexivity).
  assert (h3 : (1, test_entry) ∈ lru_list_ test_state)
    by (simpl; apply list_elem_of_further, list_elem_of_here).
  assert (h4 : (num_find (lru_stats_ test_state) < INT64_MAX)%Z)
    by (vm_compute; reflexivity).
  exact (conj h1 (conj h2 (conj h3 (conj h4
    (Find_hit_frame test_policies test_state 6 10%Z 1 test_entry
       h1 h2 h3 h4))))).
Defined.

Lemma hit_counts_accounted_witness :
  reachable test_policies test_state ∧
  Forall (λ ne, (0 ≤ hit_count ne.2)%Z) (lru_list_ test_state) ∧
  (0 ≤ total_hits (lru_list_ test_state)
     ≤ num_find_ok (lru_stats_ test_state))%Z.
Proof.
  assert (h1 : reachable test_policies test_state)
    by (exists 2%Z, test_ops; vm_compute; reflexivity).
  exact (conj h1 (hit_counts_accounted test_policies test_state h1)).
Defined.

Lemma log_accounts_witness :
  reachable test_policies test_state ∧
  [LogSizeOfTypes; LogSizeOfMembers] `prefix_of` glog_ test_state ∧
  Z.of_nat (count_event "Insert" (glog_ test_state)) =
    num_insert (lru_stats_ test_state) ∧
  Z.of_nat (count_event "Overflow" (glog_ test_state)) =
    num_overflow (lru_stats_ test_state) ∧
  Z.of_nat (count_event "Find" (glog_ test_state)) =
    num_find_ok (lru_stats_ test_state) ∧
  (Z.of_nat (count_event "Erase" (glog_ test_state))
     ≤ num_erase (lru_stats_ test_state))%Z ∧
  length (glog_ test_state) =
    2 + count_event "Insert" (glog_ test_state) +
    count_event "Overflow" (glog_ test_state) +
    count_event "Find" (glog_ test_state) +
    count_event "Erase" (glog_ test_state).
Proof.
  assert (h1 : reachable test_policies test_state)
    by (exists 2%Z, test_ops; vm_compute; reflexivity).
  exact (conj h1 (log_accounts test_policies test_state h1)).
Defined.

Lemma policies_do_not_interfere_witness :
  forget_clock <$> test_ops = forget_clock <$> (forget_clock <$> test_ops) ∧
  LruMap_new 2 ≫= run test_policies test_ops = Done test_state ∧
  ∃ m2,
    LruMap_new 2 ≫= run default_policies (forget_clock <$> test_ops) = Done m2 ∧
    capacity_ m2 = capacity_ test_state ∧
    contents (lru_list_ m2) = contents (lru_list_ test_state) ∧
    Size m2 = Size test_state ∧
    lru_stats_ m2 = lru_stats_ test_state ∧
    (∀ k, Exists k m2 = Exists k test_state) ∧
    (∀ now1 now2 k,
       Find_result default_policies now2 k m2 =
       Find_result test_policies now1 k test_state).
Proof.
  assert (h1 : forget_clock <$> test_ops =
               forget_clock <$> (forget_clock <$> test_ops)) by reflexivity.
  assert (h2 : LruMap_new 2 ≫= run test_policies test_ops = Done test_state)
    by (vm_compute; reflexivity).
  exact (conj h1 (conj h2
    (policies_do_not_interfere test_policies default_policies 2 test_ops
       (forget_clock <$> test_ops) test_state h1 h2))).
Defined.

Lemma cleared_map_is_fresh_witness :
  reachable test_policies test_state ∧
  Clear test_state = Done test_cleared ∧
  run test_policies test_ops test_cleared = Done test_rerun ∧
  ∃ m2,
    LruMap_new (capacity_ test_state) ≫= run test_policies test_ops = Done m2 ∧
    contents (lru_list_ test_rerun) = contents (lru_list_ m2) ∧
    Size test_rerun = Size m2 ∧
    (∀ k, Exists k test_rerun = Exists k m2) ∧
    stats_diff (lru_stats_ test_rerun) (lru_stats_ m2) = lru_stats_ test_cleared.
Proof.
  assert (h1 : reachable test_policies test_state)
    by (exists 2%Z, test_ops; vm_compute; reflexivity).
  assert (h2 : Clear test_state = Done test_cleared)
    by (vm_compute; reflexivity).
  assert (h3 : run test_policies test_ops test_cleared = Done test_rerun)
    by (vm_compute; reflexivity).
  exact (conj h1 (conj h2 (conj h3
    (cleared_map_is_fresh test_policies test_state test_cleared test_ops
       test_rerun h1 h2 h3)))).
Defined.

(** * Beyond the claims: the repository's test passes *)

Section TestPasses.

Variable P : Policies.
Variable clock : nat → Z.
Hypothesis Hclock : clock_ok clock.

Local Abbreviation LruMap := (@LruMap Z _ _ Z).
Local Abbreviation world := (LruMap * nat)%type.

Implicit Types (L : list (Z * Z)) (st : LruMapStats) (m : LruMap) (w : world).
Implicit Types (k v t c now : Z).

Local Ltac projections :=
  cbn [capacity_ lru_stats_ lru_list_ lru_key_map_ glog_
       num_insert num_overflow num_find num_find_ok num_erase num_clear].

Lemma clock_mono (i j : nat) : i ≤ j → (clock i ≤ clock j)%Z.
Proof. destruct Hclock as (_ & Hm & _). apply Hm. Qed.

Lemma clock_range (i : nat) : (0 ≤ clock i ≤ INT64_MAX)%Z.
Proof.
  destruct Hclock as (H0 & Hm & Hmax). split; [|apply Hmax].
  pose proof (Hm 0 i). lia.
Qed.

(** ** The operations on a map that holds known pairs *)

Lemma holds_Valid L st t c m : holds P L st t c m → Valid P m = true.
Proof.
  intros (HI & _ & _ & _ & Ht & Htimed).
  unfold Valid, TimestampingPolicy_Valid, TimestampAll_Valid.
  destruct (timestamping P); [done|].
  destruct Htimed as [Hs Hu]; [done|].
  apply TimestampAll_Valid_from_true; [done|].
  apply (timestamps_upto_mono t); [lia|done].
Qed.

Lemma holds_Size L st t c m :
  holds P L st t c m → Size m = Done (Z.of_nat (length L)).
Proof.
  intros (HI & _ & <- & _). rewrite (Size_Done _ HI).
  by rewrite length_contents.
Qed.

Lemma holds_Exists L st t c m k :
  holds P L st t c m → Exists k m = bool_decide (k ∈ L.*1).
Proof.
  intros (HI & _ & <- & _).
  pose proof (Exists_contents k m HI) as Hex.
  destruct (Exists k m); symmetry.
  - apply bool_decide_eq_true. by apply Hex.
  - apply bool_decide_eq_false. intros Hin. by apply Hex in Hin.
Qed.

Lemma holds_Insert L st t c m now k v :
  holds P L st t c m → (t ≤ now ≤ INT64_MAX)%Z →
  (num_insert st < INT64_MAX)%Z →
  ∃ m', Insert P now k v m = Done m' ∧
    holds P (take (Z.to_nat c) ((k, v) :: filter (λ kv, kv.1 ≠ k) L))
      {| num_insert := num_insert st + 1;
         num_overflow :=
           num_overflow st +
           (if bool_decide ((k ∉ L.*1) ∧ Z.of_nat (length L) = c) then 1 else 0);
         num_find := num_find st; num_find_ok := num_find_ok st;
         num_erase := num_erase st; num_clear := num_clear st |}
      now c m'.
Proof.
  intros Hh Hnow Hroom. pose proof (holds_Exists _ _ _ _ _ k Hh) as Hex.
  destruct Hh as (HI & <- & <- & <- & Ht & Htimed).
  destruct (Inv_Insert_contents P m now k v HI Hroom) as (m' & Hd & Hcont & Hst).
  exists m'. split; [done|].
  split; [by eapply Inv_Insert|].
  split; [by destruct (Insert_frame P _ _ _ _ _ HI Hd)|].
  split; [done|]. split.
  { rewrite Hst. f_equal. f_equal.
    rewrite (bool_decide_ext (Exists k m = false ∧ _)
               ((k ∉ (contents (lru_list_ m)).*1) ∧
                Z.of_nat (length (contents (lru_list_ m))) = capacity_ m));
      [done|].
    rewrite Hex, bool_decide_eq_false, length_contents. done. }
  split; [lia|]. intros HP. destruct (Htimed HP) as [Hs Hu].
  apply (timed_Insert P HP m now k v m' t); [done..|lia|done].
Qed.

Lemma holds_Find_hit L st t c m now k v :
  holds P L st t c m → (k, v) ∈ L → (t ≤ now ≤ INT64_MAX)%Z →
  (num_find st < INT64_MAX)%Z →
  ∃ m', Find P now k m = Done (m', Some v) ∧
    holds P ((k, v) :: filter (λ kv, kv.1 ≠ k) L)
      {| num_insert := num_insert st; num_overflow := num_overflow st;
         num_find := num_find st + 1; num_find_ok := num_find_ok st + 1;
         num_erase := num_erase st; num_clear := num_clear st |}
      now c m'.
Proof.
  intros (HI & <- & <- & <- & Ht & Htimed) Hin Hnow Hroom.
  destruct (Inv_Find_contents P m now k HI Hroom)
    as (m' & r & Hd & Hr & _ & Hcont & _).
  assert (r = Some v) as -> by (by apply Hr).
  exists m'. split; [done|].
  split; [by eapply Inv_Find|].
  split; [by destruct (Find_frame P _ _ _ _ _ HI Hd)|].
  split; [done|]. split.
  { by destruct (Find_counts P _ _ _ _ _ HI Hd) as [-> _]. }
  split; [lia|]. intros HP. destruct (Htimed HP) as [Hs Hu].
  apply (timed_Find P HP m now k m' (Some v) t); [done..|lia|done].
Qed.

Lemma holds_Find_miss L st t c m now k :
  holds P L st t c m → k ∉ L.*1 →
  (num_find st < INT64_MAX)%Z →
  ∃ m', Find P now k m = Done (m', None) ∧
    holds P L
      {| num_insert := num_insert st; num_overflow := num_overflow st;
         num_find := num_find st + 1; num_find_ok := num_find_ok st;
         num_erase := num_erase st; num_clear := num_clear st |}
      t c m'.
Proof.
  intros Hh Hk Hroom. pose proof (holds_Exists _ _ _ _ _ k Hh) as Hex.
  rewrite bool_decide_false in Hex by done. apply Exists_false in Hex.
  destruct Hh as (HI & <- & <- & <- & Ht & Htimed).
  pose proof (Find_miss P m now k Hex Hroom) as Hd.
  eexists. split; [exact Hd|].
  split; [exact (Inv_Find P m now k _ _ HI Hd)|]. projections.
  do 3 (split; [done|]). split; [lia|done].
Qed.

Lemma holds_Erase L st t c m k :
  holds P L st t c m →
  (num_erase st < INT64_MAX)%Z →
  ∃ m', Erase P k m = Done m' ∧
    holds P (filter (λ kv, kv.1 ≠ k) L)
      {| num_insert := num_insert st; num_overflow := num_overflow st;
         num_find := num_find st; num_find_ok := num_find_ok st;
         num_erase := num_erase st + 1; num_clear := num_clear st |}
      t c m'.
Proof.
  intros (HI & <- & <- & <- & Ht & Htimed) Hroom.
  destruct (Inv_Erase_contents P m k HI Hroom) as (m' & Hd & Hcont & _).
  exists m'. split; [done|].
  split; [by eapply Inv_Erase|].
  split; [by destruct (Erase_frame P _ _ _ HI Hd)|].
  split; [done|]. split.
  { pose proof HI as [_ Hc _ _ _ _].
    destruct (lru_key_map_ m !! k) as [it|] eqn:Hk.
    - destruct (consistent_lookup _ _ _ _ Hc Hk) as (e & _ & _ & Hin).
      rewrite (Erase_hit P m k it e HI Hk Hin Hroom) in Hd. by injection Hd as <-.
    - rewrite (Erase_miss P m k Hk Hroom) in Hd. by injection Hd as <-. }
  split; [done|]. intros HP. destruct (Htimed HP) as [Hs Hu].
  apply (timed_Erase P m k m' t); done.
Qed.

(** ** The integers of the test *)

Lemma to_int32_small (z : Z) : (INT_MIN ≤ z ≤ INT_MAX)%Z → to_int32 z = z.
Proof.
  unfold to_int32, INT_MIN, INT_MAX. intros Hz.
  rewrite Z.mod_small by lia. lia.
Qed.

(** ** The pairs of the test *)

Lemma test_pairs_S (a : Z) (n : nat) :
  test_pairs a (S n) =
  test_pairs a n ++ [((a + Z.of_nat n)%Z, KeyToValue (a + Z.of_nat n))].
Proof. unfold test_pairs. by rewrite seqZ_S, fmap_app. Qed.

Lemma test_pairs_cons (a : Z) (n : nat) :
  test_pairs a (S n) = (a, KeyToValue a) :: test_pairs (a + 1) n.
Proof.
  unfold test_pairs. rewrite Nat2Z.inj_succ, seqZ_cons by lia.
  rewrite Z.pred_succ. by replace (Z.succ a) with (a + 1)%Z by lia.
Qed.

Lemma test_pairs_keys (a : Z) (n : nat) :
  (test_pairs a n).*1 = seqZ a (Z.of_nat n).
Proof.
  unfold test_pairs. rewrite <- list_fmap_compose. apply list_fmap_id.
Qed.

Lemma length_test_pairs (a : Z) (n : nat) : length (test_pairs a n) = n.
Proof. unfold test_pairs. rewrite length_fmap, length_seqZ. lia. Qed.

Lemma elem_of_test_pairs_keys (a k : Z) (n : nat) :
  k ∈ (test_pairs a n).*1 ↔ (a ≤ k < a + Z.of_nat n)%Z.
Proof. by rewrite test_pairs_keys, elem_of_seqZ. Qed.

Lemma elem_of_test_pairs (a k : Z) (n : nat) :
  (a ≤ k < a + Z.of_nat n)%Z → (k, KeyToValue k) ∈ test_pairs a n.
Proof.
  intros Hk. unfold test_pairs. apply list_elem_of_fmap. exists k.
  split; [done|]. by apply elem_of_seqZ.
Qed.

Lemma filter_test_pairs_absent (a k : Z) (n : nat) :
  ¬ (a ≤ k < a + Z.of_nat n)%Z →
  filter (λ kv, kv.1 ≠ k) (test_pairs a n) = test_pairs a n.
Proof.
  intros Hk. apply filter_Forall_id, Forall_forall.
  intros [k' v'] Hin Heq. simpl in Heq. subst k'. apply Hk.
  apply elem_of_test_pairs_keys, list_elem_of_fmap. by exists (k, v').
Qed.

Lemma filter_test_pairs_first (a : Z) (n : nat) :
  filter (λ kv, kv.1 ≠ a) (test_pairs a (S n)) = test_pairs (a + 1) n.
Proof.
  rewrite test_pairs_cons, filter_cons_False by (by intros Hn; apply Hn).
  apply filter_test_pairs_absent. lia.
Qed.

(** ** Loops *)

Lemma for_each_app (idxs1 idxs2 : list Z) body w :
  for_each (idxs1 ++ idxs2) body w =
  for_each idxs1 body w ≫= for_each idxs2 body.
Proof.
  revert w. induction idxs1 as [|idx idxs1 IH]; intros w; simpl; [done|].
  destruct (body idx w) as [w'| |]; simpl; [apply IH|done|done].
Qed.

(** The rule of a loop with an invariant. *)
Lemma for_each_seqZ (I : nat → world → Prop) (a : Z) (n : nat) body w :
  I 0 w →
  (∀ (i : nat) w, i < n → I i w →
     ∃ w', body (a + Z.of_nat i)%Z w = Done w' ∧ I (S i) w') →
  ∃ w', for_each (seqZ a (Z.of_nat n)) body w = Done w' ∧ I n w'.
Proof.
  intros H0. induction n as [|n IH]; intros Hbody.
  - exists w. by split.
  - destruct IH as (w1 & Hw1 & HI1).
    { intros i w0 Hi. apply Hbody. lia. }
    destruct (Hbody n w1) as (w2 & Hw2 & HI2); [lia|done|].
    exists w2. rewrite seqZ_S, for_each_app, Hw1. simpl. by rewrite Hw2.
Qed.

Lemma for_int_seqZ (I : nat → world → Prop) (a : Z) (n : nat) body w :
  (INT_MIN ≤ a)%Z → (a + Z.of_nat n ≤ INT_MAX)%Z →
  I 0 w →
  (∀ (i : nat) w, i < n → I i w →
     ∃ w', body (a + Z.of_nat i)%Z w = Done w' ∧ I (S i) w') →
  ∃ w', for_int a (a + Z.of_nat n) body w = Done w' ∧ I n w'.
Proof.
  intros Ha Hb H0 Hbody. unfold for_int.
  rewrite bool_decide_true by lia.
  replace (a + Z.of_nat n - a)%Z with (Z.of_nat n) by lia.
  by apply for_each_seqZ.
Qed.

(** ** The bodies of the loops *)

Lemma at_call_next c L st (n : nat) t m :
  (t ≤ clock n)%Z → holds P L st t c m → at_call P clock c L st (S n) (m, S n).
Proof.
  intros Ht Hh. split; [done|]. exists t. split; [|done].
  pose proof (clock_mono n (S n)). lia.
Qed.

Lemma body_miss c L st (n : nat) idx w :
  at_call P clock c L st n w → idx ∉ L.*1 →
  (num_find st < INT64_MAX)%Z →
  ∃ w', MatchExpectations_body P clock false idx w = Done w' ∧
    at_call P clock c L
      {| num_insert := num_insert st; num_overflow := num_overflow st;
         num_find := num_find st + 1; num_find_ok := num_find_ok st;
         num_erase := num_erase st; num_clear := num_clear st |}
      (S n) w'.
Proof.
  destruct w as [m n']. intros [Hn (t & Ht & Hh)] Hidx Hroom.
  simpl in Hn, Hh. subst n'. unfold MatchExpectations_body. simpl.
  rewrite (holds_Exists _ _ _ _ _ idx Hh).
  rewrite (bool_decide_false (idx ∈ L.*1)) by done.
  rewrite bool_decide_true by done. simpl.
  destruct (holds_Find_miss _ _ _ _ _ (clock n) idx Hh Hidx Hroom)
    as (m' & Hd & Hh').
  rewrite Hd. simpl. rewrite (holds_Valid _ _ _ _ _ Hh'). simpl.
  eexists. split; [done|]. by apply (at_call_next _ _ _ _ t).
Qed.

Lemma body_hit c L st (n : nat) idx w :
  at_call P clock c L st n w → (idx, KeyToValue idx) ∈ L →
  (num_find st < INT64_MAX)%Z →
  ∃ w', MatchExpectations_body P clock true idx w = Done w' ∧
    at_call P clock c
      ((idx, KeyToValue idx) :: filter (λ kv, kv.1 ≠ idx) L)
      {| num_insert := num_insert st; num_overflow := num_overflow st;
         num_find := num_find st + 1; num_find_ok := num_find_ok st + 1;
         num_erase := num_erase st; num_clear := num_clear st |}
      (S n) w'.
Proof.
  destruct w as [m n']. intros [Hn (t & Ht & Hh)] Hidx Hroom.
  simpl in Hn, Hh. subst n'. unfold MatchExpectations_body. simpl.
  rewrite (holds_Exists _ _ _ _ _ idx Hh).
  rewrite (bool_decide_true (idx ∈ L.*1)).
  2:{ apply list_elem_of_fmap. by exists (idx, KeyToValue idx). }
  rewrite bool_decide_true by done. simpl.
  pose proof (clock_range n) as Hr.
  destruct (holds_Find_hit _ _ _ _ _ (clock n) idx _ Hh Hidx) as (m' & Hd & Hh');
    [lia|done|].
  rewrite Hd. simpl. rewrite bool_decide_true by done. simpl.
  rewrite (holds_Valid _ _ _ _ _ Hh'). simpl.
  eexists. split; [done|]. apply (at_call_next _ _ _ _ (clock n)); [lia|done].
Qed.

Lemma test_Insert c L st (n : nat) k v w :
  at_call P clock c L st n w →
  (num_insert st < INT64_MAX)%Z →
  ∃ w', LruMapTest_Insert P clock k v w = Done w' ∧
    at_call P clock c
      (take (Z.to_nat c) ((k, v) :: filter (λ kv, kv.1 ≠ k) L))
      {| num_insert := num_insert st + 1;
         num_overflow :=
           num_overflow st +
           (if bool_decide ((k ∉ L.*1) ∧ Z.of_nat (length L) = c) then 1 else 0);
         num_find := num_find st; num_find_ok := num_find_ok st;
         num_erase := num_erase st; num_clear := num_clear st |}
      (S n) w'.
Proof.
  destruct w as [m n']. intros [Hn (t & Ht & Hh)] Hroom.
  simpl in Hn, Hh. subst n'. unfold LruMapTest_Insert. simpl.
  pose proof (clock_range n) as Hr.
  destruct (holds_Insert _ _ _ _ _ (clock n) k v Hh) as (m' & Hd & Hh');
    [lia|done|].
  rewrite Hd. simpl. rewrite (holds_Valid _ _ _ _ _ Hh'). simpl.
  eexists. split; [done|]. apply (at_call_next _ _ _ _ (clock n)); [lia|done].
Qed.

Lemma test_insert_body c L st (n : nat) idx expected w :
  at_call P clock c L st n w →
  (num_insert st < INT64_MAX)%Z →
  expected idx =
    Z.of_nat (length (take (Z.to_nat c)
                        ((idx, KeyToValue idx) :: filter (λ kv, kv.1 ≠ idx) L))) →
  ∃ w', Test_insert_body P clock expected idx w = Done w' ∧
    at_call P clock c
      (take (Z.to_nat c)
         ((idx, KeyToValue idx) :: filter (λ kv, kv.1 ≠ idx) L))
      {| num_insert := num_insert st + 1;
         num_overflow :=
           num_overflow st +
           (if bool_decide ((idx ∉ L.*1) ∧ Z.of_nat (length L) = c) then 1 else 0);
         num_find := num_find st; num_find_ok := num_find_ok st;
         num_erase := num_erase st; num_clear := num_clear st |}
      (S n) w'.
Proof.
  intros Hw Hroom Hexp. unfold Test_insert_body.
  destruct (test_Insert c L st n idx (KeyToValue idx) w Hw Hroom)
    as (w' & Hd & Hw').
  rewrite Hd. simpl. destruct Hw' as [Hn (t & Ht & Hh)].
  rewrite (holds_Size _ _ _ _ _ Hh). simpl.
  rewrite Hexp, Z.eqb_refl. simpl.
  exists w'. split; [done|]. split; [done|]. by exists t.
Qed.

(** ** The loops of the test *)

Lemma at_call_eq c L L' st st' (n n' : nat) w :
  at_call P clock c L st n w → L = L' → st = st' → n = n' →
  at_call P clock c L' st' n' w.
Proof. by intros Hw <- <- <-. Qed.

Lemma filter_reverse_test_pairs_absent (a k : Z) (n : nat) :
  ¬ (a ≤ k < a + Z.of_nat n)%Z →
  filter (λ kv, kv.1 ≠ k) (reverse (test_pairs a n)) = reverse (test_pairs a n).
Proof.
  intros Hk. by rewrite filter_reverse, filter_test_pairs_absent.
Qed.

Lemma filter_reverse_test_pairs_last (a : Z) (n : nat) :
  filter (λ kv, kv.1 ≠ (a + Z.of_nat n)%Z) (reverse (test_pairs a (S n))) =
  reverse (test_pairs a n).
Proof.
  rewrite test_pairs_S, reverse_snoc.
  rewrite filter_cons_False by (by intros Hn; apply Hn).
  apply filter_reverse_test_pairs_absent. lia.
Qed.

Lemma reverse_test_pairs_keys (a k : Z) (n : nat) :
  k ∈ (reverse (test_pairs a n)).*1 ↔ (a ≤ k < a + Z.of_nat n)%Z.
Proof. by rewrite fmap_reverse, elem_of_reverse, elem_of_test_pairs_keys. Qed.

(** [MatchExpectations] over keys none of which is in the map. *)
Lemma MatchExpectations_absent c L i o f fk e (n : nat) (a : Z) (len : nat) w :
  at_call P clock c L (test_stats i o f fk e) n w →
  (∀ k, (a ≤ k < a + Z.of_nat len)%Z → k ∉ L.*1) →
  (INT_MIN ≤ a)%Z → (a + Z.of_nat len ≤ INT_MAX)%Z →
  (f + Z.of_nat len ≤ INT64_MAX)%Z →
  ∃ w', MatchExpectations P clock a (a + Z.of_nat len) false w = Done w' ∧
    at_call P clock c L (test_stats i o (f + Z.of_nat len) fk e) (n + len) w'.
Proof.
  intros Hw Habs Ha Hb Hroom. unfold MatchExpectations.
  rewrite (proj2 (Z.leb_le _ _)) by lia. simpl.
  apply (for_int_seqZ
           (λ j w, at_call P clock c L
                     (test_stats i o (f + Z.of_nat j) fk e) (n + j) w));
    [done|done| |].
  - eapply at_call_eq; [exact Hw|done| |lia]. unfold test_stats. f_equal; lia.
  - intros j w0 Hj Hw0.
    destruct (body_miss _ _ _ _ (a + Z.of_nat j)%Z _ Hw0) as (w' & Hd & Hw').
    { apply Habs. lia. }
    { simpl. lia. }
    exists w'. split; [done|].
    eapply at_call_eq; [exact Hw'|done| |lia].
    unfold test_stats. simpl. f_equal; lia.
Qed.

(** [MatchExpectations] over the keys of the map, from the back of the
    sequence to its front: every key is found and moves to the front, so the
    sequence ends as it began. *)
Lemma MatchExpectations_present c i o f fk e (n : nat) (a : Z) (len : nat) w :
  at_call P clock c (reverse (test_pairs a len)) (test_stats i o f fk e) n w →
  (INT_MIN ≤ a)%Z → (a + Z.of_nat len ≤ INT_MAX)%Z →
  (f + Z.of_nat len ≤ INT64_MAX)%Z →
  ∃ w', MatchExpectations P clock a (a + Z.of_nat len) true w = Done w' ∧
    at_call P clock c (reverse (test_pairs a len))
      (test_stats i o (f + Z.of_nat len) (fk + Z.of_nat len) e) (n + len) w'.
Proof.
  intros Hw Ha Hb Hroom. unfold MatchExpectations.
  rewrite (proj2 (Z.leb_le _ _)) by lia. simpl.
  destruct (for_int_seqZ
    (λ j w, at_call P clock c
              (reverse (test_pairs a j) ++
               reverse (test_pairs (a + Z.of_nat j) (len - j)))
              (test_stats i o (f + Z.of_nat j) (fk + Z.of_nat j) e) (n + j) w)
    a len (MatchExpectations_body P clock true) w) as (w' & Hd & Hw');
    [done|done| | |].
  - eapply at_call_eq; [exact Hw| | |lia].
    + simpl. by rewrite Z.add_0_r, Nat.sub_0_r.
    + unfold test_stats. f_equal; lia.
  - intros j w0 Hj Hw0.
    destruct (body_hit _ _ _ _ (a + Z.of_nat j)%Z _ Hw0) as (w' & Hd & Hw').
    { apply elem_of_app. right. apply elem_of_reverse, elem_of_test_pairs. lia. }
    { simpl. lia. }
    exists w'. split; [done|].
    eapply at_call_eq; [exact Hw'| | |lia].
    + rewrite filter_app, filter_reverse_test_pairs_absent by lia.
      replace (len - j) with (S (len - S j)) by lia.
      rewrite filter_reverse, filter_test_pairs_first, test_pairs_S, reverse_snoc.
      simpl. do 3 f_equal. f_equal. lia.
    + unfold test_stats. simpl. f_equal; lia.
  - exists w'. split; [done|].
    eapply at_call_eq; [exact Hw'| |done|done].
    by rewrite Nat.sub_diag, app_nil_r.
Qed.

(** The first loop of the test that inserts: the map fills up. *)
Lemma Test_fill (cn : nat) i o f fk e (n : nat) w :
  at_call P clock (Z.of_nat cn) [] (test_stats i o f fk e) n w →
  (Z.of_nat cn ≤ INT_MAX)%Z →
  (i + Z.of_nat cn ≤ INT64_MAX)%Z →
  ∃ w', for_int 0 (Z.of_nat cn)
          (Test_insert_body P clock (λ idx, idx + 1)%Z) w = Done w' ∧
    at_call P clock (Z.of_nat cn) (reverse (test_pairs 0 cn))
      (test_stats (i + Z.of_nat cn) o f fk e) (n + cn) w'.
Proof.
  intros Hw Hb Hroom.
  change (Z.of_nat cn) with (0 + Z.of_nat cn)%Z at 1.
  apply (for_int_seqZ
    (λ j w, at_call P clock (Z.of_nat cn) (reverse (test_pairs 0 j))
              (test_stats (i + Z.of_nat j) o f fk e) (n + j) w));
    [unfold INT_MIN; lia|lia| |].
  - eapply at_call_eq; [exact Hw|done| |lia]. unfold test_stats. f_equal; lia.
  - intros j w0 Hj Hw0.
    assert (Hl : take (Z.to_nat (Z.of_nat cn))
                   (((0 + Z.of_nat j)%Z, KeyToValue (0 + Z.of_nat j)) ::
                    filter (λ kv, kv.1 ≠ (0 + Z.of_nat j)%Z)
                      (reverse (test_pairs 0 j))) =
                 reverse (test_pairs 0 (S j))).
    { rewrite filter_reverse_test_pairs_absent by lia.
      rewrite take_ge.
      - by rewrite test_pairs_S, reverse_snoc.
      - simpl. rewrite length_reverse, length_test_pairs. lia. }
    destruct (test_insert_body _ _ _ _ (0 + Z.of_nat j)%Z
                (λ idx, idx + 1)%Z _ Hw0) as (w' & Hd & Hw').
    { simpl. lia. }
    { rewrite Hl, length_reverse, length_test_pairs. lia. }
    exists w'. split; [done|].
    eapply at_call_eq; [exact Hw'|exact Hl| |lia].
    rewrite bool_decide_false.
    2:{ rewrite length_reverse, length_test_pairs. lia. }
    unfold test_stats. simpl. f_equal; lia.
Qed.

(** The second loop of the test that inserts: every insertion evicts the
    entry at the back. *)
Lemma Test_overflow (cn : nat) i o f fk e (n : nat) w :
  at_call P clock (Z.of_nat cn) (reverse (test_pairs 0 cn))
    (test_stats i o f fk e) n w →
  1 ≤ cn → (2 * Z.of_nat cn ≤ INT_MAX)%Z →
  (i + Z.of_nat cn ≤ INT64_MAX)%Z → (o + Z.of_nat cn ≤ INT64_MAX)%Z →
  ∃ w', for_int (Z.of_nat cn) (2 * Z.of_nat cn)
          (Test_insert_body P clock (λ _, Z.of_nat cn)) w = Done w' ∧
    at_call P clock (Z.of_nat cn) (reverse (test_pairs (Z.of_nat cn) cn))
      (test_stats (i + Z.of_nat cn) (o + Z.of_nat cn) f fk e) (n + cn) w'.
Proof.
  intros Hw Hcn Hb Hroom Hroom'.
  replace (2 * Z.of_nat cn)%Z with (Z.of_nat cn + Z.of_nat cn)%Z by lia.
  apply (for_int_seqZ
    (λ j w, at_call P clock (Z.of_nat cn)
              (reverse (test_pairs (Z.of_nat j) cn))
              (test_stats (i + Z.of_nat j) (o + Z.of_nat j) f fk e) (n + j) w));
    [unfold INT_MIN; lia|lia| |].
  - eapply at_call_eq; [exact Hw|done| |lia]. unfold test_stats. f_equal; lia.
  - intros j w0 Hj Hw0. destruct cn as [|cn']; [lia|].
    set (c := Z.of_nat (S cn')) in *.
    assert (Hl : take (Z.to_nat c)
                   (((c + Z.of_nat j)%Z, KeyToValue (c + Z.of_nat j)) ::
                    filter (λ kv, kv.1 ≠ (c + Z.of_nat j)%Z)
                      (reverse (test_pairs (Z.of_nat j) (S cn')))) =
                 reverse (test_pairs (Z.of_nat (S j)) (S cn'))).
    { rewrite filter_reverse_test_pairs_absent by lia.
      unfold c. rewrite Nat2Z.id.
      rewrite (test_pairs_cons (Z.of_nat j)), reverse_cons.
      rewrite (test_pairs_S (Z.of_nat (S j))), reverse_snoc.
      rewrite firstn_cons.
      rewrite take_app_length'
        by (rewrite length_reverse, length_test_pairs; lia).
      replace (Z.of_nat (S j)) with (Z.of_nat j + 1)%Z by lia.
      replace (Z.of_nat (S cn') + Z.of_nat j)%Z
        with (Z.of_nat j + 1 + Z.of_nat cn')%Z by lia.
      done. }
    destruct (test_insert_body _ _ _ _ (c + Z.of_nat j)%Z
                (λ _, c) _ Hw0) as (w' & Hd & Hw').
    { simpl. lia. }
    { rewrite Hl, length_reverse, length_test_pairs. done. }
    exists w'. split; [done|].
    eapply at_call_eq; [exact Hw'|exact Hl| |lia].
    rewrite bool_decide_true.
    2:{ split.
        - rewrite reverse_test_pairs_keys. lia.
        - rewrite length_reverse, length_test_pairs. done. }
    unfold test_stats. simpl. f_equal; lia.
Qed.

(** ** The test as a whole *)

Lemma outcome_bind_Done {A B} (x : outcome A) (y : A) (f : A → outcome B) :
  x = Done y → x ≫= f = f y.
Proof. by intros ->. Qed.

Lemma CHECK_true {B} (cond : bool) (f : unit → outcome B) :
  cond = true → CHECK cond ≫= f = f tt.
Proof. by intros ->. Qed.

Lemma holds_new c m :
  LruMap_new c = Done m → holds P [] (test_stats 0 0 0 0 0) 0 c m.
Proof.
  intros Hd. pose proof (Inv_new c m Hd) as HI.
  apply LruMap_new_inv in Hd as [Hc ->].
  split; [done|]. do 3 (split; [done|]). split; [unfold INT64_MAX; lia|].
  intros _. split; constructor.
Qed.

(** The state in which [LruMapTest::Test] returns, for a capacity [cn]. *)
Lemma Test_returns (cn : nat) :
  1 ≤ cn → (2 * Z.of_nat cn ≤ INT_MAX)%Z →
  ∃ w, LruMapTest_Test P clock (Z.of_nat cn) = Done w ∧
    at_call P clock (Z.of_nat cn)
      (((2 * Z.of_nat cn - 2)%Z, 2016%Z) ::
       reverse (test_pairs (Z.of_nat cn) (cn - 2)))
      (test_stats (2 * Z.of_nat cn + 1) (Z.of_nat cn) (4 * Z.of_nat cn + 2)
         (2 * Z.of_nat cn + 1) 1)
      (6 * cn + 3) w.
Proof.
  intros Hcn Hb. set (c := Z.of_nat cn).
  assert (Hceq : c = Z.of_nat cn) by done.
  assert (Hbig : (8 * c + 8 ≤ INT64_MAX)%Z)
    by (unfold INT_MAX in Hb; unfold INT64_MAX; lia).
  assert (Hmax : (INT_MAX < INT64_MAX)%Z) by (unfold INT_MAX, INT64_MAX; lia).
  assert (Hmin : (INT_MIN ≤ 0)%Z) by (unfold INT_MIN; lia).
  assert (Hc : (1 ≤ c)%Z) by (unfold c; lia).
  unfold LruMapTest_Test.
  rewrite !to_int32_small by (unfold c; lia).
  destruct (LruMap_new c) as [m0| |] eqn:Hnew.
  2,3: unfold LruMap_new in Hnew;
       rewrite (proj2 (Z.leb_le 1 c)) in Hnew by done; discriminate.
  pose proof (holds_new c m0 Hnew) as Hh0.
  rewrite (outcome_bind_Done _ m0) by done.
  rewrite (CHECK_true (Valid P m0)) by exact (holds_Valid _ _ _ _ _ Hh0).
  rewrite (CHECK_true (Capacity m0 =? c)%Z).
  2:{ apply Z.eqb_eq. by destruct Hh0 as (_ & ? & _). }
  rewrite (outcome_bind_Done _ _ _ (holds_Size _ _ _ _ _ Hh0)).
  rewrite (CHECK_true (Z.of_nat (length (@nil (Z * Z))) =? 0)%Z) by done.
  assert (Hw0 : at_call P clock c [] (test_stats 0 0 0 0 0) 0 (m0, 0)).
  { split; [done|]. exists 0%Z. split; [|done].
    pose proof (clock_range 0). lia. }
  (* Lookup of [0, N) fails. *)
  destruct (MatchExpectations_absent c [] 0 0 0 0 0 0 0 cn _ Hw0)
    as (w1 & Hd1 & Hw1); [by intros k _ ?%elem_of_nil|done|lia|lia|].
  rewrite Z.add_0_l in Hd1. fold c in Hd1.
  rewrite (outcome_bind_Done _ _ _ Hd1).
  (* Insert [0, N). *)
  destruct (Test_fill cn _ _ _ _ _ _ _ Hw1) as (w2 & Hd2 & Hw2); [lia|lia|].
  fold c in Hd2. rewrite (outcome_bind_Done _ _ _ Hd2).
  destruct Hw2 as [Hn2 (t2 & Ht2 & Hh2)].
  rewrite (outcome_bind_Done _ _ _ (holds_Size _ _ _ _ _ Hh2)).
  rewrite CHECK_true
    by (rewrite length_reverse, length_test_pairs; apply Z.eqb_refl).
  assert (Hw2 : at_call P clock c (reverse (test_pairs 0 cn))
                  (test_stats (0 + c) 0 (0 + c) 0 0) (0 + cn + cn) w2).
  { split; [done|]. by exists t2. }
  clear Hn2 t2 Ht2 Hh2.
  (* Lookup of [0, N) succeeds. *)
  destruct (MatchExpectations_present c _ _ _ _ _ _ 0 cn _ Hw2)
    as (w3 & Hd3 & Hw3); [done|lia|lia|].
  rewrite Z.add_0_l in Hd3. fold c in Hd3.
  rewrite (outcome_bind_Done _ _ _ Hd3).
  (* Insert [N, 2N). *)
  destruct (Test_overflow cn _ _ _ _ _ _ _ Hw3) as (w4 & Hd4 & Hw4);
    [done|done|lia|lia|].
  fold c in Hd4, Hw4. rewrite (outcome_bind_Done _ _ _ Hd4).
  (* Lookup of [0, N) fails. *)
  destruct (MatchExpectations_absent c _ _ _ _ _ _ _ 0 cn _ Hw4)
    as (w5 & Hd5 & Hw5).
  { intros k Hk. unfold c. rewrite reverse_test_pairs_keys. lia. }
  { done. }
  { lia. }
  { lia. }
  rewrite Z.add_0_l in Hd5. fold c in Hd5, Hw5.
  rewrite (outcome_bind_Done _ _ _ Hd5).
  (* Lookup of [N, 2N) succeeds. *)
  destruct (MatchExpectations_present c _ _ _ _ _ _ c cn _ Hw5)
    as (w6 & Hd6 & Hw6); [lia|lia|lia|].
  fold c in Hd6, Hw6. replace (c + c)%Z with (2 * c)%Z in Hd6 by lia.
  rewrite (outcome_bind_Done _ _ _ Hd6). cbv zeta.
  (* Find, Erase, Find. *)
  destruct w6 as [m6 n6']. destruct Hw6 as [Hn6 (t6 & Ht6 & Hh6)].
  simpl in Hn6, Hh6. subst n6'. simpl.
  set (n6 := 0 + cn + cn + cn + cn + cn + cn) in *.
  pose proof (clock_range n6) as Hr6.
  destruct cn as [|cn']; [lia|].
  assert (Hkx : (2 * c - 1 = c + Z.of_nat cn')%Z) by (unfold c; lia).
  rewrite Hkx.
  destruct (holds_Find_hit _ _ _ _ _ (clock n6) (c + Z.of_nat cn')%Z
              (KeyToValue (c + Z.of_nat cn')) Hh6) as (m7 & Hd7 & Hh7).
  { apply elem_of_reverse, elem_of_test_pairs. lia. }
  { lia. }
  { simpl. lia. }
  rewrite (outcome_bind_Done _ _ _ Hd7). simpl.
  destruct (holds_Erase _ _ _ _ _ (c + Z.of_nat cn')%Z Hh7)
    as (m8 & Hd8 & Hh8); [simpl; lia|].
  rewrite (outcome_bind_Done _ _ _ Hd8).
  rewrite filter_cons_False in Hh8 by (by intros Hn; apply Hn).
  rewrite list_filter_filter in Hh8.
  rewrite (list_filter_iff _ (λ kv : Z * Z, kv.1 ≠ (c + Z.of_nat cn')%Z))
    in Hh8 by (intros; tauto).
  rewrite filter_reverse_test_pairs_last in Hh8.
  destruct (holds_Find_miss _ _ _ _ _ (clock (S n6)) (c + Z.of_nat cn')%Z Hh8)
    as (m9 & Hd9 & Hh9).
  { rewrite reverse_test_pairs_keys. lia. }
  { simpl. lia. }
  rewrite (outcome_bind_Done _ _ _ Hd9). simpl.
  (* Overwrite Insert. *)
  pose proof (at_call_next _ _ _ (S n6) (clock n6) m9
                (clock_mono n6 (S n6) (Nat.le_succ_diag_r n6)) Hh9) as Hw9.
  destruct (test_Insert _ _ _ _ (2 * c - 2)%Z 2016%Z _ Hw9)
    as (w10 & Hd10 & Hw10); [simpl; lia|].
  exists w10. split; [done|].
  eapply at_call_eq; [exact Hw10| | |unfold n6; lia].
  - unfold c at 1. rewrite Nat2Z.id.
    destruct cn' as [|cn''].
    + done.
    + replace (2 * c - 2)%Z with (c + Z.of_nat cn'')%Z by (unfold c; lia).
      rewrite filter_reverse_test_pairs_last.
      rewrite take_ge by (simpl; rewrite length_reverse, length_test_pairs; lia).
      do 3 f_equal. lia.
  - rewrite bool_decide_false.
    2:{ rewrite length_reverse, length_test_pairs. unfold c. lia. }
    unfold test_stats. simpl. f_equal; lia.
Qed.


End TestPasses.

